(** * YTLantern: resolution and download orchestration

    A shallow embedding of the server-side services of YTLantern
    ([services/videoParser.js], [services/videoDownloader.js],
    [services/subtitleDownloader.js], [services/cleanup.js], the rate
    limiter and the request validation of [middleware], and the API
    routes of the server) together with the properties that the design
    document states about them and further properties that the code
    itself shows.

    Conventions of the embedding.
    - A JavaScript string is a [string]: the bytes of its UTF-8
      encoding.  Character classes, case mapping and white space are
      those of ASCII, and a pattern sees the bytes above 127 as opaque
      characters; where the code counts characters ([substring]) the
      model counts UTF-16 code units, as the language does.
    - A JavaScript number is a rational ([Q]): every finite double is a
      rational, order and subtraction agree with those of the doubles, and
      [toFixed] rounds the exact value.  Values of 10^21 and more, for
      which [toFixed] switches to exponent notation, are outside the
      model.
    - [undefined]/[null] fields are [None].
    - Side effects (subprocesses, file system, clock) are explicit: a
      world is threaded through the effectful functions and every
      effect is appended to a log. *)

From Stdlib Require Import ZArith QArith Qround Qabs String Ascii List Bool Lia.
From Stdlib Require Import DecimalString DecimalZ DecimalN.
From Stdlib Require Import Sorted.
From stdpp Require Import base option gmap strings list fin_maps.
Import ListNotations.

Open Scope string_scope.

(* ===================================================================== *)
(** * Part I: the embedding                                               *)
(* ===================================================================== *)

(** ** JavaScript strings *)

Module JsString.

Definition chars : string -> list ascii := list_ascii_of_string.
Definition str : list ascii -> string := string_of_list_ascii.

Definition code (a : ascii) : nat := nat_of_ascii a.

Definition in_range (lo hi : nat) (a : ascii) : bool :=
  (lo <=? code a)%nat && (code a <=? hi)%nat.

Definition is_lower (a : ascii) : bool := in_range 97 122 a.
Definition is_upper (a : ascii) : bool := in_range 65 90 a.
Definition is_digit (a : ascii) : bool := in_range 48 57 a.
Definition is_alpha (a : ascii) : bool := is_lower a || is_upper a.

(** [\w] *)
Definition is_word (a : ascii) : bool :=
  is_alpha a || is_digit a || (code a =? 95)%nat.

(** [\s], and the characters [trim] strips: TAB, LF, VT, FF, CR, SP. *)
Definition is_space (a : ascii) : bool :=
  in_range 9 13 a || (code a =? 32)%nat.

(** Line terminators: the characters that [.] does not match. *)
Definition is_newline (a : ascii) : bool :=
  (code a =? 10)%nat || (code a =? 13)%nat.

Definition LF : ascii := ascii_of_nat 10.
Definition CR : ascii := ascii_of_nat 13.

(** A string is truthy when it is not empty. *)
Definition truthy (s : string) : bool :=
  match s with EmptyString => false | String _ _ => true end.

(** An optional string is truthy when present and not empty. *)
Definition otruthy (o : option string) : bool :=
  match o with Some s => truthy s | None => false end.

(** [a || b] on optional strings. *)
Definition or_else (o : option string) (d : string) : string :=
  match o with
  | Some s => if truthy s then s else d
  | None => d
  end.

(** [String.prototype.toLowerCase] *)
Definition lower_char (a : ascii) : ascii :=
  if is_upper a then ascii_of_nat (code a + 32) else a.

Definition toLowerCase (s : string) : string :=
  str (map lower_char (chars s)).

(** [String.prototype.startsWith] on character lists. *)
Fixpoint prefix_of (p s : list ascii) : bool :=
  match p, s with
  | [], _ => true
  | a :: p', b :: s' => Ascii.eqb a b && prefix_of p' s'
  | _ :: _, [] => false
  end.

Fixpoint includes_at (p s : list ascii) : bool :=
  prefix_of p s ||
  match s with
  | [] => false
  | _ :: s' => includes_at p s'
  end.

(** [String.prototype.includes] *)
Definition includes (s p : string) : bool := includes_at (chars p) (chars s).

(** [String.prototype.trim] *)
Fixpoint drop_space (s : list ascii) : list ascii :=
  match s with
  | a :: s' => if is_space a then drop_space s' else s
  | [] => []
  end.

Definition trim (s : string) : string :=
  str (rev (drop_space (rev (drop_space (chars s))))).

(** [String.prototype.replace(c, d)] with string arguments: only the
    first occurrence of the character is replaced. *)
Fixpoint replace_first (c d : ascii) (s : list ascii) : list ascii :=
  match s with
  | [] => []
  | a :: s' => if Ascii.eqb a c then d :: s' else a :: replace_first c d s'
  end.

Definition replace1 (c d : ascii) (s : string) : string :=
  str (replace_first c d (chars s)).

(** [s.split(/(\r\n|\n)/)]: the separator is a capturing group, so
    the separators themselves are elements of the result. *)
Fixpoint split_keep (cur : list ascii) (s : list ascii) : list string :=
  match s with
  | [] => [str (rev cur)]
  | a :: s' =>
      if Ascii.eqb a LF then
        str (rev cur) :: str [LF] :: split_keep [] s'
      else if Ascii.eqb a CR then
        match s' with
        | b :: s'' =>
            if Ascii.eqb b LF
            then str (rev cur) :: str [CR; LF] :: split_keep [] s''
            else split_keep (a :: cur) s'
        | [] => split_keep (a :: cur) s'
        end
      else split_keep (a :: cur) s'
  end.

Definition split_newlines_keep (s : string) : list string :=
  split_keep [] (chars s).

(** [s.split('\n')] *)
Fixpoint split_at (c : ascii) (cur : list ascii) (s : list ascii) : list string :=
  match s with
  | [] => [str (rev cur)]
  | a :: s' =>
      if Ascii.eqb a c then str (rev cur) :: split_at c [] s'
      else split_at c (a :: cur) s'
  end.

Definition split_lines (s : string) : list string :=
  split_at LF [] (chars s).

(** *** Code units

    [substring] counts UTF-16 code units.  In the UTF-8 form of a text a
    character of one, two or three bytes is one unit, and a character of
    four bytes is two units, a surrogate pair.  Cutting between the two
    leaves the first surrogate on its own, as in the JavaScript string;
    UTF-8 proper has no form for it, and it is written in the three-byte
    form of its value, so that the units of the result are those of the
    JavaScript string.  The output of the tool is decoded by the
    platform, so the texts met here are well formed; on a text that
    ends inside a character the rest counts as one unit. *)

(** The value of a byte. *)
Definition byte (a : ascii) : Z := Z.of_nat (code a).

(** The scalar value that four bytes encode. *)
Definition scalar4 (a b c d : ascii) : Z :=
  ((byte a mod 8) * 262144 + (byte b mod 64) * 4096
   + (byte c mod 64) * 64 + byte d mod 64)%Z.

(** The two surrogates of a scalar value above the basic plane. *)
Definition high_unit (cp : Z) : Z := (55296 + Z.max 0 (cp - 65536) / 1024)%Z.
Definition low_unit (cp : Z) : Z := (56320 + Z.max 0 (cp - 65536) mod 1024)%Z.

(** The UTF-16 code units of a text. *)
Fixpoint units (s : list ascii) : list Z :=
  match s with
  | [] => []
  | a :: s1 =>
      if (byte a <? 192)%Z then byte a :: units s1
      else if (byte a <? 224)%Z then
        match s1 with
        | b :: s2 => ((byte a mod 32) * 64 + byte b mod 64)%Z :: units s2
        | [] => [byte a]
        end
      else if (byte a <? 240)%Z then
        match s1 with
        | b :: c :: s3 =>
            ((byte a mod 16) * 4096 + (byte b mod 64) * 64 + byte c mod 64)%Z
            :: units s3
        | _ => [byte a]
        end
      else
        match s1 with
        | b :: c :: d :: s4 =>
            high_unit (scalar4 a b c d) :: low_unit (scalar4 a b c d) :: units s4
        | _ => [byte a]
        end
  end.

(** A surrogate on its own, in the three-byte form. *)
Definition surrogate_bytes (u : Z) : list ascii :=
  [ascii_of_nat 237;
   ascii_of_nat (Z.to_nat (128 + (u / 64) mod 64));
   ascii_of_nat (Z.to_nat (128 + u mod 64))].

(** The first [n] code units of a text. *)
Fixpoint take_units (n : nat) (s : list ascii) {struct s} : list ascii :=
  match n, s with
  | O, _ => []
  | _, [] => []
  | S n', a :: s1 =>
      if (byte a <? 192)%Z then a :: take_units n' s1
      else if (byte a <? 224)%Z then
        match s1 with
        | b :: s2 => a :: b :: take_units n' s2
        | [] => s
        end
      else if (byte a <? 240)%Z then
        match s1 with
        | b :: c :: s3 => a :: b :: c :: take_units n' s3
        | _ => s
        end
      else
        match s1 with
        | b :: c :: d :: s4 =>
            match n' with
            | O => surrogate_bytes (high_unit (scalar4 a b c d))
            | S n'' => a :: b :: c :: d :: take_units n'' s4
            end
        | _ => s
        end
  end.

(** [String.prototype.substring(0, n)] *)
Definition substring0 (n : nat) (s : string) : string :=
  str (take_units n (chars s)).

End JsString.

(** ** Regular expressions

    A backtracking matcher with the priorities of ECMAScript: the left
    alternative first, a greedy star takes an iteration before it tries
    the continuation, a lazy one the other way round, and an iteration
    that consumes nothing is refused.  Capturing groups are numbered as
    in the source pattern. *)

Module Regex.
Import JsString.

Inductive regex : Type :=
| Eps : regex
| Cls : (ascii -> bool) -> regex
| Cat : regex -> regex -> regex
| Alt : regex -> regex -> regex
| Star : bool -> regex -> regex
| Grp : nat -> regex -> regex
| Bol : regex
| Eol : regex.

Definition captures : Type := list (nat * list ascii).

Definition cont : Type := nat -> list ascii -> captures -> option captures.

(** [rmatch r i s c k]: match [r] at offset [i], where [s] is the
    input from [i] on, then continue with [k]. *)
Fixpoint rmatch (r : regex) (i : nat) (s : list ascii) (c : captures)
         (k : cont) {struct r} : option captures :=
  match r with
  | Eps => k i s c
  | Cls p =>
      match s with
      | a :: s' => if p a then k (S i) s' c else None
      | [] => None
      end
  | Cat r1 r2 => rmatch r1 i s c (fun i1 s1 c1 => rmatch r2 i1 s1 c1 k)
  | Alt r1 r2 =>
      match rmatch r1 i s c k with
      | Some x => Some x
      | None => rmatch r2 i s c k
      end
  | Star greedy r1 =>
      (fix loop (fuel : nat) (i : nat) (s : list ascii) (c : captures)
         {struct fuel} : option captures :=
         match fuel with
         | O => k i s c
         | S fuel' =>
             let more :=
               rmatch r1 i s c
                 (fun i1 s1 c1 =>
                    if (i <? i1)%nat then loop fuel' i1 s1 c1 else None) in
             if greedy then
               match more with
               | Some x => Some x
               | None => k i s c
               end
             else
               match k i s c with
               | Some x => Some x
               | None => more
               end
         end) (S (length s)) i s c
  | Grp n r1 =>
      rmatch r1 i s c
        (fun i1 s1 c1 => k i1 s1 ((n, firstn (i1 - i) s) :: c1))
  | Bol => if (i =? 0)%nat then k i s c else None
  | Eol => match s with [] => k i s c | _ :: _ => None end
  end.

(** The search of a pattern without the [g] flag: leftmost start. *)
Fixpoint search (r : regex) (i : nat) (s : list ascii) : option captures :=
  match rmatch r i s [] (fun _ _ c => Some c) with
  | Some c => Some c
  | None =>
      match s with
      | [] => None
      | _ :: s' => search r (S i) s'
      end
  end.

(** [s.match(r)] *)
Definition exec (r : regex) (s : string) : option captures :=
  search r 0 (chars s).

(** [r.test(s)], and the truth value of [s.match(r)]. *)
Definition test (r : regex) (s : string) : bool :=
  match exec r s with Some _ => true | None => false end.

(** [m[n]] of a successful match. *)
Fixpoint group (n : nat) (c : captures) : option string :=
  match c with
  | [] => None
  | (m, v) :: c' => if (m =? n)%nat then Some (str v) else group n c'
  end.

(** *** Pattern syntax *)

Definition chr (a : ascii) : regex := Cls (Ascii.eqb a).

Fixpoint lit_chars (s : list ascii) : regex :=
  match s with
  | [] => Eps
  | [a] => chr a
  | a :: s' => Cat (chr a) (lit_chars s')
  end.

Definition lit (s : string) : regex := lit_chars (chars s).

(** [.] *)
Definition dot : regex := Cls (fun a => negb (is_newline a)).
(** [r*], [r*?], [r+], [r?] *)
Definition star (r : regex) : regex := Star true r.
Definition lazy_star (r : regex) : regex := Star false r.
Definition plus (r : regex) : regex := Cat r (Star true r).
Definition opt (r : regex) : regex := Alt r Eps.

(** [r{n}] *)
Fixpoint rep (n : nat) (r : regex) : regex :=
  match n with
  | O => Eps
  | S n' => Cat r (rep n' r)
  end.

(** [r{0,n}] *)
Fixpoint upto (n : nat) (r : regex) : regex :=
  match n with
  | O => Eps
  | S n' => opt (Cat r (upto n' r))
  end.

(** [r{n,m}] *)
Definition between (n m : nat) (r : regex) : regex :=
  Cat (rep n r) (upto (m - n) r).

Fixpoint seq_of (rs : list regex) : regex :=
  match rs with
  | [] => Eps
  | [r] => r
  | r :: rs' => Cat r (seq_of rs')
  end.

Fixpoint alt_of (rs : list regex) : regex :=
  match rs with
  | [] => Cls (fun _ => false)
  | [r] => r
  | r :: rs' => Alt r (alt_of rs')
  end.

Definition word : regex := Cls is_word.
Definition digit : regex := Cls is_digit.
Definition space : regex := Cls is_space.
Definition one_of (p : ascii -> bool) : regex := Cls p.

End Regex.

(** ** JavaScript numbers *)

Module JsNumber.
Import JsString.
Local Open Scope list_scope.

(** A number is truthy_num when it is not zero. *)
Definition truthy_num (x : Q) : bool := negb (Qeq_bool x 0).

(** [x || 0] *)
Definition or_zero (o : option Q) : Q :=
  match o with
  | Some x => if truthy_num x then x else 0
  | None => 0
  end.

(** [a || b || 0] *)
Definition first_truthy (a b : option Q) : Q :=
  match a with
  | Some x => if truthy_num x then x else or_zero b
  | None => or_zero b
  end.

(** [x >= t] for a threshold [t > 0]: false when [x] is absent. *)
Definition ge (o : option Q) (t : Q) : bool :=
  match o with
  | Some x => Qle_bool t x
  | None => false
  end.

Definition is_negative (x : Q) : bool := negb (Qle_bool 0 x).

(** The integer [n] for which [n / 10^f - x] is closest to zero, the
    larger one when there are two ([x >= 0]). *)
Definition scaled_round (f : nat) (x : Q) : Z :=
  Qfloor (x * inject_Z (10 ^ Z.of_nat f) + (1 # 2)).

Definition digits_of_N (n : N) : string :=
  NilZero.string_of_uint (N.to_uint n).

Fixpoint zeros (n : nat) : list ascii :=
  match n with
  | O => []
  | S n' => "0"%char :: zeros n'
  end.

(** Insert the decimal point [f] digits from the right, padding with
    zeros on the left so that one digit at least precedes it. *)
Definition with_point (f : nat) (ds : list ascii) : list ascii :=
  match f with
  | O => ds
  | S _ =>
      let padded := zeros (S f - length ds) ++ ds in
      let k := (length padded - f)%nat in
      firstn k padded ++ "."%char :: skipn k padded
  end.

(** [Number.prototype.toFixed(f)] *)
Definition toFixed (f : nat) (x : Q) : string :=
  let neg := is_negative x in
  let n := Z.to_N (scaled_round f (Qabs x)) in
  let body := str (with_point f (chars (digits_of_N n))) in
  if neg then "-" +:+ body else body.

(** The longest prefix of decimal digits. *)
Fixpoint take_digits (s : list ascii) : list ascii * list ascii :=
  match s with
  | a :: s' =>
      if is_digit a
      then let '(d, r) := take_digits s' in (a :: d, r)
      else ([], s)
  | [] => ([], [])
  end.

Definition N_of_digits (ds : list ascii) : option N :=
  match NilEmpty.uint_of_string (str ds) with
  | Some d => Some (N.of_uint d)
  | None => None
  end.

(** [parseFloat] on decimal literals without exponent: leading white
    space and a sign are allowed and parsing stops at the first
    character that does not continue the literal; [None] is NaN. *)
Definition parseFloat (s : string) : option Q :=
  let cs := drop_space (chars s) in
  let '(neg, cs1) :=
    match cs with
    | a :: r =>
        if Ascii.eqb a "-" then (true, r)
        else if Ascii.eqb a "+" then (false, r) else (false, cs)
    | [] => (false, cs)
    end in
  let '(ip, r1) := take_digits cs1 in
  let '(fp, hasfrac) :=
    match r1 with
    | a :: r2 => if Ascii.eqb a "." then (fst (take_digits r2), true) else ([], false)
    | [] => ([], false)
    end in
  match ip, fp with
  | [], [] => None
  | _, _ =>
      match N_of_digits (ip ++ fp) with
      | Some n =>
          let v := (Z.of_N n # Pos.of_nat (10 ^ length fp))%Q in
          Some (if neg then Qopp v else v)
      | None => None
      end
  end.

End JsNumber.

(** ** The host: file system, child processes, exceptions

    [execSync], [existsSync], [mkdirSync] and [readFileSync] act on a
    world made of a file system and a chronological log of the effects
    performed so far.  What a child process prints, whether it fails and
    what it leaves on disk is not decided by this repository: it is the
    parameter [run] of the host, which sees the command line and the
    whole world (so the same command may succeed at one time and fail at
    another). *)

Module Sys.
Import JsString.
Local Open Scope list_scope.

Record FS : Type := mkFS {
  dirs : gset string;
  files : gmap string string
}.

Inductive event : Type :=
| Spawn (cmd : string)
| Exists (path : string)
| Mkdir (path : string)
| ReadFile (path : string).

Record World : Type := mkWorld {
  fs : FS;
  log : list event
}.

(** The value of a computation that may throw; an exception carries
    its [message]. *)
Inductive outcome (A : Type) : Type :=
| Ok (a : A)
| Throw (message : string).
Arguments Ok {A} a.
Arguments Throw {A} message.

Class Host : Type := mkHost {
  (** [config.cookie] and [config.tmpDir] *)
  cookie : string;
  tmpDir : string;
  (** A child process: its standard output, or the message of the
      error that [execSync] throws, and the file system it leaves. *)
  run : string -> World -> outcome string * FS
}.

Definition M (A : Type) : Type := World -> outcome A * World.

Definition ret {A} (a : A) : M A := fun w => (Ok a, w).

Definition bind {A B} (m : M A) (f : A -> M B) : M B :=
  fun w =>
    match m w with
    | (Ok a, w') => f a w'
    | (Throw e, w') => (Throw e, w')
    end.

Definition throw {A} (message : string) : M A := fun w => (Throw message, w).

(** [try { m } catch (error) { h error.message }] *)
Definition try_catch {A} (m : M A) (h : string -> M A) : M A :=
  fun w =>
    match m w with
    | (Ok a, w') => (Ok a, w')
    | (Throw e, w') => h e w'
    end.

Definition emit (e : event) (w : World) : World :=
  {| fs := fs w; log := log w ++ [e] |}.

Definition exists_in (f : FS) (path : string) : bool :=
  bool_decide (path ∈ dirs f) || bool_decide (is_Some (files f !! path)).

(** [fs.existsSync] *)
Definition existsSync (path : string) : M bool :=
  fun w => (Ok (exists_in (fs w) path), emit (Exists path) w).

(** The proper ancestors of a path: its prefixes that end before a
    [/], the empty prefix apart. *)
Fixpoint ancestors_from (pre : list ascii) (s : list ascii) : list string :=
  match s with
  | [] => []
  | a :: s' =>
      (if Ascii.eqb a "/" && negb (bool_decide (pre = []))
       then [str (rev pre)] else [])
      ++ ancestors_from (a :: pre) s'
  end.

Definition ancestors (path : string) : list string :=
  ancestors_from [] (chars path).

(** [fs.mkdirSync(path, { recursive: true })]: creates the directory
    and its missing ancestors; throws when a regular file is in the
    way. *)
Definition mkdirSync (path : string) : M unit :=
  fun w =>
    let w1 := emit (Mkdir path) w in
    let chain := ancestors path ++ [path] in
    if existsb (fun q => bool_decide (is_Some (files (fs w) !! q))) chain
    then (Throw ("EEXIST: file already exists, mkdir '" +:+ path +:+ "'"), w1)
    else (Ok tt,
          {| fs := {| dirs := dirs (fs w) ∪ list_to_set chain;
                      files := files (fs w) |};
             log := log w1 |}).

(** [fs.readFileSync(path, 'utf8')] *)
Definition readFileSync (path : string) : M string :=
  fun w =>
    let w1 := emit (ReadFile path) w in
    match files (fs w) !! path with
    | Some content => (Ok content, w1)
    | None =>
        (Throw ("ENOENT: no such file or directory, open '" +:+ path +:+ "'"), w1)
    end.

(** [child_process.execSync] *)
Definition execSync `{Host} (cmd : string) : M string :=
  fun w =>
    let w1 := emit (Spawn cmd) w in
    let '(r, f) := run cmd w1 in
    (r, {| fs := f; log := log w1 |}).

(** The commands spawned, in order. *)
Fixpoint spawned (l : list event) : list string :=
  match l with
  | [] => []
  | Spawn c :: l' => c :: spawned l'
  | _ :: l' => spawned l'
  end.

(** [Error.prototype.toString] *)
Definition error_toString (message : string) : string := "Error: " +:+ message.

Definition dquote : string := String (ascii_of_nat 34) EmptyString.
Definition nl : string := String LF EmptyString.

End Sys.

Notation "'let!' x ':=' m 'in' k" := (Sys.bind m (fun x => k))
  (at level 10, x name, m at level 100, k at level 200).
Notation "m1 ';;' m2" := (Sys.bind m1 (fun _ => m2))
  (at level 100, right associativity).

(** ** services/videoParser.js *)

Module VideoParser.
Import JsString JsNumber Regex Sys.
Local Open Scope list_scope.

(** *** Quality labels *)

Record QualityInfo : Type := mkQuality {
  quality : string;
  standard : string;
  label : string
}.

Definition mapVideoQuality (height : option Q) (formatNote : option string)
  : QualityInfo :=
  let note := toLowerCase (or_else formatNote "") in
  if ge height 2160 then mkQuality "2160p" "4K" "2160p 4K"
  else if ge height 1440 then mkQuality "1440p" "2K" "1440p 2K"
  else if ge height 1080 then mkQuality "1080p" "Full HD" "1080p Full HD"
  else if ge height 720 then mkQuality "720p" "HD" "720p HD"
  else if ge height 480 then mkQuality "480p" "SD" "480p 标清"
  else if ge height 360 then mkQuality "360p" "Low" "360p 流畅"
  else if ge height 240 then mkQuality "240p" "Low" "240p"
  else if ge height 144 then mkQuality "144p" "Low" "144p"
  else if includes note "4k" || includes note "2160" then
    mkQuality "2160p" "4K" (or_else formatNote "2160p 4K")
  else if includes note "1440" || includes note "2k" then
    mkQuality "1440p" "2K" (or_else formatNote "1440p 2K")
  else if includes note "1080" || includes note "full hd" then
    mkQuality "1080p" "Full HD" (or_else formatNote "1080p Full HD")
  else if includes note "720" || includes note "hd" then
    mkQuality "720p" "HD" (or_else formatNote "720p HD")
  else if includes note "480" then
    mkQuality "480p" "SD" (or_else formatNote "480p 标清")
  else if includes note "360" then
    mkQuality "360p" "Low" (or_else formatNote "360p 流畅")
  else mkQuality "unknown" "Unknown" (or_else formatNote "Unknown").

Definition mapAudioQuality (abr : option Q) : string :=
  if ge abr 320 then "High (320kbps+)"
  else if ge abr 192 then "Medium (192kbps+)"
  else if ge abr 128 then "Standard (128kbps+)"
  else if ge abr 96 then "Low (96kbps+)"
  else "Unknown".

(** *** Platform resolution (the head of [parseVideo]) *)

Inductive website : Type := y2b | bilibili.

#[global] Instance website_eq_dec : EqDecision website.
Proof. solve_decision. Defined.

Definition id_char (a : ascii) : bool :=
  is_alpha a || is_digit a || Ascii.eqb a "_" || Ascii.eqb a "-".

(** [/^https?:\/\/(?:www\.|m\.)?bilibili\.com\/video\/([\w\d]{11,14})\/?Q?$/]
    where [Q] is the optional query: a non-capturing group of [\?]
    followed by any number of [.] *)
Definition bilibiliRegex : regex :=
  seq_of [Bol; lit "http"; opt (chr "s"); lit "://";
          opt (Alt (lit "www.") (lit "m."));
          lit "bilibili.com/video/";
          Grp 1 (between 11 14 (one_of (fun a => is_word a || is_digit a)));
          opt (chr "/");
          opt (Cat (chr "?") (star dot));
          Eol].

(** [/(?:youtube\.com\/watch\?.*v=|youtu\.be\/|youtube\.com\/embed\/|youtube\.com\/v\/)([a-zA-Z0-9_-]{11})/]
    and [/youtube\.com\/watch\?.*[&?]v=([a-zA-Z0-9_-]{11})/] *)
Definition patterns : list regex :=
  [ seq_of [alt_of [seq_of [lit "youtube.com/watch?"; star dot; lit "v="];
                    lit "youtu.be/";
                    lit "youtube.com/embed/";
                    lit "youtube.com/v/"];
            Grp 1 (rep 11 (one_of id_char))];
    seq_of [lit "youtube.com/watch?"; star dot;
            one_of (fun a => Ascii.eqb a "&" || Ascii.eqb a "?");
            lit "v=";
            Grp 1 (rep 11 (one_of id_char))] ].

(** [/[?&]p=(\d+)/] *)
Definition partRegex : regex :=
  seq_of [one_of (fun a => Ascii.eqb a "?" || Ascii.eqb a "&");
          lit "p="; Grp 1 (plus digit)].

(** The loop over [patterns]: the first pattern that matches gives
    the identifier. *)
Fixpoint first_match (ps : list regex) (url : string) : option string :=
  match ps with
  | [] => None
  | r :: ps' =>
      match exec r url with
      | Some m => group 1 m
      | None => first_match ps' url
      end
  end.

Record Identity : Type := mkIdentity {
  id_website : website;
  id_videoID : string;
  id_p : option string
}.

(** Lines 89-121: [website], [videoID] and [p] as they stand when the
    guard [!website || !videoID] is reached; [None] when it throws. *)
Definition resolve (url : string) : option Identity :=
  if includes url "youtube.com" || includes url "youtu.be" then
    match first_match patterns url with
    | Some videoID =>
        if truthy videoID then Some (mkIdentity y2b videoID None) else None
    | None => None
    end
  else if includes url "bilibili.com" then
    match exec bilibiliRegex url with
    | Some m =>
        match group 1 m with
        | Some videoID =>
            let p := match exec partRegex url with
                     | Some pm => group 1 pm
                     | None => None
                     end in
            if truthy videoID then Some (mkIdentity bilibili videoID p) else None
        | None => None
        end
    | None => None
    end
  else None.

Definition unsupported_url_message : string :=
  "请提供一个有效的YouTube或Bilibili视频URL" +:+ nl +:+
  "支持格式：" +:+ nl +:+
  "https://www.youtube.com/watch?v=VIDEO_ID" +:+ nl +:+
  "https://youtu.be/VIDEO_ID" +:+ nl +:+
  "https://www.bilibili.com/video/BV_ID".

(** *** Subtitle listing *)

(** What [catchSubtitle] returns: a language code, [0] or [-1]. *)
Inductive caught : Type :=
| Code (sub : string)
| Header
| EndOfList.

(** [/^Language .*/] *)
Definition languageHeader : regex := seq_of [Bol; lit "Language "; star dot].

(** [/^(danmaku|[a-z]{2}(?:-[a-zA-Z]+)?).*/] *)
Definition languageCode : regex :=
  seq_of [Bol;
          Grp 1 (Alt (lit "danmaku")
                     (Cat (rep 2 (one_of is_lower))
                          (opt (Cat (chr "-") (plus (one_of is_alpha))))));
          star dot].

Definition catchSubtitle (line : string) : caught :=
  if test languageHeader line then Header
  else match exec languageCode line with
       | Some m => match group 1 m with
                   | Some sub => Code sub
                   | None => EndOfList
                   end
       | None => EndOfList
       end.

(** [/.*Available automatic captions for .*?:/] *)
Definition autoCaptions : regex :=
  seq_of [star dot; lit "Available automatic captions for ";
          lazy_star dot; chr ":"].

(** [/.*Available subtitles for .*?:/] *)
Definition officialSubtitles : regex :=
  seq_of [star dot; lit "Available subtitles for "; lazy_star dot; chr ":"].

(** [!line || line === '\n'] *)
Definition skipped (line : string) : bool :=
  negb (truthy line) || String.eqb line nl.

(** The inner loop over [j]: the lines after the header of the
    official section. *)
Fixpoint officialList (lines : list string) : list string :=
  match lines with
  | [] => []
  | l :: rest =>
      let subLine := trim l in
      if skipped subLine then officialList rest
      else match catchSubtitle subLine with
           | EndOfList => []
           | Header => officialList rest
           | Code sub =>
               if truthy sub then sub :: officialList rest
               else officialList rest
           end
  end.

(** The outer loop over [i]; returns [noAutoSub] and [officialSub]. *)
Fixpoint scan (lines : list string) (noAutoSub : bool) : bool * list string :=
  match lines with
  | [] => (noAutoSub, [])
  | l :: rest =>
      let line := trim l in
      if skipped line then scan rest noAutoSub
      else if test autoCaptions line then scan rest false
      else if test officialSubtitles line then (noAutoSub, officialList rest)
      else scan rest noAutoSub
  end.

(** Lines 248-282 of [parseSubtitles]: from the output of the tool to
    the list returned. *)
Definition listSubtitles (result : string) : list string :=
  let lines := split_newlines_keep result in
  let '(noAutoSub, officialSub) := scan lines true in
  if (length officialSub <? 1)%nat
  then (if noAutoSub then [] else ["auto"])
  else officialSub.

(** *** Formats *)

(** One entry of [videoInfo.formats], as the extraction tool reports
    it. *)
Record Format : Type := mkFormat {
  format_id : option string;
  ext : option string;
  audio_ext : option string;
  video_ext : option string;
  abr : option Q;
  vbr : option Q;
  height : option Q;
  format_note : option string;
  format : option string;
  filesize : option Q;
  filesize_approx : option Q;
  resolution : option string
}.

Record VideoInfo : Type := mkVideoInfo {
  title : option string;
  thumbnail : option string;
  duration : option Q;
  uploader : option string;
  view_count : option Q;
  upload_date : option string;
  description : option string;
  formats : option (list Format)
}.

Record AudioEntry : Type := mkAudio {
  a_id : option string;
  a_format : option string;
  a_rate : string;
  a_info : string;
  a_size : string;
  a_quality : string
}.

Record VideoEntry : Type := mkVideo {
  v_id : option string;
  v_format : option string;
  v_scale : option string;
  v_frame : option Q;
  v_rate : string;
  v_info : string;
  v_size : string;
  v_quality : string;
  v_standardQuality : string
}.

(** [x !== 'none'] *)
Definition not_none (x : option string) : bool :=
  match x with
  | Some s => negb (String.eqb s "none")
  | None => true
  end.

Definition num_truthy (x : option Q) : bool :=
  match x with
  | Some q => truthy_num q
  | None => false
  end.

Definition filesizeLabel (f : Format) : string :=
  (if num_truthy (filesize_approx f) then "≈" else "") +:+
  toFixed 2 (first_truthy (filesize f) (filesize_approx f) / 1024 / 1024).

Definition audioEntry (f : Format) : AudioEntry :=
  {| a_id := format_id f;
     a_format := ext f;
     a_rate := toFixed 0 (or_zero (abr f));
     a_info := or_else (format_note f) (or_else (format f) "");
     a_size := filesizeLabel f;
     a_quality := mapAudioQuality (abr f) |}.

Definition videoEntry (f : Format) : VideoEntry :=
  let qualityInfo := mapVideoQuality (height f) (format_note f) in
  {| v_id := format_id f;
     v_format := ext f;
     v_scale := resolution f;
     v_frame := height f;
     v_rate := toFixed 0 (or_zero (vbr f));
     v_info := label qualityInfo;
     v_size := filesizeLabel f;
     v_quality := quality qualityInfo;
     v_standardQuality := standard qualityInfo |}.

(** The body of the [forEach]: one format is pushed on [audios], on
    [videos], or on neither. *)
Definition pushFormat (acc : list AudioEntry * list VideoEntry) (f : Format)
  : list AudioEntry * list VideoEntry :=
  let '(audios, videos) := acc in
  if not_none (audio_ext f) then (audios ++ [audioEntry f], videos)
  else if not_none (video_ext f) then (audios, videos ++ [videoEntry f])
  else (audios, videos).

(** [videoInfo.formats?.forEach(...)] *)
Definition processFormats (fs : option (list Format))
  : list AudioEntry * list VideoEntry :=
  match fs with
  | Some l => fold_left pushFormat l ([], [])
  | None => ([], [])
  end.

(** The comparator [(a, b) => parseFloat(b.rate) - parseFloat(a.rate)]
    says that [a] goes before [b] when it is negative; a NaN result
    counts as zero. *)
Definition goes_before (rate_a rate_b : string) : bool :=
  match parseFloat rate_b, parseFloat rate_a with
  | Some vb, Some va => is_negative (vb - va)
  | _, _ => false
  end.

(** [Array.prototype.sort] is stable: an element moves in front of
    another one only when the comparator says so. *)
Fixpoint insert_sorted {A} (before : A -> A -> bool) (x : A) (l : list A)
  : list A :=
  match l with
  | [] => [x]
  | y :: l' =>
      if before y x then y :: insert_sorted before x l' else x :: l
  end.

Definition sort {A} (before : A -> A -> bool) (l : list A) : list A :=
  fold_right (insert_sorted before) [] l.

Definition sortAudios : list AudioEntry -> list AudioEntry :=
  sort (fun a b => goes_before (a_rate a) (a_rate b)).

Definition sortVideos : list VideoEntry -> list VideoEntry :=
  sort (fun a b => goes_before (v_rate a) (v_rate b)).

(** The object [parseVideo] resolves to.  [best_audio] and
    [best_video] are [None] for the empty object [{}].  [sort] works
    in place, so [audios] and [videos] are the sorted arrays. *)
Record ParseResult : Type := mkResult {
  r_website : website;
  r_v : string;
  r_p : option string;
  r_title : option string;
  r_thumbnail : option string;
  r_duration : option Q;
  r_uploader : option string;
  r_view_count : option Q;
  r_upload_date : option string;
  r_description : string;
  best_audio : option AudioEntry;
  best_video : option VideoEntry;
  audios : list AudioEntry;
  videos : list VideoEntry;
  subs : list string
}.

(** [JSON.parse] of the output of the tool, read as a [VideoInfo];
    a built-in of the language, not code of this repository. *)
Class Json : Type := { JSON_parse : string -> outcome VideoInfo }.

Definition buildResult (ident : Identity) (p : option string)
           (videoInfo : VideoInfo) (subs : list string) : ParseResult :=
  let '(audios, videos) := processFormats (formats videoInfo) in
  let audios := sortAudios audios in
  let videos := sortVideos videos in
  {| r_website := id_website ident;
     r_v := id_videoID ident;
     r_p := p;
     r_title := title videoInfo;
     r_thumbnail := thumbnail videoInfo;
     r_duration := duration videoInfo;
     r_uploader := uploader videoInfo;
     r_view_count := view_count videoInfo;
     r_upload_date := upload_date videoInfo;
     r_description :=
       match description videoInfo with
       | Some d => substring0 500 d
       | None => ""
       end;
     best_audio := head audios;
     best_video := head videos;
     audios := audios;
     videos := videos;
     subs := subs |}.

Section Effects.
Context `{Host}.

(** [`--cookies "${config.cookie}"`] or [''] *)
Definition cookieParam (present : bool) : string :=
  if present then "--cookies " +:+ dquote +:+ cookie +:+ dquote else "".

Definition listCommand (present : bool) (url : string) : string :=
  "yt-dlp --list-subs " +:+ cookieParam present +:+ " '" +:+ url +:+
  "' 2> /dev/null".

Definition parseSubtitles (url : string) : M (list string) :=
  try_catch
    (let! present := existsSync cookie in
     let! result := execSync (listCommand present url) in
     ret (listSubtitles result))
    (fun _ => ret []).

Context `{Json}.

Definition parseCommand (present : bool) (url : string) : string :=
  "yt-dlp --print-json --skip-download " +:+ cookieParam present +:+
  " '" +:+ url +:+ "' 2> /dev/null".

Definition retryUrl (url : string) : string :=
  if includes url "?" then url +:+ "&p=1" else url +:+ "?p=1".

(** Lines 135-158: the invocation and its conditional retry; gives
    [result], and [p] and [url] as they stand afterwards. *)
Definition extract (ident : Identity) (present : bool) (url : string)
  : M (string * option string * string) :=
  try_catch
    (let! result := execSync (parseCommand present url) in
     ret (result, id_p ident, url))
    (fun error =>
       if bool_decide (id_website ident = bilibili) && negb (otruthy (id_p ident))
       then
         let! result := execSync (parseCommand present (retryUrl url)) in
         ret (result, Some "1", retryUrl url)
       else throw error).

Definition parseJson (result : string) : M VideoInfo :=
  fun w => (JSON_parse result, w).

Definition parseVideo (url : string) : M ParseResult :=
  match resolve url with
  | None => throw unsupported_url_message
  | Some ident =>
      try_catch
        (let! present := existsSync cookie in
         let! r := extract ident present url in
         let '(result, p, url) := r in
         let! videoInfo := parseJson result in
         let! subs := parseSubtitles url in
         ret (buildResult ident p videoInfo subs))
        (fun error => throw ("解析失败: " +:+ error))
  end.

End Effects.

End VideoParser.

(** ** Paths *)

Module Path.
(** [path.join(dir, rest)] for a normalised [dir] and a relative
    [rest] without [.], [..] or empty segments, where it is the
    concatenation with a separator.  Validated identifiers, part
    numbers and format specifications contain no [.] and no [/], so
    the paths built from them are of this kind. *)
Definition join (dir rest : string) : string := dir +:+ "/" +:+ rest.
End Path.

(** ** services/videoDownloader.js *)

Module VideoDownloader.
Import JsString Regex Sys.
Local Open Scope list_scope.

Definition getWebsiteUrl (website videoID : string) (p : option string) : string :=
  if String.eqb website "y2b" then
    "https://www.youtube.com/watch?v=" +:+ videoID
  else if String.eqb website "bilibili" then
    "https://www.bilibili.com/video/" +:+ videoID +:+
    (match p with
     | Some n => if truthy n then "?p=" +:+ n else ""
     | None => ""
     end)
  else "https://www.youtube.com/watch?v=" +:+ videoID.

(** The destructured argument of [downloadVideo]; [website] and
    [merge] have defaults. *)
Record Options : Type := mkOptions {
  website : option string;
  videoID : option string;
  p : option string;
  format : option string;
  recode : option string;
  subs : option string;
  merge : option bool
}.

Record Job : Type := mkJob {
  v : option string;
  downloading : bool;
  downloadSucceed : bool;
  dest : string;
  metadata : string
}.

(** [{ success: true, result }] or [{ success: false, error }] *)
Inductive Response : Type :=
| Success (result : Job)
| Failure (error : string).

Definition id_or_dash (a : ascii) : bool := is_word a || Ascii.eqb a "-".

(** [/^[\w-]{11,14}$/] *)
Definition videoIDRegex : regex :=
  seq_of [Bol; between 11 14 (one_of id_or_dash); Eol].

(** [/^[\d]+$/] *)
Definition partNumberRegex : regex := seq_of [Bol; plus digit; Eol].

Definition spec_char (a : ascii) : bool :=
  is_word a || is_digit a || Ascii.eqb a "-".

(** [/^([\w\d-]+)(?:x([\w\d-]+))?$/] *)
Definition formatRegex : regex :=
  seq_of [Bol; Grp 1 (plus (one_of spec_char));
          opt (Cat (chr "x") (Grp 2 (plus (one_of spec_char))));
          Eol].

(** [`${videoID}${p ? `/p${p}` : ''}/${format}`] *)
Definition jobPath (videoID : string) (p : option string) (format : string) : string :=
  videoID +:+
  (match p with
   | Some n => if truthy n then "/p" +:+ n else ""
   | None => ""
   end) +:+ "/" +:+ format.

(** The pattern built at line 119: the job directory, escaped so that
    it is matched literally, then [/], then the captured file name
    [videoID\.[\w]+]. *)
Definition destRegex (fullpath videoID : string) : regex :=
  seq_of [Bol; star dot; lit fullpath; chr "/";
          Grp 1 (seq_of [lit videoID; chr "."; plus word]);
          star dot; Eol].

Fixpoint findDest (r : regex) (lines : list string) : option string :=
  match lines with
  | [] => None
  | line :: rest =>
      match exec r line with
      | Some m => group 1 m
      | None => findDest r rest
      end
  end.

(** The pattern of line 148: [^], any characters, then the captured
    group made of [ERROR] and the rest of the line, [$]. *)
Definition errorRegex : regex :=
  seq_of [Bol; star dot; Grp 1 (Cat (lit "ERROR") (star dot)); Eol].

Fixpoint findCause (lines : list string) : option string :=
  match lines with
  | [] => None
  | line :: rest =>
      match exec errorRegex line with
      | Some m => group 1 m
      | None => findCause rest
      end
  end.

Definition or_default (o : option string) (d : string) : string :=
  match o with Some s => s | None => d end.

Section Effects.
Context `{Host}.

(** Lines 54-68.  The identifier and the format specification come
    back as strings once they are known to be present. *)
Definition validate (o : Options) : M (string * string) :=
  match videoID o, format o with
  | Some videoID, Some format =>
      if negb (truthy videoID) || negb (truthy format) then
        throw "Video ID and format are required"
      else if negb (test videoIDRegex videoID) then
        throw "Invalid video ID format"
      else if otruthy (p o) && negb (test partNumberRegex (or_default (p o) "")) then
        throw "Invalid part number format"
      else if negb (test formatRegex format) then
        throw "Invalid format specification"
      else ret (videoID, format)
  | _, _ => throw "Video ID and format are required"
  end.

Definition command (o : Options) (videoID format fullpath : string)
           (present : bool) : string :=
  let url := getWebsiteUrl (or_default (website o) "y2b") videoID (p o) in
  let cookieParam := if present then "--cookies " +:+ cookie else "" in
  let recodeParam :=
    match recode o with
    | Some r => if truthy r then "--recode " +:+ r else ""
    | None => ""
    end in
  let merging := match merge o with Some b => b | None => false end in
  let '(formatParam, outputTemplate, mergeOutput) :=
    if merging && includes format "x" then
      (replace1 "x" "+" format,
       fullpath +:+ "/" +:+ videoID +:+ "_merged.%(ext)s", true)
    else if includes format "x" then
      (replace1 "x" "+" format,
       fullpath +:+ "/" +:+ videoID +:+ ".%(ext)s", false)
    else
      (format, fullpath +:+ "/" +:+ videoID +:+ ".%(ext)s", false) in
  let cmd :=
    "yt-dlp " +:+ cookieParam +:+ " " +:+ url +:+ " -f " +:+ formatParam +:+
    " " +:+ "-o '" +:+ outputTemplate +:+ "' " +:+ recodeParam +:+
    " -k --write-info-json" in
  if mergeOutput then cmd +:+ " --merge-output-format mp4" else cmd.

Definition failed (o : Options) (error : string) : M Response :=
  let cause :=
    or_default (findCause (split_lines (error_toString error))) "Unknown cause" in
  ret (Success {| v := videoID o;
                  downloading := false;
                  downloadSucceed := false;
                  dest := "下载失败";
                  metadata := cause |}).

Definition downloadVideo (o : Options) : M Response :=
  try_catch
    (let! checked := validate o in
     let '(videoID, format) := checked in
     let path := jobPath videoID (p o) format in
     let fullpath := Path.join tmpDir path in
     mkdirSync fullpath ;;
     let! present := existsSync cookie in
     let! output := execSync (command o videoID format fullpath present) in
     let dest :=
       or_default (findDest (destRegex fullpath videoID) (split_lines output))
                  "Unknown dest" in
     ret (Success {| v := Some videoID;
                     downloading := false;
                     downloadSucceed := true;
                     dest := "files/" +:+ path +:+ "/" +:+ dest;
                     metadata := "info/" +:+ path +:+ "/" +:+ videoID +:+
                                 ".info.json" |}))
    (failed o).


End Effects.

End VideoDownloader.

(** ** services/subtitleDownloader.js *)

Module SubtitleDownloader.
Import JsString Regex Sys.
Local Open Scope list_scope.

Definition getWebsiteUrl (website id : string) (p : option string) : string :=
  if String.eqb website "y2b" then
    "https://www.youtube.com/watch?v=" +:+ id
  else if String.eqb website "bilibili" then
    "https://www.bilibili.com/video/" +:+ id +:+
    (match p with
     | Some n => if truthy n then "?p=" +:+ n else ""
     | None => ""
     end)
  else "https://www.youtube.com/watch?v=" +:+ id.

Record Options : Type := mkOptions {
  website : option string;
  id : option string;
  p : option string;
  locale : option string;
  ext : option string;
  type : option string
}.

(** [{ success: true, title, filename, text }] or
    [{ success: false, error }] *)
Inductive Response : Type :=
| Success (title filename text : string)
| Failure (error : string).

(** [/^[\w-]{11,14}$/] *)
Definition idRegex : regex :=
  seq_of [Bol; between 11 14 (one_of (fun a => is_word a || Ascii.eqb a "-")); Eol].

(** [/^\.(srt|ass|vtt|lrc|xml)$/] *)
Definition extRegex : regex :=
  seq_of [Bol; chr ".";
          Grp 1 (alt_of [lit "srt"; lit "ass"; lit "vtt"; lit "lrc"; lit "xml"]);
          Eol].

(** [/^(auto|native)$/] *)
Definition typeRegex : regex :=
  seq_of [Bol; Grp 1 (Alt (lit "auto") (lit "native")); Eol].

(** [/^[\d]+$/] *)
Definition partNumberRegex : regex := seq_of [Bol; plus digit; Eol].

Definition or_default (o : option string) (d : string) : string :=
  match o with Some s => s | None => d end.

(** [p ? `${sep}p${p}` : ''] *)
Definition partSuffix (sep : string) (p : option string) : string :=
  match p with
  | Some n => if truthy n then sep +:+ "p" +:+ n else ""
  | None => ""
  end.

(** The container in which the tool writes the track. *)
Definition originalExt (website locale : string) : string :=
  if String.eqb locale "danmaku" then "xml"
  else if String.eqb website "y2b" then "vtt" else "srt".

(** Built-ins of the language that the function relies on:
    [JSON.parse(content).title] for the sidecar of the tool, and
    [Buffer.from(content).toString('base64')]. *)
Class Codec : Type := {
  JSON_title : string -> outcome (option string);
  base64 : string -> string
}.

Record Checked : Type := mkChecked {
  c_id : string;
  c_locale : string;
  c_ext : string;
  c_type : string
}.

Section Effects.
Context `{Host} `{Codec}.

(** Lines 53-71 *)
Definition validate (o : Options) : M Checked :=
  match id o, locale o, ext o, type o with
  | Some id, Some locale, Some ext, Some type =>
      if negb (truthy id) || negb (truthy locale) || negb (truthy ext)
         || negb (truthy type) then
        throw "Missing required parameters"
      else if negb (test idRegex id) then
        throw "Invalid video ID format"
      else if negb (test extRegex ext) then
        throw "Invalid subtitle extension"
      else if negb (test typeRegex type) then
        throw "Invalid subtitle type"
      else if otruthy (p o) && negb (test partNumberRegex (or_default (p o) "")) then
        throw "Invalid part number"
      else ret (mkChecked id locale ext type)
  | _, _, _, _ => throw "Missing required parameters"
  end.

Definition command (locale type fullpath url : string) (present : bool) : string :=
  let cookieParam := if present then "--cookies " +:+ cookie else "" in
  if String.eqb type "native" then
    "yt-dlp --sub-lang '" +:+ locale +:+ "' -o '" +:+ fullpath +:+
    "/%(id)s.%(ext)s' --write-sub --skip-download --write-info-json " +:+
    url +:+ " " +:+ cookieParam
  else
    "yt-dlp --sub-lang '" +:+ locale +:+ "' -o '" +:+ fullpath +:+
    "/%(id)s.%(ext)s' --write-auto-sub --skip-download --write-info-json " +:+
    url +:+ " " +:+ cookieParam.

Definition convertCommand (subtitleFile convertedFile : string) : string :=
  "ffmpeg -i '" +:+ subtitleFile +:+ "' '" +:+ convertedFile +:+ "' -y".

(** Lines 128-145: the title from the sidecar, then the content. *)
Definition deliver (id locale ext infoFile convertedFile : string) : M Response :=
  let! title :=
    try_catch
      (let! content := readFileSync infoFile in
       let! parsed := (fun w => (JSON_title content, w)) in
       ret (or_else parsed id))
      (fun _ => ret id) in
  let! subtitleContent := readFileSync convertedFile in
  ret (Success title (title +:+ "." +:+ locale +:+ ext) (base64 subtitleContent)).

Definition downloadSubtitle (o : Options) : M Response :=
  try_catch
    (let! c := validate o in
     let '(mkChecked id locale ext type) := c in
     let website := or_default (website o) "y2b" in
     let fullpath := Path.join tmpDir (id +:+ partSuffix "/" (p o)) in
     mkdirSync fullpath ;;
     let url := getWebsiteUrl website id (p o) in
     let! present := existsSync cookie in
     execSync (command locale type fullpath url present) ;;
     let before := fullpath +:+ "/" +:+ id +:+ partSuffix "_" (p o) in
     let originalExt := originalExt website locale in
     let subtitleFile := before +:+ "." +:+ locale +:+ "." +:+ originalExt in
     let convertedFile := before +:+ "." +:+ locale +:+ ext in
     let infoFile := before +:+ ".info.json" in
     if negb (String.eqb subtitleFile convertedFile) then
       (** the conversion, and what happens when it fails *)
       let! converted :=
         try_catch
           (execSync (convertCommand subtitleFile convertedFile) ;; ret true)
           (fun _ => ret false) in
       if converted then deliver id locale ext infoFile convertedFile
       else
         let! originalContent := readFileSync subtitleFile in
         ret (Success id (id +:+ "." +:+ locale +:+ originalExt)
                      (base64 originalContent))
     else deliver id locale ext infoFile convertedFile)
    (fun error => ret (Failure (if truthy error then error
                                else "Failed to download subtitle"))).

End Effects.

End SubtitleDownloader.

(** ** middleware: [validateRequest], and the route [POST /api/subtitle] *)

Module Middleware.
Import JsString Regex Sys.

(** [/^([a-z]{2}(-[a-zA-Z]{2,4})?|auto|danmaku)$/] *)
Definition localeRegex : regex :=
  seq_of [Bol;
          Grp 1 (alt_of [Cat (rep 2 (one_of is_lower))
                             (opt (Grp 2 (Cat (chr "-") (between 2 4 (one_of is_alpha)))));
                         lit "auto"; lit "danmaku"]);
          Eol].

Definition present_and (r : regex) (x : option string) : bool :=
  match x with
  | Some s => truthy s && test r s
  | None => false
  end.

(** The branch of [validateRequest] for [POST /api/subtitle]: the
    message of the 400 response, or [None] when [next()] is called. *)
Definition validateSubtitleRequest (body : SubtitleDownloader.Options)
  : option string :=
  if negb (present_and SubtitleDownloader.idRegex (SubtitleDownloader.id body)) then
    Some "Invalid video ID format"
  else if negb (present_and SubtitleDownloader.extRegex (SubtitleDownloader.ext body)) then
    Some "Invalid subtitle extension"
  else if negb (present_and SubtitleDownloader.typeRegex (SubtitleDownloader.type body)) then
    Some "Invalid subtitle type"
  else if negb (present_and localeRegex (SubtitleDownloader.locale body)) then
    Some "Invalid locale format"
  else None.


Section Route.
Context `{Host} `{SubtitleDownloader.Codec}.

End Route.

End Middleware.

(** ** services/cleanup.js

    The retention manager sees the temporary-storage root and its
    direct children only: a child is removed with everything below it.
    A child may refuse [statSync] (a dangling link, a permission) or
    [rmSync] (busy, or not permitted); both throw.  A refusal of
    [rmSync] is taken at the top of the child: the entry stays as it
    is.  What a recursive removal may have taken from inside a
    directory before it failed is below the children, and not part of
    this view.  The re-creation of the root after a purge is the
    callback of a promise: it is queued and runs once the synchronous
    part of the cycle is over. *)

Module Cleanup.
Import JsString JsNumber Regex.
Local Open Scope list_scope.
Local Open Scope Z_scope.

Record entry : Type := mkEntry {
  mtime : Z;              (** [stats.mtime.getTime()], milliseconds *)
  isDirectory : bool;
  size : Z;
  unreadable : bool;      (** [statSync] throws *)
  locked : bool           (** [rmSync] throws *)
}.

Inductive event : Type :=
| Df
| ExistsRoot
| RemoveRoot
| MakeRoot
| ReadDir
| Stat (item : string)
| Remove (item : string).

Inductive job : Type := RecreateRoot.

Record State : Type := mkState {
  root : option (gmap string entry);   (** [None]: the root is absent *)
  pending : list job;
  log : list event
}.

(** [config.maxAge] and [config.maxDiskUsage] *)
Definition maxAge : Z := 24 * 60 * 60 * 1000.
Definition maxDiskUsage : Z := 90.

Definition emit (e : event) (st : State) : State :=
  {| root := root st; pending := pending st; log := (log st ++ [e])%list |}.

Definition set_root (r : option (gmap string entry)) (st : State) : State :=
  {| root := r; pending := pending st; log := log st |}.

(** [readdirSync]: the names of the children, in the order of the
    directory. *)
Definition readdir (m : gmap string entry) : list string :=
  (map_to_list m).*1.

(** [rmSync(root, { recursive: true, force: true })] removes the
    children in the order of the directory and stops at the first one
    that cannot be removed; [true] when everything went. *)
Fixpoint remove_children (items : list string) (m : gmap string entry)
  : gmap string entry * bool :=
  match items with
  | [] => (m, true)
  | item :: rest =>
      match m !! item with
      | Some e =>
          if locked e then (m, false)
          else remove_children rest (delete item m)
      | None => remove_children rest m
      end
  end.

Definition cleanAllFiles (st : State) : State :=
  let st1 := emit ExistsRoot st in
  match root st with
  | Some m =>
      let st2 := emit RemoveRoot st1 in
      match remove_children (readdir m) m with
      | (_, true) =>
          {| root := None;
             pending := (pending st2 ++ [RecreateRoot])%list;
             log := log st2 |}
      | (m', false) => set_root (Some m') st2
      end
  | None => st1
  end.

(** [/.*\s(\d+)%/] *)
Definition usageRegex : regex :=
  seq_of [star dot; space; Grp 1 (plus digit); chr "%"].

(** [parseInt(match[1])] of the line, when the pattern matches. *)
Definition usage (line : string) : option Z :=
  match exec usageRegex line with
  | Some m =>
      match group 1 m with
      | Some ds => option_map Z.of_N (N_of_digits (chars ds))
      | None => None
      end
  | None => None
  end.

(** The loop of [checkDiskSpace] over the lines of [df]. *)
Fixpoint checkLines (lines : list string) (st : State) : State :=
  match lines with
  | [] => st
  | line :: rest =>
      match usage line with
      | Some u =>
          if maxDiskUsage <? u then cleanAllFiles st
          else checkLines rest st
      | None => checkLines rest st
      end
  end.

(** One step of the loop of [cleanOldFiles]; the state of the loop is
    the state of the disk with [cleanedCount] and [totalSize]. *)
Definition sweepItem (now : Z) (acc : State * Z * Z) (item : string)
  : State * Z * Z :=
  let '(st, cleanedCount, totalSize) := acc in
  let st1 := emit (Stat item) st in
  match root st with
  | Some m =>
      match m !! item with
      | Some e =>
          if unreadable e then (st1, cleanedCount, totalSize)
          else
            let age := now - mtime e in
            if maxAge <? age then
              let st2 := emit (Remove item) st1 in
              let totalSize' :=
                if isDirectory e then totalSize else totalSize + size e in
              if locked e then (st2, cleanedCount, totalSize')
              else (set_root (Some (delete item m)) st2,
                    cleanedCount + 1, totalSize')
            else (st1, cleanedCount, totalSize)
      | None => (st1, cleanedCount, totalSize)
      end
  | None => (st1, cleanedCount, totalSize)
  end.

Section Cycle.
(** The output of [df -h .], or the message of the error thrown, and
    [Date.now()]. *)
Variable df : Sys.outcome string.
Variable now : Z.

Definition checkDiskSpace (st : State) : State :=
  let st1 := emit Df st in
  match df with
  | Sys.Ok out => checkLines (split_lines out) st1
  | Sys.Throw _ => st1
  end.

Definition cleanOldFiles (st : State) : State * Z * Z :=
  let st1 := emit ExistsRoot st in
  match root st with
  | None => (st1, 0, 0)
  | Some m =>
      let st2 := emit ReadDir st1 in
      fold_left (sweepItem now) (readdir m) (st2, 0, 0)
  end.

Definition cleanupFiles (st : State) : State :=
  let st1 := checkDiskSpace st in
  (cleanOldFiles st1).1.1.

(** The queued callbacks: [fs.mkdirSync(config.tmpDir, { recursive: true })]. *)
Definition runJob (st : State) (j : job) : State :=
  match j with
  | RecreateRoot =>
      let st1 := emit MakeRoot st in
      match root st with
      | Some _ => st1
      | None => set_root (Some ∅) st1
      end
  end.

Definition runPending (st : State) : State :=
  fold_left runJob (pending st)
            {| root := root st; pending := []; log := log st |}.

(** One tick of the scheduler: [cleanupFiles()], then the callbacks
    it queued. *)
Definition cleanupCycle (st : State) : State :=
  runPending (cleanupFiles st).

(** The utilisation that [checkDiskSpace] acts on exceeds the
    ceiling: some line of the output of [df] reports more. *)
Definition overCeiling : bool :=
  match df with
  | Sys.Ok out =>
      existsb (fun line => match usage line with
                           | Some u => maxDiskUsage <? u
                           | None => false
                           end) (split_lines out)
  | Sys.Throw _ => false
  end.

End Cycle.

End Cleanup.

(** ** middleware/rateLimit.js *)

Module RateLimit.
Import JsString.
Local Open Scope list_scope.
Local Open Scope Z_scope.

(** [{ requests: [], hourlyRequests: [] }]: the instants, in
    milliseconds, of the requests let through. *)
Record ClientData : Type := mkClientData {
  requests : list Z;
  hourlyRequests : list Z
}.

(** [rateLimitStore] is a [Map] from client address to record, a
    variable of the module: a [gmap string ClientData] that every
    function takes and gives back. *)

Definition RATE_LIMIT_WINDOW : Z := 60 * 1000.
Definition RATE_LIMIT_MAX_REQUESTS : Z := 30.
Definition RATE_LIMIT_MAX_REQUESTS_PER_HOUR : Z := 200.

(** What [getClientIP] reads of a request. *)
Record Request : Type := mkRequest {
  x_forwarded_for : option string;
  x_real_ip : option string;
  connection_remoteAddress : option string;
  socket_remoteAddress : option string;
  ip : option string
}.

(** [header.split(',')[0]] *)
Definition first_field (header : string) : string :=
  match split_at "," [] (chars header) with
  | field :: _ => field
  | [] => ""
  end.

Definition getClientIP (req : Request) : string :=
  or_else (option_map (fun header => trim (first_field header))
                      (x_forwarded_for req))
    (or_else (x_real_ip req)
       (or_else (connection_remoteAddress req)
          (or_else (socket_remoteAddress req)
             (or_else (ip req) "unknown")))).

(** The loop over the entries of the store: every record is filtered,
    and deleted when nothing is left of it. *)
Definition cleanupOldEntries (now : Z) (store : gmap string ClientData) : gmap string ClientData :=
  let cutoffTime := now - 60 * 60 * 1000 in
  omap (fun data =>
          let requests' :=
            List.filter (fun timestamp => now - timestamp <? RATE_LIMIT_WINDOW)
                        (requests data) in
          let hourlyRequests' :=
            List.filter (fun timestamp => cutoffTime <? timestamp)
                        (hourlyRequests data) in
          if (length requests' =? 0)%nat && (length hourlyRequests' =? 0)%nat
          then None
          else Some (mkClientData requests' hourlyRequests'))
       store.

(** The body of the 429 response. *)
Record TooMany : Type := mkTooMany {
  error : string;
  message : string;
  retryAfter : Z;
  currentCount : Z;
  limit : Z
}.

(** The headers set before [next()]; [X_RateLimit_Reset] is the
    instant that the header prints. *)
Record Headers : Type := mkHeaders {
  X_RateLimit_Limit : Z;
  X_RateLimit_Remaining : Z;
  X_RateLimit_Reset : Z;
  X_RateLimit_Hourly_Limit : Z;
  X_RateLimit_Hourly_Remaining : Z
}.

Inductive Verdict : Type :=
| Next (headers : Headers)
| Status429 (body : TooMany).

(** [rateLimiter(req, res, next)] at the instant [now = Date.now()]. *)
Definition rateLimiter (req : Request) (now : Z) (store : gmap string ClientData)
  : Verdict * gmap string ClientData :=
  let clientIP := getClientIP req in
  let store := cleanupOldEntries now store in
  let store :=
    match store !! clientIP with
    | Some _ => store
    | None => <[clientIP := mkClientData [] []]> store
    end in
  let clientData := default (mkClientData [] []) (store !! clientIP) in
  let recentRequests :=
    List.filter (fun timestamp => now - timestamp <? RATE_LIMIT_WINDOW)
                (requests clientData) in
  if RATE_LIMIT_MAX_REQUESTS <=? Z.of_nat (length recentRequests) then
    (Status429
       {| error := "Rate limit exceeded";
          message := "Too many requests. Limit: 30 requests per minute";
          retryAfter := 60;
          currentCount := Z.of_nat (length recentRequests);
          limit := RATE_LIMIT_MAX_REQUESTS |},
     store)
  else
    let hourlyRequests' :=
      List.filter (fun timestamp => now - timestamp <? 60 * 60 * 1000)
                  (hourlyRequests clientData) in
    if RATE_LIMIT_MAX_REQUESTS_PER_HOUR <=? Z.of_nat (length hourlyRequests') then
      (Status429
         {| error := "Hourly rate limit exceeded";
            message := "Too many requests. Limit: 200 requests per hour";
            retryAfter := 3600;
            currentCount := Z.of_nat (length hourlyRequests');
            limit := RATE_LIMIT_MAX_REQUESTS_PER_HOUR |},
       store)
    else
      (Next
         {| X_RateLimit_Limit := RATE_LIMIT_MAX_REQUESTS;
            X_RateLimit_Remaining :=
              Z.max 0 (RATE_LIMIT_MAX_REQUESTS
                       - Z.of_nat (length recentRequests) - 1);
            X_RateLimit_Reset := now + RATE_LIMIT_WINDOW;
            X_RateLimit_Hourly_Limit := RATE_LIMIT_MAX_REQUESTS_PER_HOUR;
            X_RateLimit_Hourly_Remaining :=
              Z.max 0 (RATE_LIMIT_MAX_REQUESTS_PER_HOUR
                       - Z.of_nat (length hourlyRequests') - 1) |},
       <[clientIP := mkClientData (recentRequests ++ [now])
                                  (hourlyRequests' ++ [now])]> store).

(** [getRateLimitStats()] at the instant [now]. *)
Record Stats : Type := mkStats {
  totalClients : Z;
  activeClients : Z;
  totalRequests : Z;
  requestsLastMinute : Z;
  requestsLastHour : Z
}.

Definition countClient (now : Z) (stats : Stats) (data : ClientData) : Stats :=
  let recentRequests :=
    List.filter (fun timestamp => now - timestamp <? RATE_LIMIT_WINDOW)
                (requests data) in
  let hourlyRequests' :=
    List.filter (fun timestamp => now - timestamp <? 60 * 60 * 1000)
                (hourlyRequests data) in
  {| totalClients := totalClients stats;
     activeClients :=
       if (0 <? length recentRequests)%nat || (0 <? length hourlyRequests')%nat
       then activeClients stats + 1 else activeClients stats;
     totalRequests := totalRequests stats + Z.of_nat (length (requests data));
     requestsLastMinute :=
       requestsLastMinute stats + Z.of_nat (length recentRequests);
     requestsLastHour :=
       requestsLastHour stats + Z.of_nat (length hourlyRequests') |}.

Definition getRateLimitStats (now : Z) (store : gmap string ClientData) : Stats :=
  fold_left (countClient now) (map_to_list store).*2
            {| totalClients := Z.of_nat (base.size store);
               activeClients := 0;
               totalRequests := 0;
               requestsLastMinute := 0;
               requestsLastHour := 0 |}.

End RateLimit.
(** ** services/cleanup.js: statistics *)

Module CleanupStats.
Import JsString JsNumber Regex Sys.
Local Open Scope list_scope.
Local Open Scope Z_scope.

(** What [scanDirectory] meets: a regular file with what [statSync]
    says of it, a directory with its entries in the order of
    [readdirSync], or an item on which [statSync] or [readdirSync]
    throws. *)
Inductive node : Type :=
| File (mtime size : Z)
| Dir (items : entries)
| Broken (message : string)
with entries : Type :=
| Empty
| Item (name : string) (child : node) (rest : entries).

Scheme node_entries_ind := Induction for node Sort Prop
  with entries_node_ind := Induction for entries Sort Prop.

(** [totalFiles], [totalSize] and [oldFiles] of the closure. *)
Record Counters : Type := mkCounters {
  c_totalFiles : Z;
  c_totalSize : Z;
  c_oldFiles : Z
}.

(** The body of the loop of [scanDirectory] for one item, and the loop
    over the items of a directory. *)
Fixpoint scanItem (now : Z) (n : node) (acc : Counters) : outcome Counters :=
  match n with
  | File mtime size =>
      let age := now - mtime in
      Ok {| c_totalFiles := c_totalFiles acc + 1;
            c_totalSize := c_totalSize acc + size;
            c_oldFiles := if Cleanup.maxAge <? age
                          then c_oldFiles acc + 1 else c_oldFiles acc |}
  | Dir items => scanItems now items acc
  | Broken message => Throw message
  end
with scanItems (now : Z) (l : entries) (acc : Counters) : outcome Counters :=
  match l with
  | Empty => Ok acc
  | Item _ child rest =>
      match scanItem now child acc with
      | Ok acc' => scanItems now rest acc'
      | Throw e => Throw e
      end
  end.

(** [scanDirectory(config.tmpDir)]: [readdirSync] throws when the
    path is that of a regular file. *)
Definition scanDirectory (dir : string) (now : Z) (root : node)
  : outcome Counters :=
  match root with
  | File _ _ => Throw ("ENOTDIR: not a directory, scandir '" +:+ dir +:+ "'")
  | _ => scanItem now root (mkCounters 0 0 0)
  end.

(** The object that [getCleanupStats] returns. *)
Record Stats : Type := mkStats {
  totalFiles : Z;
  totalSize : Z;          (** megabytes, rounded *)
  oldFiles : Z;
  diskUsage : string;
  maxAge : option Z;      (** hours; absent when the root is *)
  tmpDir : option string
}.

Inductive Answer : Type :=
| Statistics (stats : Stats)
| Error (error : string).

(** [`${match[1]}%`] for the first match of the pattern in the output
    of [df], [unknown] without one. *)
Definition usageLabel (df : outcome string) : string :=
  match df with
  | Ok out =>
      match exec Cleanup.usageRegex out with
      | Some m =>
          match group 1 m with
          | Some digits => digits +:+ "%"
          | None => "unknown"
          end
      | None => "unknown"
      end
  | Throw _ => "unknown"
  end.

(** [getCleanupStats()]: [root] is the temporary storage, [None] when
    it does not exist; [df] is what [df -h .] prints or the error it
    throws; [now] is [Date.now()]. *)
Definition getCleanupStats (dir : string) (root : option node)
           (df : outcome string) (now : Z) : Answer :=
  match root with
  | None =>
      Statistics {| totalFiles := 0; totalSize := 0; oldFiles := 0;
                    diskUsage := "unknown"; maxAge := None; tmpDir := None |}
  | Some tree =>
      match scanDirectory dir now tree with
      | Ok c =>
          Statistics
            {| totalFiles := c_totalFiles c;
               totalSize :=
                 scaled_round 0 (inject_Z (c_totalSize c) / 1024 / 1024);
               oldFiles := c_oldFiles c;
               diskUsage := usageLabel df;
               maxAge := Some (Cleanup.maxAge / 1000 / 60 / 60);
               tmpDir := Some dir |}
      | Throw e => Error e
      end
  end.

End CleanupStats.
(** ** middleware/validation.js and the route [GET /api/parse] *)

Module Routes.
Import JsString Regex Sys.
Local Open Scope list_scope.

(** [new URL(url)], a built-in of the platform: whether it accepts the
    string or throws. *)
Class UrlParser : Type := { URL_accepts : string -> bool }.

(** A parameter of [req.query].  The query parser gives a string, an
    array when the name is repeated or written with brackets
    ([?v=a&v=b], [?v[]=a]), or an object when a key stands in the
    brackets ([?v[k]=a]).  Of an object the code only ever asks for its
    text and for the methods of strings: [printable] tells whether it
    still has the [toString] of objects (a key of that name in the query
    hides it). *)
#[warnings="-register-all"]
Inductive Param : Type :=
| Text (s : string)
| Items (items : list Param)
| Fields (printable : bool).

Coercion Text : string >-> Param.

(** [String(x)], as template literals, [new URL] and [RegExp.test]
    apply it: an array prints its elements separated by commas, an
    object prints as [[object Object]] or throws. *)
Fixpoint print (x : Param) : option string :=
  match x with
  | Text s => Some s
  | Items items =>
      (fix join (l : list Param) : option string :=
         match l with
         | [] => Some ""
         | [y] => print y
         | y :: rest =>
             match print y, join rest with
             | Some a, Some b => Some (a +:+ "," +:+ b)
             | _, _ => None
             end
         end) items
  | Fields printable => if printable then Some "[object Object]" else None
  end.

(** The truth value of a parameter: arrays and objects are truthy. *)
Definition ptruthy (x : option Param) : bool :=
  match x with
  | Some (Text s) => truthy s
  | Some _ => true
  | None => false
  end.

(** [/^https?:\/\/(?:youtu\.be\/|(?:www|m)\.youtube\.com\/(?:watch|shorts)(?:\/|\?Q*v=))([\w-]{11})/]
    where [Q] is the dot: any characters between [?] and [v=]. *)
Definition youtubeRegex : regex :=
  seq_of [Bol; lit "http"; opt (chr "s"); lit "://";
          Alt (lit "youtu.be/")
              (seq_of [Alt (lit "www") (chr "m"); lit ".youtube.com/";
                       Alt (lit "watch") (lit "shorts");
                       Alt (chr "/") (seq_of [chr "?"; star dot; lit "v="])]);
          Grp 1 (rep 11 (one_of VideoDownloader.id_or_dash))].

(** [isValidURL(url)]: everything happens inside its [try], so a
    value that cannot be printed is an invalid URL. *)
Definition isValidURL `{UrlParser} (url : Param) : bool :=
  match print url with
  | Some s =>
      if URL_accepts s
      then test youtubeRegex s || test VideoParser.bilibiliRegex s
      else false
  | None => false
  end.

(** [req.query]: the parameters that the middleware reads. *)
Record Query : Type := mkQuery {
  url : option Param;
  v : option Param;
  format : option Param
}.

(** The branch of [validateRequest] for [/parse]: the message of the
    400 response, or [None]. *)
Definition validateParse `{UrlParser} (q : Query) : option string :=
  match url q with
  | Some u =>
      if negb (ptruthy (Some u)) then Some "URL parameter is required"
      else if negb (isValidURL u) then Some "Invalid URL format"
      else None
  | None => Some "URL parameter is required"
  end.

(** [!x || !x.match(r)]: an array or an object is truthy and has no
    [match], so the call throws a [TypeError]. *)
Definition absent_or_mismatch (name : string) (r : regex) (x : option Param)
  : outcome bool :=
  match x with
  | None => Ok true
  | Some (Text s) => Ok (negb (truthy s) || negb (test r s))
  | Some _ => Throw (name +:+ ".match is not a function")
  end.

(** The branch for [/download]: the message of the 400 response, or
    [None]; or the exception. *)
Definition validateDownload (q : Query) : outcome (option string) :=
  match absent_or_mismatch "v" VideoDownloader.videoIDRegex (v q) with
  | Throw e => Throw e
  | Ok true => Ok (Some "Invalid video ID format")
  | Ok false =>
      match absent_or_mismatch "format" VideoDownloader.formatRegex (format q) with
      | Throw e => Throw e
      | Ok true => Ok (Some "Invalid format specification")
      | Ok false => Ok None
      end
  end.

(** What the middleware does with a request: it calls [next()], or it
    answers itself. *)
Inductive Checked : Type :=
| Pass
| Reject (status : Z) (error : string).

(** [validateRequest(req, res, next)]: the three checks follow one
    another, each entered when the path mentions its endpoint; whatever
    they throw is caught and answered with status 500. *)
Definition validateRequest `{UrlParser} (method path : string) (q : Query)
           (body : SubtitleDownloader.Options) : Checked :=
  let checks : outcome (option string) :=
    match (if includes path "/parse" then validateParse q else None) with
    | Some error => Ok (Some error)
    | None =>
        match (if includes path "/download" then validateDownload q
               else Ok None) with
        | Throw e => Throw e
        | Ok (Some error) => Ok (Some error)
        | Ok None =>
            Ok (if includes path "/subtitle" && String.eqb method "POST"
                then Middleware.validateSubtitleRequest body
                else None)
        end
    end in
  match checks with
  | Ok None => Pass
  | Ok (Some error) => Reject 400 error
  | Throw _ => Reject 500 "Internal validation error"
  end.

(** What a route answers: an error status with its message, or the
    JSON of a result. *)
Inductive Reply : Type :=
| Refused (status : Z) (error : string)
| Parsed (result : VideoParser.ParseResult).

(** [url.includes(s)] on an array: [s] is one of its elements. *)
Definition has_item (s : string) (items : list Param) : bool :=
  existsb (fun x => match x with
                    | Text t => String.eqb t s
                    | _ => false
                    end) items.

Section Handlers.
Context `{Host} `{VideoParser.Json} `{UrlParser}.

(** [parseVideo(url)] on a parameter of the query.  On an array,
    [includes] is the membership test of arrays, and [match], which the
    branch entered calls next, does not exist; on an object neither
    does.  Both calls stand before the [try] of [parseVideo]. *)
Definition parseVideoOf (u : Param) : M VideoParser.ParseResult :=
  match u with
  | Text s => VideoParser.parseVideo s
  | Items items =>
      if has_item "youtube.com" items || has_item "youtu.be" items
         || has_item "bilibili.com" items
      then throw "url.match is not a function"
      else throw VideoParser.unsupported_url_message
  | Fields _ => throw "url.includes is not a function"
  end.

(** [app.get('/api/parse', validateRequest, handler)]; the handler
    prints the URL in its log line before it calls [parseVideo]. *)
Definition parseRoute (q : Query) (body : SubtitleDownloader.Options) : M Reply :=
  match validateRequest "GET" "/api/parse" q body with
  | Reject status error => ret (Refused status error)
  | Pass =>
      match url q with
      | Some u =>
          if negb (ptruthy (Some u))
          then ret (Refused 400 "URL parameter is required")
          else
            try_catch
              (match print u with
               | Some _ =>
                   let! result := parseVideoOf u in
                   ret (Parsed result)
               | None => throw "Cannot convert object to primitive value"
               end)
              (fun error =>
                 ret (Refused 500 (if truthy error then error
                                   else "Failed to parse video")))
      | None => ret (Refused 400 "URL parameter is required")
      end
  end.

End Handlers.

End Routes.

(** ** The vocabulary of the properties

    Observations on the embedding in which the properties of Part II are
    stated: none of them is code of the repository. *)

(** *** The labels of the quality classifier *)

Module QualityTerms.
Import JsString JsNumber VideoParser.
Local Open Scope list_scope.

(** The label pairs of the classifier. *)
Definition video_labels : list (string * string) :=
  [("2160p", "4K"); ("1440p", "2K"); ("1080p", "Full HD"); ("720p", "HD");
   ("480p", "SD"); ("360p", "Low"); ("240p", "Low"); ("144p", "Low");
   ("unknown", "Unknown")].

Definition audio_labels : list string :=
  ["High (320kbps+)"; "Medium (192kbps+)"; "Standard (128kbps+)";
   "Low (96kbps+)"; "Unknown"].

End QualityTerms.

(** *** Observations on the host *)

Module SysTerms.
Import JsString Sys.
Local Open Scope list_scope.

(** What a computation appends to the log. *)
Definition new_events {A} (m : M A) (w : World) : list event :=
  skipn (length (log w)) (log (m w).2).

End SysTerms.

(** *** Observations on the subtitle lister *)

Module SubtitleTerms.
Import JsString Regex Sys VideoParser.
Local Open Scope list_scope.



(** What the listing invocation of [parseSubtitles] answers in a given
    world. *)
Definition listing `{Host} (url : string) (w : World) : outcome string :=
  let present := exists_in (fs w) cookie in
  (run (listCommand present url)
       (emit (Spawn (listCommand present url)) (emit (Exists cookie) w))).1.

End SubtitleTerms.

(** *** The invocations of the metadata extractor *)

Module ExtractorTerms.
Import JsString Regex Sys VideoParser.
Local Open Scope list_scope.

Section Terms.
Context `{Host}.

Definition present (w : World) : bool := exists_in (fs w) cookie.

(** The world in which the first metadata invocation runs, and its
    outcome. *)
Definition first_world (url : string) (w : World) : World :=
  emit (Spawn (parseCommand (present w) url)) (emit (Exists cookie) w).

Definition first_attempt (url : string) (w : World) : outcome string * FS :=
  run (parseCommand (present w) url) (first_world url w).

(** The same for the invocation with [p=1], which runs after the first
    one. *)
Definition retry_world (url : string) (w : World) : World :=
  emit (Spawn (parseCommand (present w) (retryUrl url)))
       {| fs := (first_attempt url w).2; log := log (first_world url w) |}.

Definition retry_attempt (url : string) (w : World) : outcome string * FS :=
  run (parseCommand (present w) (retryUrl url)) (retry_world url w).

Definition after (attempt : outcome string * FS) (at_world : World) : World :=
  {| fs := attempt.2; log := log at_world |}.

End Terms.
End ExtractorTerms.

(** *** Buckets and displayed bitrates *)

Module FormatTerms.
Import JsString JsNumber Regex Sys VideoParser.
Local Open Scope list_scope.

(** [x] rounded to the nearest integer, halves away from zero. *)
Definition rounded (x : Q) : Z :=
  let n := scaled_round 0 (Qabs x) in
  if is_negative x then (- n)%Z else n.

(** The first element among those with the greatest key. *)
Fixpoint first_max {A} (key : A -> Z) (l : list A) : option A :=
  match l with
  | [] => None
  | x :: l' =>
      match first_max key l' with
      | Some m => if (key x <? key m)%Z then Some m else Some x
      | None => Some x
      end
  end.

Definition is_audio (f : Format) : bool := not_none (audio_ext f).

Definition is_video (f : Format) : bool :=
  negb (not_none (audio_ext f)) && not_none (video_ext f).

(** The format with another container extension. *)
Definition with_ext (e : option string) (f : Format) : Format :=
  {| format_id := format_id f; ext := e; audio_ext := audio_ext f;
     video_ext := video_ext f; abr := abr f; vbr := vbr f; height := height f;
     format_note := format_note f; format := format f; filesize := filesize f;
     filesize_approx := filesize_approx f; resolution := resolution f |}.

(** The bitrates as the entries display them. *)
Definition audio_rate (f : Format) : Z := rounded (or_zero (abr f)).
Definition video_rate (f : Format) : Z := rounded (or_zero (vbr f)).

End FormatTerms.

(** *** Malformed requests *)

Module ValidationTerms.
Import JsString Regex Sys.
Local Open Scope list_scope.





End ValidationTerms.

(** *** The job directory and the invocation of a download *)

Module VideoDownloaderTerms.
Import JsString Regex Sys VideoDownloader ValidationTerms.
Local Open Scope list_scope.

Section Terms.
Context `{Host}.






End Terms.
End VideoDownloaderTerms.

(** *** The files and the invocations of a subtitle download *)

Module SubtitleDownloaderTerms.
Import JsString Regex Sys SubtitleDownloader.
Local Open Scope list_scope.

Section Terms.
Context `{Host}.

Definition site (o : Options) : string := or_default (website o) "y2b".

Definition jobDir (o : Options) (c : Checked) : string :=
  Path.join tmpDir (c_id c +:+ partSuffix "/" (p o)).

(** [before], [originalExt], [subtitleFile], [convertedFile] and
    [infoFile] of lines 99-103. *)
Definition stem (o : Options) (c : Checked) : string :=
  jobDir o c +:+ "/" +:+ c_id c +:+ partSuffix "_" (p o).

Definition nativeExt (o : Options) (c : Checked) : string :=
  originalExt (site o) (c_locale c).

Definition subtitleFile (o : Options) (c : Checked) : string :=
  stem o c +:+ "." +:+ c_locale c +:+ "." +:+ nativeExt o c.

Definition convertedFile (o : Options) (c : Checked) : string :=
  stem o c +:+ "." +:+ c_locale c +:+ c_ext c.

Definition infoFile (o : Options) (c : Checked) : string :=
  stem o c +:+ ".info.json".

(** The invocation of the extraction tool, and that of the transcoding
    tool after it. *)
Definition fetchCommand (o : Options) (c : Checked) (w : World) : string :=
  command (c_locale c) (c_type c) (jobDir o c)
          (getWebsiteUrl (site o) (c_id c) (p o))
          (exists_in (fs (mkdirSync (jobDir o c) w).2) cookie).

Definition fetch_world (o : Options) (c : Checked) (w : World) : World :=
  emit (Spawn (fetchCommand o c w))
       (emit (Exists cookie) (mkdirSync (jobDir o c) w).2).

Definition fetch (o : Options) (c : Checked) (w : World) : outcome string * FS :=
  run (fetchCommand o c w) (fetch_world o c w).

Definition convert_world (o : Options) (c : Checked) (w : World) : World :=
  emit (Spawn (convertCommand (subtitleFile o c) (convertedFile o c)))
       {| fs := (fetch o c w).2; log := log (fetch_world o c w) |}.

Definition convert (o : Options) (c : Checked) (w : World) : outcome string * FS :=
  run (convertCommand (subtitleFile o c) (convertedFile o c)) (convert_world o c w).

End Terms.
End SubtitleDownloaderTerms.

(** *** Expired and removable entries *)

Module CleanupTerms.
Import JsString Cleanup.
Local Open Scope list_scope.
Local Open Scope Z_scope.

(** Older than [maxAge]. *)
Definition expired (now : Z) (e : entry) : bool := maxAge <? now - mtime e.

(** The sweep removes an entry when it is expired and neither
    [statSync] nor [rmSync] throws on it. *)
Definition removable (now : Z) (e : entry) : bool :=
  expired now e && negb (unreadable e) && negb (locked e).

(** The effect of one step of the sweep on the children of the root. *)
Definition sweep_step (now : Z) (m : gmap string entry) (item : string)
  : gmap string entry :=
  match m !! item with
  | Some e => if removable now e then delete item m else m
  | None => m
  end.

Definition reports_over (line : string) : bool :=
  match usage line with
  | Some u => maxDiskUsage <? u
  | None => false
  end.

End CleanupTerms.

(** ** Scenarios

    Concrete hosts and inputs on which the statements below are
    exercised. *)

Module Scenario.
Import JsString Sys.
Local Open Scope list_scope.

Definition empty_fs : FS := {| dirs := ∅; files := ∅ |}.
Definition fresh : World := {| fs := empty_fs; log := [] |}.

(** The listing of a video with three authored tracks. *)
Definition official_listing : string :=
  "[info] Available subtitles for dQw4w9WgXcQ:" +:+ nl +:+
  "en" +:+ nl +:+ "es-419" +:+ nl +:+ "danmaku" +:+ nl +:+ nl.




(** A Bilibili video that the tool only resolves with an explicit part:
    the first metadata invocation fails, the one with [p=1] succeeds,
    and the listing of subtitles fails. *)
Definition bili_url : string := "https://www.bilibili.com/video/BV1GJ411x7h7".

Definition bili_output : string := "<metadata of BV1GJ411x7h7, part 1>".

Definition audio_low : VideoParser.Format :=
  {| VideoParser.format_id := Some "30216";
     VideoParser.ext := Some "m4a";
     VideoParser.audio_ext := Some "m4a";
     VideoParser.video_ext := Some "none";
     VideoParser.abr := Some (638 # 5)%Q;
     VideoParser.vbr := None;
     VideoParser.height := None;
     VideoParser.format_note := None;
     VideoParser.format := Some "30216 - audio only";
     VideoParser.filesize := None;
     VideoParser.filesize_approx := Some 3145728%Q;
     VideoParser.resolution := Some "audio only" |}.

Definition audio_high : VideoParser.Format :=
  {| VideoParser.format_id := Some "30232";
     VideoParser.ext := Some "m4a";
     VideoParser.audio_ext := Some "m4a";
     VideoParser.video_ext := Some "none";
     VideoParser.abr := Some (642 # 5)%Q;
     VideoParser.vbr := None;
     VideoParser.height := None;
     VideoParser.format_note := None;
     VideoParser.format := Some "30232 - audio only";
     VideoParser.filesize := Some 4194304%Q;
     VideoParser.filesize_approx := None;
     VideoParser.resolution := Some "audio only" |}.

Definition video_720 : VideoParser.Format :=
  {| VideoParser.format_id := Some "30064";
     VideoParser.ext := Some "mp4";
     VideoParser.audio_ext := Some "none";
     VideoParser.video_ext := Some "mp4";
     VideoParser.abr := None;
     VideoParser.vbr := Some 1500%Q;
     VideoParser.height := Some 720%Q;
     VideoParser.format_note := None;
     VideoParser.format := Some "30064 - 1280x720";
     VideoParser.filesize := Some 52428800%Q;
     VideoParser.filesize_approx := None;
     VideoParser.resolution := Some "1280x720" |}.

(** A storyboard: neither an audio nor a video stream. *)
Definition storyboard : VideoParser.Format :=
  {| VideoParser.format_id := Some "sb0";
     VideoParser.ext := Some "mhtml";
     VideoParser.audio_ext := Some "none";
     VideoParser.video_ext := Some "none";
     VideoParser.abr := None;
     VideoParser.vbr := None;
     VideoParser.height := Some 27%Q;
     VideoParser.format_note := Some "storyboard";
     VideoParser.format := Some "sb0 - 48x27 (storyboard)";
     VideoParser.filesize := None;
     VideoParser.filesize_approx := None;
     VideoParser.resolution := Some "48x27" |}.

Definition bili_info : VideoParser.VideoInfo :=
  {| VideoParser.title := Some "BV1GJ411x7h7";
     VideoParser.thumbnail := None;
     VideoParser.duration := Some 213%Q;
     VideoParser.uploader := None;
     VideoParser.view_count := None;
     VideoParser.upload_date := Some "20200101";
     VideoParser.description := None;
     VideoParser.formats := Some [storyboard; audio_low; audio_high; video_720] |}.

Definition retry_host : Host :=
  {| cookie := "/app/server/cookies.txt";
     tmpDir := "/app/tmp";
     run := fun cmd w =>
              if includes cmd "--print-json" then
                if includes cmd "p=1" then (Ok bili_output, fs w)
                else (Throw "Command failed: yt-dlp --print-json", fs w)
              else (Throw "Command failed: yt-dlp --list-subs", fs w) |}.

Definition sample_json : VideoParser.Json :=
  {| VideoParser.JSON_parse :=
       fun s => if String.eqb s bili_output then Ok bili_info
                else Throw "Unexpected token < in JSON at position 0" |}.

(** The download of a subtitle track of a YouTube video: the extraction
    tool writes the track in its native container and the sidecar, and
    the transcoding tool fails. *)
Definition native_track : string :=
  "/app/tmp/dQw4w9WgXcQ/dQw4w9WgXcQ.en.vtt".

Definition sidecar : string :=
  "/app/tmp/dQw4w9WgXcQ/dQw4w9WgXcQ.info.json".

Definition vtt_content : string :=
  "WEBVTT" +:+ nl +:+ nl +:+ "00:00.000 --> 00:02.000" +:+ nl +:+ "Hello".

Definition no_transcoder_host : Host :=
  {| cookie := "/app/server/cookies.txt";
     tmpDir := "/app/tmp";
     run := fun cmd w =>
              if includes cmd "yt-dlp" then
                (Ok "[info] Writing video subtitles",
                 {| dirs := dirs (fs w);
                    files := <[native_track := vtt_content]>
                               (<[sidecar := "<sidecar of dQw4w9WgXcQ>"]>
                                  (files (fs w))) |})
              else (Throw "Command failed: ffmpeg", fs w) |}.

Definition sample_codec : SubtitleDownloader.Codec :=
  {| SubtitleDownloader.JSON_title := fun _ => Ok (Some "Sample title");
     SubtitleDownloader.base64 := fun s => "base64:" +:+ s |}.

Definition srt_request : SubtitleDownloader.Options :=
  {| SubtitleDownloader.website := Some "y2b";
     SubtitleDownloader.id := Some "dQw4w9WgXcQ";
     SubtitleDownloader.p := None;
     SubtitleDownloader.locale := Some "en";
     SubtitleDownloader.ext := Some ".srt";
     SubtitleDownloader.type := Some "native" |}.

Definition vtt_request : SubtitleDownloader.Options :=
  {| SubtitleDownloader.website := Some "y2b";
     SubtitleDownloader.id := Some "dQw4w9WgXcQ";
     SubtitleDownloader.p := None;
     SubtitleDownloader.locale := Some "en";
     SubtitleDownloader.ext := Some ".vtt";
     SubtitleDownloader.type := Some "native" |}.



(** Downloads of a video for which the extraction tool fails. *)
Definition unavailable_host : Host :=
  {| cookie := "/app/server/cookies.txt";
     tmpDir := "/app/tmp";
     run := fun cmd w =>
              (Throw ("Command failed: yt-dlp" +:+ nl +:+
                      "ERROR: [youtube] dQw4w9WgXcQ: Video unavailable"),
               fs w) |}.

Definition merge_request : VideoDownloader.Options :=
  {| VideoDownloader.website := Some "y2b";
     VideoDownloader.videoID := Some "dQw4w9WgXcQ";
     VideoDownloader.p := None;
     VideoDownloader.format := Some "137x140";
     VideoDownloader.recode := None;
     VideoDownloader.subs := None;
     VideoDownloader.merge := Some true |}.



(** The temporary storage as the retention manager finds it. *)
Definition hour : Z := 3600000.
Definition noon : Z := 1700000000000.

Definition stale : Cleanup.entry :=
  {| Cleanup.mtime := noon - 25 * hour; Cleanup.isDirectory := true;
     Cleanup.size := 4096; Cleanup.unreadable := false; Cleanup.locked := false |}.

Definition recent : Cleanup.entry :=
  {| Cleanup.mtime := noon - hour; Cleanup.isDirectory := true;
     Cleanup.size := 4096; Cleanup.unreadable := false; Cleanup.locked := false |}.

(** A recent directory that cannot be removed. *)
Definition busy : Cleanup.entry :=
  {| Cleanup.mtime := noon - hour; Cleanup.isDirectory := true;
     Cleanup.size := 4096; Cleanup.unreadable := false; Cleanup.locked := true |}.

(** A stale file that cannot be removed. *)
Definition stuck : Cleanup.entry :=
  {| Cleanup.mtime := noon - 30 * hour; Cleanup.isDirectory := false;
     Cleanup.size := 1024; Cleanup.unreadable := false; Cleanup.locked := true |}.

Definition storage (m : gmap string Cleanup.entry) : Cleanup.State :=
  {| Cleanup.root := Some m; Cleanup.pending := []; Cleanup.log := [] |}.

Definition two_jobs : gmap string Cleanup.entry :=
  <["dQw4w9WgXcQ" := stale]> (<["9bZkp7q19f0" := recent]> ∅).

Definition three_jobs : gmap string Cleanup.entry :=
  <["dQw4w9WgXcQ" := stale]>
    (<["9bZkp7q19f0" := recent]> (<["core.1234" := stuck]> ∅)).

Definition with_busy_job : gmap string Cleanup.entry :=
  <["dQw4w9WgXcQ" := stale]> (<["jNQXAC9IVRw" := busy]> ∅).

Definition df_at (percent : string) : outcome string :=
  Ok ("Filesystem      Size  Used Avail Use% Mounted on" +:+ nl +:+
      "/dev/sda1        50G   47G  3.0G  " +:+ percent +:+ "% /" +:+ nl).

End Scenario.

(** *** The language of a pattern *)

Module RegexTerms.
Import JsString Regex.
Local Open Scope list_scope.

(** Concatenations of words of [L]. *)
Inductive star_of (L : list ascii -> Prop) : list ascii -> Prop :=
| star_nil : star_of L []
| star_app (l1 l2 : list ascii) : L l1 -> star_of L l2 -> star_of L (l1 ++ l2).

(** The words a pattern matches, anchors and captures left aside. *)
Fixpoint lang (r : regex) (l : list ascii) : Prop :=
  match r with
  | Eps => l = []
  | Cls p => exists a, l = [a] /\ p a = true
  | Cat r1 r2 => exists l1 l2, l = l1 ++ l2 /\ lang r1 l1 /\ lang r2 l2
  | Alt r1 r2 => lang r1 l \/ lang r2 l
  | Star _ r1 => star_of (lang r1) l
  | Grp _ r1 => lang r1 l
  | Bol => l = []
  | Eol => l = []
  end.

(** The pattern has no [^] and no [$]. *)
Fixpoint anchor_free (r : regex) : bool :=
  match r with
  | Eps | Cls _ => true
  | Cat r1 r2 | Alt r1 r2 => anchor_free r1 && anchor_free r2
  | Star _ r1 | Grp _ r1 => anchor_free r1
  | Bol | Eol => false
  end.

(** The bodies of the capturing groups numbered [n]. *)
Fixpoint groups (n : nat) (r : regex) : list regex :=
  match r with
  | Eps | Cls _ | Bol | Eol => []
  | Cat r1 r2 | Alt r1 r2 => groups n r1 ++ groups n r2
  | Star _ r1 => groups n r1
  | Grp m r1 => (if (m =? n)%nat then [r1] else []) ++ groups n r1
  end.

(** The pattern always captures group [n] when it matches. *)
Fixpoint sets_group (n : nat) (r : regex) : bool :=
  match r with
  | Cat r1 r2 => sets_group n r1 || sets_group n r2
  | Alt r1 r2 => sets_group n r1 && sets_group n r2
  | Grp m r1 => (m =? n)%nat || sets_group n r1
  | _ => false
  end.

(** [c1] holds for group [n] what [c] held, or a word of a group
    numbered [n] of [r]. *)
Definition captured (r : regex) (n : nat) (c c1 : captures) : Prop :=
  group n c1 = group n c
  \/ exists body v, In body (groups n r) /\ lang body v
                    /\ group n c1 = Some (str v).

(** The repetition loop of [rmatch] at [Star], by its name. *)
Section StarLoop.
Variables (greedy : bool) (r1 : regex) (k : cont).

Fixpoint star_loop (fuel : nat) (i : nat) (s : list ascii) (c : captures)
         {struct fuel} : option captures :=
  match fuel with
  | O => k i s c
  | S fuel' =>
      let more :=
        rmatch r1 i s c
          (fun i1 s1 c1 =>
             if (i <? i1)%nat then star_loop fuel' i1 s1 c1 else None) in
      if greedy then
        match more with
        | Some x => Some x
        | None => k i s c
        end
      else
        match k i s c with
        | Some x => Some x
        | None => more
        end
  end.

End StarLoop.

(** The continuation that ends a search: the captures are the result. *)
Definition final : cont := fun _ _ c => Some c.

End RegexTerms.

(** *** The shapes the validation patterns describe *)

Module ShapeTerms.
Import JsString Regex.
Local Open Scope list_scope.

(** Every character of [s] is of the class [f]. *)
Definition all_chars (f : ascii -> bool) (s : string) : bool :=
  forallb f (chars s).

(** Eleven to fourteen letters, digits, underscores or hyphens. *)
Definition identifier_shape (s : string) : bool :=
  (11 <=? String.length s)%nat && (String.length s <=? 14)%nat
  && all_chars VideoDownloader.id_or_dash s.

(** One or more letters, digits, underscores or hyphens. *)
Definition spec_shape (s : string) : bool :=
  truthy s && all_chars VideoDownloader.spec_char s.

(** One or more decimal digits. *)
Definition digits_shape (s : string) : bool :=
  truthy s && all_chars is_digit s.

(** An optional part number: absent, empty, or decimal digits. *)
Definition part_shape (p : option string) : bool :=
  match p with
  | Some n => negb (truthy n) || digits_shape n
  | None => true
  end.

Definition one_of_strings (l : list string) (s : string) : bool :=
  existsb (String.eqb s) l.

(** The requests [downloadVideo] lets through. *)
Definition video_request_shape (o : VideoDownloader.Options) : bool :=
  match VideoDownloader.videoID o, VideoDownloader.format o with
  | Some v, Some f =>
      identifier_shape v && spec_shape f && part_shape (VideoDownloader.p o)
  | _, _ => false
  end.

(** The requests [downloadSubtitle] lets through. *)
Definition subtitle_request_shape (o : SubtitleDownloader.Options) : bool :=
  match SubtitleDownloader.id o, SubtitleDownloader.locale o,
        SubtitleDownloader.ext o, SubtitleDownloader.type o with
  | Some i, Some l, Some e, Some t =>
      identifier_shape i && truthy l
      && one_of_strings [".srt"; ".ass"; ".vtt"; ".lrc"; ".xml"] e
      && one_of_strings ["auto"; "native"] t
      && part_shape (SubtitleDownloader.p o)
  | _, _, _, _ => false
  end.

(** The characters of a job path: those of an identifier, and [/]. *)
Definition path_char (a : ascii) : bool :=
  VideoDownloader.id_or_dash a || Ascii.eqb a "/".

(** The locales the request validation lets through: two lower-case
    letters with an optional suffix of a hyphen and two to four
    letters, or one of the two keywords. *)
Definition locale_shape (s : string) : bool :=
  one_of_strings ["auto"; "danmaku"] s
  || match chars s with
     | a :: b :: rest =>
         is_lower a && is_lower b
         && match rest with
            | [] => true
            | h :: suffix =>
                Ascii.eqb h "-" && (2 <=? length suffix)%nat
                && (length suffix <=? 4)%nat && forallb is_alpha suffix
            end
     | _ => false
     end.

(** The bodies the request validation lets through to the subtitle
    route. *)
Definition subtitle_body_shape (o : SubtitleDownloader.Options) : bool :=
  match SubtitleDownloader.id o, SubtitleDownloader.ext o,
        SubtitleDownloader.type o, SubtitleDownloader.locale o with
  | Some i, Some e, Some t, Some l =>
      identifier_shape i
      && one_of_strings [".srt"; ".ass"; ".vtt"; ".lrc"; ".xml"] e
      && one_of_strings ["auto"; "native"] t
      && locale_shape l
  | _, _, _, _ => false
  end.

(** The codes the subtitle listing can return: [auto], [danmaku], or
    two lower-case letters with an optional suffix of a hyphen and
    letters. *)
Definition code_shape (s : string) : bool :=
  one_of_strings ["auto"; "danmaku"] s
  || match chars s with
     | a :: b :: rest =>
         is_lower a && is_lower b
         && match rest with
            | [] => true
            | h :: suffix =>
                Ascii.eqb h "-" && negb (forallb (fun _ => false) suffix)
                && forallb is_alpha suffix
            end
     | _ => false
     end.

(** A file name [videoID.stem] with a stem of word characters. *)
Definition unmerged_name (videoID name : string) : Prop :=
  exists stem, name = videoID +:+ "." +:+ stem
               /\ truthy stem = true /\ all_chars is_word stem = true.

End ShapeTerms.

(** ** Further scenarios *)

Module Cases.
Import JsString Sys.
Local Open Scope list_scope.

(** A merging download: the tool writes the two streams, merges them
    and names the three files in its output. *)
Definition merge_output : string :=
  "[download] Destination: /app/tmp/dQw4w9WgXcQ/137x140/dQw4w9WgXcQ.f137.mp4"
  +:+ nl +:+
  "[download] Destination: /app/tmp/dQw4w9WgXcQ/137x140/dQw4w9WgXcQ.f140.m4a"
  +:+ nl +:+
  "[Merger] Merging formats into /app/tmp/dQw4w9WgXcQ/137x140/dQw4w9WgXcQ_merged.mp4".

Definition merging_host : Host :=
  {| cookie := "/app/server/cookies.txt";
     tmpDir := "/app/tmp";
     run := fun cmd w => (Ok merge_output, fs w) |}.

End Cases.

(** A video that the tool resolves at once, a tool that answers
    something else than JSON, and one that writes no sidecar. *)

Module DirectCase.
Import JsString Sys.
Local Open Scope list_scope.

Definition direct_host : Host :=
  {| cookie := "/app/server/cookies.txt";
     tmpDir := "/app/tmp";
     run := fun cmd w =>
              if includes cmd "--print-json" then (Ok Scenario.bili_output, fs w)
              else (Ok Scenario.official_listing, fs w) |}.

(** A host whose tool answers something that is not JSON. *)
Definition garbled_host : Host :=
  {| cookie := "/app/server/cookies.txt";
     tmpDir := "/app/tmp";
     run := fun cmd w => (Ok "<html>Too many requests</html>", fs w) |}.

(** A host whose tool writes the subtitle track and no sidecar. *)
Definition bare_host : Host :=
  {| cookie := "/app/server/cookies.txt";
     tmpDir := "/app/tmp";
     run := fun cmd w =>
              (Ok "[info] Writing video subtitles",
               {| dirs := dirs (fs w);
                  files := <[Scenario.native_track := Scenario.vtt_content]>
                             (files (fs w)) |}) |}.

End DirectCase.

(** *** The sections of a listing *)

Module ListingTerms.
Import JsString Regex Sys VideoParser SubtitleTerms.
Local Open Scope list_scope.







End ListingTerms.

(** *** A listing with both sections *)

Module ListingCase.
Import JsString Sys.
Local Open Scope list_scope.




End ListingCase.

(** *** A storage that refuses the directory of a job *)

Module BlockedCase.
Import JsString Sys.
Local Open Scope list_scope.

End BlockedCase.

(** *** What a retention cycle leaves *)

Module RetentionTerms.
Import JsString Cleanup CleanupTerms.
Local Open Scope list_scope.
Local Open Scope Z_scope.

(** The children of the root; none when the root is absent. *)
Definition children (r : option (gmap string entry)) : gmap string entry :=
  match r with Some m => m | None => ∅ end.

(** The number of children. *)
Definition count (r : option (gmap string entry)) : Z :=
  Z.of_nat (base.size (children r)).

(** The size of an entry that the sweep takes for an old regular file:
    [statSync] answers, the age exceeds [maxAge], and it is no
    directory.  Any other entry counts for nothing. *)
Definition old_file_size (now : Z) (e : entry) : Z :=
  if expired now e && negb (unreadable e) && negb (isDirectory e)
  then size e else 0.

(** The bytes of the old regular files among the children. *)
Definition old_file_bytes (now : Z) (m : gmap string entry) : Z :=
  foldr Z.add 0 (map (fun ke : string * entry => old_file_size now ke.2)
                     (map_to_list m)).

End RetentionTerms.

(** *** The history of a rate limiter *)

Module RateLimitTerms.
Import JsString RateLimit.
Local Open Scope list_scope.
Local Open Scope Z_scope.

Definition let_through (v : Verdict) : bool :=
  match v with Next _ => true | Status429 _ => false end.

(** The requests served one after the other, each at its instant: the
    store at the end and the requests let through, oldest first, each
    with the address of its client. *)
Fixpoint serve (reqs : list (Request * Z)) (store : gmap string ClientData)
         (passed : list (string * Z)) : gmap string ClientData * list (string * Z) :=
  match reqs with
  | [] => (store, passed)
  | (req, now) :: rest =>
      let '(v, store') := rateLimiter req now store in
      serve rest store'
            (if let_through v then passed ++ [(getClientIP req, now)] else passed)
  end.

(** The instants at which requests of [client] were let through. *)
Definition instants (client : string) (passed : list (string * Z)) : list Z :=
  map snd (List.filter (fun r => String.eqb (fst r) client) passed).

(** The number of instants that lie less than [span] before [now]. *)
Definition lately (span now : Z) (l : list Z) : nat :=
  length (List.filter (fun t => now - t <? span) l).

(** The number of instants within the window of length [span] that
    ends at [upto]. *)
Definition in_window (span upto : Z) (l : list Z) : nat :=
  length (List.filter (fun t => (t <=? upto) && (upto - t <? span)) l).

(** The clock of the requests never runs backwards: every request
    comes at its predecessor's instant or later, the first one at
    [last] or later. *)
Fixpoint clock_from (last : Z) (reqs : list (Request * Z)) : Prop :=
  match reqs with
  | [] => True
  | (_, now) :: rest => last <= now /\ clock_from now rest
  end.

Definition clock_ok (reqs : list (Request * Z)) : Prop :=
  match reqs with
  | [] => True
  | (_, now) :: _ => clock_from now reqs
  end.

(** The record of a client; the empty one when the store has none. *)
Definition record_of (store : gmap string ClientData) (client : string) : ClientData :=
  default (mkClientData [] []) (store !! client).

(** The store keeps what matters of the requests let through: for
    every client and every instant from [last] on, the instants of the
    last minute and of the last hour are those of the history. *)
Definition tracks (store : gmap string ClientData) (passed : list (string * Z)) (last : Z) : Prop :=
  forall client now,
    last <= now ->
    List.filter (fun t => now - t <? RATE_LIMIT_WINDOW)
                (requests (record_of store client))
    = List.filter (fun t => now - t <? RATE_LIMIT_WINDOW) (instants client passed)
    /\ List.filter (fun t => now - t <? 60 * 60 * 1000)
                   (hourlyRequests (record_of store client))
       = List.filter (fun t => now - t <? 60 * 60 * 1000) (instants client passed).

(** In every window, of a minute or of an hour, no client got more
    requests through than the limits say. *)
Definition bounded (passed : list (string * Z)) : Prop :=
  forall client upto,
    (in_window RATE_LIMIT_WINDOW upto (instants client passed) <= 30)%nat
    /\ (in_window (60 * 60 * 1000) upto (instants client passed) <= 200)%nat.

(** A record as a request at [now] leaves it: its minute list holds
    instants of the last minute only, and the record is not idle. *)
Definition fresh_at (now : Z) (data : ClientData) : Prop :=
  List.filter (fun t => now - t <? RATE_LIMIT_WINDOW) (requests data)
  = requests data
  /\ (requests data <> []
      \/ List.filter (fun t => now - t <? 60 * 60 * 1000) (hourlyRequests data)
         <> []).

(** A burst of [n] requests of one client at one instant. *)
Definition burst (req : Request) (now : Z) (n : nat) : list (Request * Z) :=
  repeat (req, now) n.

Definition direct (address : string) : Request :=
  {| x_forwarded_for := None; x_real_ip := None;
     connection_remoteAddress := Some address;
     socket_remoteAddress := Some address; ip := Some address |}.

End RateLimitTerms.

(** *** The files of a tree *)

Module CleanupStatsTerms.
Import JsString CleanupStats.
Local Open Scope list_scope.
Local Open Scope Z_scope.

(** The regular files below a node, each with its modification time
    and its size, in the order of the scan. *)
Fixpoint files_below (n : node) : list (Z * Z) :=
  match n with
  | File mtime size => [(mtime, size)]
  | Dir items => files_among items
  | Broken _ => []
  end
with files_among (l : entries) : list (Z * Z) :=
  match l with
  | Empty => []
  | Item _ child rest => files_below child ++ files_among rest
  end.

(** No item below the node makes [statSync] or [readdirSync] throw. *)
Fixpoint readable (n : node) : bool :=
  match n with
  | File _ _ => true
  | Dir items => all_readable items
  | Broken _ => false
  end
with all_readable (l : entries) : bool :=
  match l with
  | Empty => true
  | Item _ child rest => readable child && all_readable rest
  end.

Definition is_directory (n : node) : bool :=
  match n with Dir _ => true | _ => false end.

(** The sum of the sizes, and the files older than the maximal age. *)
Definition bytes (l : list (Z * Z)) : Z := fold_right (fun f s => snd f + s) 0 l.

Definition old_ones (now : Z) (l : list (Z * Z)) : list (Z * Z) :=
  List.filter (fun f => Cleanup.maxAge <? now - fst f) l.

(** The counters after the files of [l] were counted. *)
Definition counted (now : Z) (acc : Counters) (l : list (Z * Z)) : Counters :=
  {| c_totalFiles := c_totalFiles acc + Z.of_nat (length l);
     c_totalSize := c_totalSize acc + bytes l;
     c_oldFiles := c_oldFiles acc + Z.of_nat (length (old_ones now l)) |}.

(** A storage with one finished job, two days old, and one that is
    being written. *)
Definition sample_tree : node :=
  Dir (Item "dQw4w9WgXcQ"
         (Dir (Item "137x140"
                 (Dir (Item "dQw4w9WgXcQ.mp4"
                         (File (Scenario.noon - 48 * Scenario.hour) 52428800)
                         (Item "dQw4w9WgXcQ.info.json"
                            (File (Scenario.noon - 48 * Scenario.hour) 1048576)
                            Empty)))
                 Empty))
         (Item "9bZkp7q19f0"
            (Dir (Item "18"
                    (Dir (Item "9bZkp7q19f0.mp4.part"
                            (File (Scenario.noon - 1000) 3145728) Empty))
                    Empty))
            Empty)).

End CleanupStatsTerms.

(** *** The shapes the middleware asks for *)

Module RouteTerms.
Import JsString Sys ShapeTerms Routes.
Local Open Scope list_scope.

(** The parameter is a string of the given shape. *)
Definition text_of_shape (shape : string -> bool) (x : option Param) : bool :=
  match x with
  | Some (Text s) => shape s
  | _ => false
  end.

(** The parameter is an array or an object. *)
Definition structured (x : option Param) : bool :=
  match x with
  | Some (Items _) | Some (Fields _) => true
  | _ => false
  end.

(** A platform whose [URL] accepts every string that has a scheme. *)
Definition lenient_urls : UrlParser :=
  {| URL_accepts := fun s => includes s "://" |}.

Definition no_body : SubtitleDownloader.Options :=
  {| SubtitleDownloader.website := None; SubtitleDownloader.id := None;
     SubtitleDownloader.p := None; SubtitleDownloader.locale := None;
     SubtitleDownloader.ext := None; SubtitleDownloader.type := None |}.

Definition query_of_url (u : Param) : Query :=
  {| url := Some u; v := None; format := None |}.

(** The query of a download: an identifier and a format. *)
Definition download_query (i f : Param) : Query :=
  {| url := None; v := Some i; format := Some f |}.

(** The options of a download of a part of a Bilibili video. *)
Definition part_options (part : string) : VideoDownloader.Options :=
  {| VideoDownloader.website := Some "bilibili";
     VideoDownloader.videoID := Some "BV1xx411c7mD";
     VideoDownloader.p := Some part;
     VideoDownloader.format := Some "30280";
     VideoDownloader.recode := None;
     VideoDownloader.subs := None;
     VideoDownloader.merge := None |}.

End RouteTerms.

(* ===================================================================== *)
(** * Part II: properties                                                 *)
(* ===================================================================== *)

(** ** Strings *)

Module JsStringFacts.
Import JsString.
Local Open Scope list_scope.

Lemma chars_append (s t : string) : chars (s +:+ t) = chars s ++ chars t.
Proof.
  unfold chars. induction s as [|a s IH]; simpl; [reflexivity|].
  now rewrite IH.
Qed.

Lemma str_chars (s : string) : str (chars s) = s.
Proof. apply string_of_list_ascii_of_string. Qed.

Lemma chars_str (l : list ascii) : chars (str l) = l.
Proof. apply list_ascii_of_string_of_list_ascii. Qed.



End JsStringFacts.

(** ** Code units *)

Module CodeUnitFacts.
Import JsString JsStringFacts.
Local Open Scope list_scope.

Lemma byte_range (a : ascii) : (0 <= byte a < 256)%Z.
Proof.
  unfold byte, code. pose proof (nat_ascii_bounded a). lia.
Qed.

Lemma byte_of_nat (n : nat) : (n < 256)%nat -> byte (ascii_of_nat n) = Z.of_nat n.
Proof. intros Hn. unfold byte, code. now rewrite nat_ascii_embedding. Qed.

Lemma high_unit_range (cp : Z) :
  (0 <= cp < 2097152)%Z -> (55296 <= high_unit cp < 57344)%Z.
Proof.
  intros Hcp. unfold high_unit.
  assert (0 <= Z.max 0 (cp - 65536) / 1024 < 2048)%Z; [|lia].
  split; [apply Z.div_pos; lia|].
  apply Z.div_lt_upper_bound; lia.
Qed.

Lemma scalar4_range (a b c d : ascii) : (0 <= scalar4 a b c d < 2097152)%Z.
Proof.
  unfold scalar4.
  pose proof (Z.mod_pos_bound (byte a) 8).
  pose proof (Z.mod_pos_bound (byte b) 64).
  pose proof (Z.mod_pos_bound (byte c) 64).
  pose proof (Z.mod_pos_bound (byte d) 64). lia.
Qed.

Lemma units_surrogate (u : Z) :
  (55296 <= u < 57344)%Z -> units (surrogate_bytes u) = [u].
Proof.
  intros Hu. unfold surrogate_bytes.
  pose proof (Z.mod_pos_bound (u / 64) 64 ltac:(lia)) as H1.
  pose proof (Z.mod_pos_bound u 64 ltac:(lia)) as H2.
  cbn [units].
  rewrite !byte_of_nat by lia.
  change (Z.of_nat 237 <? 192)%Z with false.
  change (Z.of_nat 237 <? 224)%Z with false.
  change (Z.of_nat 237 <? 240)%Z with true. cbv iota.
  rewrite !Z2Nat.id by lia.
  f_equal. change (Z.of_nat 237 mod 16)%Z with 13%Z.
  Z.div_mod_to_equations. lia.
Qed.

Lemma units_take (n : nat) :
  forall s, units (take_units n s) = firstn n (units s).
Proof.
  induction n as [n IH] using lt_wf_ind. intros s.
  destruct n as [|n']; [now destruct s|].
  destruct s as [|a s1]; [reflexivity|].
  cbn [take_units units].
  destruct (byte a <? 192)%Z eqn:E1.
  { cbn [units]. rewrite E1. cbn [firstn]. f_equal. apply IH. lia. }
  destruct (byte a <? 224)%Z eqn:E2.
  { destruct s1 as [|b s2]; cbn [units]; rewrite E1, E2; cbn [firstn].
    - now destruct n'.
    - f_equal. apply IH. lia. }
  destruct (byte a <? 240)%Z eqn:E3.
  { destruct s1 as [|b [|c s3]]; cbn [units]; rewrite E1, E2, E3; cbn [firstn];
      try (now destruct n').
    f_equal. apply IH. lia. }
  destruct s1 as [|b [|c [|d s4]]]; try (cbn [units]; rewrite E1, E2, E3; cbn [firstn];
      now destruct n').
  destruct n' as [|n''].
  - rewrite units_surrogate; [reflexivity|].
    apply high_unit_range, scalar4_range.
  - cbn [units]. rewrite E1, E2, E3. cbn [firstn]. do 2 f_equal. apply IH. lia.
Qed.

(** A text of at most [n] units is taken whole. *)
Lemma take_all (n : nat) :
  forall s, (length (units s) <= n)%nat -> take_units n s = s.
Proof.
  induction n as [n IH] using lt_wf_ind. intros s.
  destruct s as [|a s1]; [now destruct n|].
  destruct n as [|n'].
  { cbn [units].
    destruct (byte a <? 192)%Z; [cbn; lia|].
    destruct (byte a <? 224)%Z; [destruct s1; cbn; lia|].
    destruct (byte a <? 240)%Z; [destruct s1 as [|b [|c s3]]; cbn; lia|].
    destruct s1 as [|b [|c [|d s4]]]; cbn; lia. }
  cbn [take_units units].
  destruct (byte a <? 192)%Z.
  { cbn [length]. intros Hl. f_equal. apply IH; lia. }
  destruct (byte a <? 224)%Z.
  { destruct s1 as [|b s2]; [reflexivity|].
    cbn [length]. intros Hl. do 2 f_equal. apply IH; lia. }
  destruct (byte a <? 240)%Z.
  { destruct s1 as [|b [|c s3]]; try reflexivity.
    cbn [length]. intros Hl. do 3 f_equal. apply IH; lia. }
  destruct s1 as [|b [|c [|d s4]]]; try reflexivity.
  cbn [length]. intros Hl.
  destruct n' as [|n'']; [lia|].
  do 4 f_equal. apply IH; lia.
Qed.

(** On a text of ASCII characters the units are the characters. *)
Lemma take_ascii (n : nat) (s : list ascii) :
  forallb (fun a => (byte a <? 128)%Z) s = true -> take_units n s = firstn n s.
Proof.
  revert n. induction s as [|a s IH]; intros n Hs; [now destruct n|].
  cbn [forallb] in Hs. apply andb_true_iff in Hs as [Ha Hs].
  destruct n as [|n]; [reflexivity|]. cbn [take_units firstn].
  assert ((byte a <? 192)%Z = true) as ->.
  { apply Z.ltb_lt. apply Z.ltb_lt in Ha. lia. }
  f_equal. now apply IH.
Qed.

End CodeUnitFacts.

(** ** The quality classifier *)

Module QualityFacts.
Import JsString JsNumber VideoParser QualityTerms.
Local Open Scope list_scope.

Lemma mapVideoQuality_range (height : option Q) (note : option string) :
  In (quality (mapVideoQuality height note),
      standard (mapVideoQuality height note)) video_labels.
Proof.
  unfold mapVideoQuality, video_labels.
  repeat match goal with
         | |- context [if ?b then _ else _] => destruct b
         end; simpl; tauto.
Qed.

Lemma mapAudioQuality_range (abr : option Q) :
  In (mapAudioQuality abr) audio_labels.
Proof.
  unfold mapAudioQuality, audio_labels.
  repeat match goal with
         | |- context [if ?b then _ else _] => destruct b
         end; simpl; tauto.
Qed.

(** C5.  The two classifiers have no failing path: whatever the
    height, the note and the bitrate, absent or present, they return
    one of their fixed labels.  On the examples of the design
    document: height 1080 with an empty note is "1080p", "Full HD";
    height 0 with the note "4K HDR" is "2160p"; a bitrate of 256 is
    "Medium (192kbps+)" and a bitrate of 50 is "Unknown". *)
Theorem quality_classifiers_total_and_examples :
  (forall height note,
      exists q, mapVideoQuality height note = q
                /\ In (quality q, standard q) video_labels)
  /\ (forall abr,
         exists l, mapAudioQuality abr = l /\ In l audio_labels)
  /\ quality (mapVideoQuality (Some 1080%Q) (Some "")) = "1080p"
  /\ standard (mapVideoQuality (Some 1080%Q) (Some "")) = "Full HD"
  /\ quality (mapVideoQuality (Some 0%Q) (Some "4K HDR")) = "2160p"
  /\ mapAudioQuality (Some 256%Q) = "Medium (192kbps+)"
  /\ mapAudioQuality (Some 50%Q) = "Unknown".
Proof.
  split; [|split].
  - intros height note. eexists. split; [reflexivity|].
    apply mapVideoQuality_range.
  - intros abr. eexists. split; [reflexivity|].
    apply mapAudioQuality_range.
  - repeat split; vm_compute; reflexivity.
Qed.

End QualityFacts.

(** ** The subtitle lister *)

Module SubtitleFacts.
Import JsString JsStringFacts Regex Sys VideoParser SubtitleTerms.
Local Open Scope list_scope.





Lemma parseSubtitles_result `{Host} (url : string) (w : World) :
  (parseSubtitles url w).1
  = match listing url w with
    | Ok out => Ok (listSubtitles out)
    | Throw _ => Ok []
    end.
Proof.
  unfold parseSubtitles, listing, try_catch, bind, existsSync, execSync, ret.
  cbn.
  destruct (run _ _) as [[out|e] f]; reflexivity.
Qed.


End SubtitleFacts.

(** ** The host *)

Module SysFacts.
Import JsString Sys SysTerms.
Local Open Scope list_scope.

Lemma skipn_app_exact {A} (l k : list A) : skipn (length l) (l ++ k) = k.
Proof. induction l; simpl; auto. Qed.

Lemma new_events_appended {A} (m : M A) (w : World) (l : list event) :
  log (m w).2 = log w ++ l -> new_events m w = l.
Proof. unfold new_events. intros ->. apply skipn_app_exact. Qed.

Lemma spawned_app (l k : list event) :
  spawned (l ++ k) = spawned l ++ spawned k.
Proof.
  induction l as [|e l IH]; [reflexivity|].
  destruct e; cbn [app spawned]; now rewrite IH.
Qed.

End SysFacts.

(** ** The metadata extractor: invocation and retry *)

Module ExtractorFacts.
Import JsString JsStringFacts Regex Sys SysTerms SysFacts VideoParser ExtractorTerms.
Local Open Scope list_scope.

Section Invocations.
Context `{Host} `{Json}.

Lemma extract_first_ok (ident : Identity) (url : string) (w : World) (out : string) :
  (first_attempt url w).1 = Ok out ->
  extract ident (present w) url (emit (Exists cookie) w)
  = (Ok (out, id_p ident, url), after (first_attempt url w) (first_world url w)).
Proof.
  unfold first_attempt, first_world, extract, try_catch, bind, execSync, ret, after.
  destruct (run _ _) as [[o|e] f]; cbn; intros E; [|discriminate].
  now inversion E.
Qed.

Lemma extract_terminal (ident : Identity) (url : string) (w : World) (e : string) :
  (first_attempt url w).1 = Throw e ->
  id_website ident = y2b \/ otruthy (id_p ident) = true ->
  extract ident (present w) url (emit (Exists cookie) w)
  = (Throw e, after (first_attempt url w) (first_world url w)).
Proof.
  unfold first_attempt, first_world, extract, try_catch, bind, execSync, ret,
    throw, after.
  destruct (run _ _) as [[o|e'] f]; cbn; intros E; [discriminate|].
  inversion E; subst. intros [Hw|Hp].
  - rewrite Hw. rewrite bool_decide_false by discriminate. reflexivity.
  - rewrite Hp. rewrite andb_false_r. reflexivity.
Qed.

Lemma extract_retry (ident : Identity) (url : string) (w : World) (e : string) :
  (first_attempt url w).1 = Throw e ->
  id_website ident = bilibili ->
  otruthy (id_p ident) = false ->
  extract ident (present w) url (emit (Exists cookie) w)
  = (match (retry_attempt url w).1 with
     | Ok out => Ok (out, Some "1", retryUrl url)
     | Throw e2 => Throw e2
     end, after (retry_attempt url w) (retry_world url w)).
Proof.
  unfold retry_attempt, retry_world, first_attempt, first_world, extract,
    try_catch, bind, execSync, ret, throw, after.
  destruct (run (parseCommand (present w) url) _) as [[o|e'] f] eqn:E1; cbn;
    intros E; [discriminate|].
  intros Hw Hp. rewrite Hw, Hp.
  rewrite bool_decide_true by reflexivity. cbn.
  destruct (run (parseCommand (present w) (retryUrl url)) _) as [[o2|e2] f2];
    reflexivity.
Qed.

(** [parseVideo] once the URL is resolved, in terms of [extract]. *)
Lemma parseVideo_resolved (url : string) (w : World) (ident : Identity) :
  resolve url = Some ident ->
  parseVideo url w
  = match extract ident (present w) url (emit (Exists cookie) w) with
    | (Ok (result, p, url'), w1) =>
        match JSON_parse result with
        | Ok videoInfo =>
            match parseSubtitles url' w1 with
            | (Ok subs, w2) => (Ok (buildResult ident p videoInfo subs), w2)
            | (Throw e, w2) => (Throw ("解析失败: " +:+ e), w2)
            end
        | Throw e => (Throw ("解析失败: " +:+ e), w1)
        end
    | (Throw e, w1) => (Throw ("解析失败: " +:+ e), w1)
    end.
Proof.
  intros Hr. unfold parseVideo. rewrite Hr.
  unfold try_catch, bind, existsSync, parseJson, throw, ret. cbn.
  fold (present w).
  destruct (extract ident (present w) url _) as [[[[result p] url']|e] w1];
    [|reflexivity].
  destruct (JSON_parse result) as [info|e]; [|reflexivity].
  destruct (parseSubtitles url' w1) as [[subs|e] w2]; reflexivity.
Qed.

(** The listing never throws, and logs its two effects. *)
Lemma parseSubtitles_total (url : string) (w : World) :
  exists subs f,
    parseSubtitles url w
    = (Ok subs,
       {| fs := f;
          log := log w ++ [Exists cookie;
                           Spawn (listCommand (exists_in (fs w) cookie) url)] |}).
Proof.
  unfold parseSubtitles, try_catch, bind, existsSync, execSync, ret, emit. cbn.
  destruct (run _ _) as [[out|e] f]; cbn; rewrite <- app_assoc; cbn; eauto.
Qed.

Lemma buildResult_p ident p videoInfo subs :
  r_p (buildResult ident p videoInfo subs) = p.
Proof. unfold buildResult. now destruct (processFormats _). Qed.

Lemma buildResult_subs ident p videoInfo l :
  subs (buildResult ident p videoInfo l) = l.
Proof. unfold buildResult. now destruct (processFormats _). Qed.

Lemma length_append (s t : string) :
  String.length (s +:+ t) = (String.length s + String.length t)%nat.
Proof. induction s as [|a s IH]; simpl; [reflexivity | now rewrite IH]. Qed.

Lemma retryUrl_appends (url : string) :
  retryUrl url = url +:+ "&p=1" \/ retryUrl url = url +:+ "?p=1".
Proof. unfold retryUrl. destruct (includes url "?"); auto. Qed.

Lemma retryUrl_differs (url : string) : retryUrl url <> url.
Proof.
  intros E. apply (f_equal String.length) in E.
  destruct (retryUrl_appends url) as [R|R]; rewrite R, length_append in E;
    simpl in E; lia.
Qed.

Ltac read_log :=
  unfold new_events, after, retry_world, first_world, emit; cbn [log fst snd];
  repeat rewrite <- app_assoc; cbn [app];
  rewrite skipn_app_exact; cbn [spawned].

(** C2.  For a URL resolved to Bilibili without a part number, when the
    first metadata invocation fails there is exactly one more, for the
    URL with [p=1] appended: the commands spawned by the call are the
    first one, the retry and at most the listing of subtitles.  If the
    retry succeeds (and its output parses) the result carries part "1";
    if it fails the call fails.  For YouTube, or when a part number was
    present, the first failure ends the call and nothing else is
    spawned. *)
Theorem bilibili_single_retry (url : string) (w : World) (ident : Identity)
        (e : string) :
  resolve url = Some ident ->
  (first_attempt url w).1 = Throw e ->
  (id_website ident = bilibili -> otruthy (id_p ident) = false ->
   (retryUrl url = url +:+ "&p=1" \/ retryUrl url = url +:+ "?p=1")
   /\ (exists tail,
          spawned (new_events (parseVideo url) w)
          = parseCommand (present w) url
            :: parseCommand (present w) (retryUrl url) :: tail
          /\ (tail = [] \/ exists b, tail = [listCommand b (retryUrl url)]))
   /\ (forall out videoInfo,
          (retry_attempt url w).1 = Ok out ->
          JSON_parse out = Ok videoInfo ->
          exists r, (parseVideo url w).1 = Ok r /\ r_p r = Some "1")
   /\ (forall e2,
          (retry_attempt url w).1 = Throw e2 ->
          (parseVideo url w).1 = Throw ("解析失败: " +:+ e2)
          /\ spawned (new_events (parseVideo url) w)
             = [parseCommand (present w) url;
                parseCommand (present w) (retryUrl url)]))
  /\ (id_website ident = y2b \/ otruthy (id_p ident) = true ->
      (parseVideo url w).1 = Throw ("解析失败: " +:+ e)
      /\ spawned (new_events (parseVideo url) w)
         = [parseCommand (present w) url]).
Proof.
  intros Hr Hfirst. split.
  - intros Hw Hp.
    pose proof (parseVideo_resolved url w ident Hr) as PV.
    rewrite (extract_retry ident url w e Hfirst Hw Hp) in PV.
    split; [apply retryUrl_appends|].
    destruct (retry_attempt url w).1 as [out|e2] eqn:Hretry.
    + destruct (JSON_parse out) as [videoInfo|ej] eqn:Hj.
      * destruct (parseSubtitles_total (retryUrl url)
                    (after (retry_attempt url w) (retry_world url w)))
          as (subs & f & PS).
        rewrite PS in PV.
        split; [|split].
        -- eexists. split.
           ++ unfold new_events. rewrite PV. read_log. reflexivity.
           ++ right. eauto.
        -- intros out' info' Ho Hj'. rewrite PV. cbn [fst].
           eexists. split; [reflexivity | apply buildResult_p].
        -- intros e2 He2. discriminate.
      * split; [|split].
        -- exists []. split; [|now left]. unfold new_events. rewrite PV. read_log. reflexivity.
        -- intros out' info' Ho Hj'. inversion Ho; subst. congruence.
        -- intros e2 He2. discriminate.
    + split; [|split].
      * exists []. split; [|now left]. unfold new_events. rewrite PV. read_log. reflexivity.
      * intros out' info' Ho. discriminate.
      * intros e2' He2. inversion He2; subst. split; [now rewrite PV|].
        unfold new_events. rewrite PV. read_log. reflexivity.
  - intros Hother.
    pose proof (parseVideo_resolved url w ident Hr) as PV.
    rewrite (extract_terminal ident url w e Hfirst Hother) in PV.
    split; [now rewrite PV|]. unfold new_events. rewrite PV. read_log. reflexivity.
Qed.

(** C4 (amended).  After a retry the variable [url] holds the retried
    URL, so when [parseVideo] succeeds through the [p=1] retry the
    listing of subtitles is invoked with the URL that has [p=1]
    appended, which is not the URL the caller supplied.  A failure of
    the listing gives an empty subtitle list in the result; the parse
    itself succeeds. *)
Theorem subtitles_listed_with_effective_url (url : string) (w : World)
        (ident : Identity) :
  resolve url = Some ident ->
  (forall e out videoInfo,
      (first_attempt url w).1 = Throw e ->
      id_website ident = bilibili ->
      otruthy (id_p ident) = false ->
      (retry_attempt url w).1 = Ok out ->
      JSON_parse out = Ok videoInfo ->
      spawned (new_events (parseVideo url) w)
      = [parseCommand (present w) url;
         parseCommand (present w) (retryUrl url);
         listCommand (exists_in (retry_attempt url w).2 cookie) (retryUrl url)]
      /\ retryUrl url <> url)
  /\ (forall result p url' w1 videoInfo e,
         extract ident (present w) url (emit (Exists cookie) w)
         = (Ok (result, p, url'), w1) ->
         JSON_parse result = Ok videoInfo ->
         SubtitleTerms.listing url' w1 = Throw e ->
         exists r, (parseVideo url w).1 = Ok r /\ subs r = []).
Proof.
  intros Hr. split.
  - intros e out videoInfo Hfirst Hw Hp Hretry Hj.
    split; [|apply retryUrl_differs].
    pose proof (parseVideo_resolved url w ident Hr) as PV.
    rewrite (extract_retry ident url w e Hfirst Hw Hp), Hretry, Hj in PV.
    destruct (parseSubtitles_total (retryUrl url)
                (after (retry_attempt url w) (retry_world url w)))
      as (l & f & PS).
    rewrite PS in PV. unfold new_events. rewrite PV. read_log. reflexivity.
  - intros result p url' w1 videoInfo e Hex Hj Hlist.
    pose proof (parseVideo_resolved url w ident Hr) as PV.
    rewrite Hex, Hj in PV.
    pose proof (SubtitleFacts.parseSubtitles_result url' w1) as PR.
    rewrite Hlist in PR.
    destruct (parseSubtitles url' w1) as [[l|e'] w2]; cbn in PR; [|discriminate].
    inversion PR; subst. rewrite PV. cbn [fst].
    eexists. split; [reflexivity | apply buildResult_subs].
Qed.

End Invocations.

(** The Bilibili video of the scenario: the first invocation fails, the
    retry succeeds and the result carries part "1"; for a YouTube video
    the failure of the only invocation ends the call. *)
Lemma bilibili_single_retry_witness :
  (exists r,
      (parseVideo (H := Scenario.retry_host) (H0 := Scenario.sample_json)
                  Scenario.bili_url Scenario.fresh).1 = Ok r
      /\ r_p r = Some "1")
  /\ (parseVideo (H := Scenario.retry_host) (H0 := Scenario.sample_json)
                 "https://youtu.be/dQw4w9WgXcQ" Scenario.fresh).1
     = Throw ("解析失败: " +:+ "Command failed: yt-dlp --print-json").
Proof.
  split.
  - destruct (bilibili_single_retry
                (H := Scenario.retry_host) (H0 := Scenario.sample_json)
                Scenario.bili_url Scenario.fresh
                {| id_website := bilibili; id_videoID := "BV1GJ411x7h7"; id_p := None |}
                "Command failed: yt-dlp --print-json" eq_refl eq_refl)
      as [Hretry _].
    destruct (Hretry eq_refl eq_refl) as (_ & _ & Hok & _).
    apply (Hok Scenario.bili_output Scenario.bili_info); reflexivity.
  - destruct (bilibili_single_retry
                (H := Scenario.retry_host) (H0 := Scenario.sample_json)
                "https://youtu.be/dQw4w9WgXcQ" Scenario.fresh
                {| id_website := y2b; id_videoID := "dQw4w9WgXcQ"; id_p := None |}
                "Command failed: yt-dlp --print-json" eq_refl eq_refl)
      as [_ Hterminal].
    apply Hterminal. left. reflexivity.
Defined.

(** On the scenario the listing is invoked with the retried URL and
    fails, and the parse succeeds with no subtitles. *)
Lemma subtitles_listed_with_effective_url_witness :
  spawned (new_events (parseVideo (H := Scenario.retry_host)
                                  (H0 := Scenario.sample_json)
                                  Scenario.bili_url) Scenario.fresh)
  = ["yt-dlp --print-json --skip-download  'https://www.bilibili.com/video/BV1GJ411x7h7' 2> /dev/null";
     "yt-dlp --print-json --skip-download  'https://www.bilibili.com/video/BV1GJ411x7h7?p=1' 2> /dev/null";
     "yt-dlp --list-subs  'https://www.bilibili.com/video/BV1GJ411x7h7?p=1' 2> /dev/null"]
  /\ exists r,
      (parseVideo (H := Scenario.retry_host) (H0 := Scenario.sample_json)
                  Scenario.bili_url Scenario.fresh).1 = Ok r
      /\ subs r = [].
Proof.
  pose proof (subtitles_listed_with_effective_url
                (H := Scenario.retry_host) (H0 := Scenario.sample_json)
                Scenario.bili_url Scenario.fresh
                {| id_website := bilibili; id_videoID := "BV1GJ411x7h7"; id_p := None |}
                eq_refl) as [Hlisted Hdegrade].
  split.
  - apply (Hlisted "Command failed: yt-dlp --print-json"
                   Scenario.bili_output Scenario.bili_info);
      reflexivity.
  - eapply (Hdegrade Scenario.bili_output (Some "1")
                     "https://www.bilibili.com/video/BV1GJ411x7h7?p=1" _
                     Scenario.bili_info "Command failed: yt-dlp --list-subs");
      vm_compute; reflexivity.
Defined.

(** C4 as stated fails: after the retry the listing is not invoked with
    the URL the caller supplied. *)
Lemma listing_uses_retried_url :
  spawned (new_events (parseVideo (H := Scenario.retry_host)
                                  (H0 := Scenario.sample_json)
                                  Scenario.bili_url) Scenario.fresh)
  = [parseCommand (H := Scenario.retry_host) false Scenario.bili_url;
     parseCommand (H := Scenario.retry_host) false (Scenario.bili_url +:+ "?p=1");
     listCommand (H := Scenario.retry_host) false (Scenario.bili_url +:+ "?p=1")]
  /\ listCommand (H := Scenario.retry_host) false (Scenario.bili_url +:+ "?p=1")
     <> listCommand (H := Scenario.retry_host) false Scenario.bili_url.
Proof.
  split.
  - vm_compute. reflexivity.
  - vm_compute. discriminate.
Qed.

End ExtractorFacts.

(** ** The metadata extractor: formats *)

Module FormatFacts.
Import JsString JsStringFacts JsNumber Regex Sys VideoParser FormatTerms.
Local Open Scope list_scope.

(** *** Rendering and reading back a bitrate *)

Lemma string_of_uint_digits (d : Decimal.uint) :
  forallb is_digit (chars (NilEmpty.string_of_uint d)) = true.
Proof. induction d; simpl; auto. Qed.

Lemma digits_of_N_digits (n : N) :
  forallb is_digit (chars (digits_of_N n)) = true.
Proof.
  unfold digits_of_N, NilZero.string_of_uint.
  destruct (N.to_uint n); first [reflexivity | apply string_of_uint_digits].
Qed.

Lemma digits_of_N_cons (n : N) :
  exists d ds, chars (digits_of_N n) = d :: ds.
Proof.
  unfold digits_of_N, NilZero.string_of_uint.
  destruct (N.to_uint n); simpl; eauto.
Qed.

Lemma N_of_digits_of_N (n : N) :
  N_of_digits (chars (digits_of_N n)) = Some n.
Proof.
  unfold N_of_digits. rewrite str_chars.
  unfold digits_of_N, NilZero.string_of_uint.
  pose proof (DecimalN.Unsigned.of_to n) as Hn.
  destruct (N.to_uint n) eqn:E;
    [simpl; simpl in Hn; now subst | rewrite NilEmpty.usu; now rewrite Hn ..].
Qed.

Lemma take_digits_all (l : list ascii) :
  forallb is_digit l = true -> take_digits l = (l, []).
Proof.
  induction l as [|a l IH]; simpl; [reflexivity|].
  intros Hl. apply andb_prop in Hl as [Ha Hl].
  rewrite Ha, (IH Hl). reflexivity.
Qed.

Lemma scaled_round_nonneg (x : Q) : (0 <= scaled_round 0 (Qabs x))%Z.
Proof.
  unfold scaled_round. change 0%Z with (Qfloor 0).
  apply Qfloor_resp_le.
  pose proof (Qabs_nonneg x) as Hx.
  change (inject_Z (10 ^ Z.of_nat 0)) with 1%Q.
  rewrite Qmult_1_r.
  apply Qle_trans with (Qabs x); [assumption|].
  rewrite <- (Qplus_0_r (Qabs x)) at 1.
  apply Qplus_le_r. discriminate.
Qed.

Lemma parseFloat_toFixed0 (x : Q) :
  parseFloat (toFixed 0 x) = Some (inject_Z (rounded x)).
Proof.
  unfold toFixed, rounded. cbn [with_point]. rewrite str_chars.
  set (n := Z.to_N (scaled_round 0 (Qabs x))).
  assert (Z.of_N n = scaled_round 0 (Qabs x)) as Hn
      by (apply Z2N.id, scaled_round_nonneg).
  destruct (digits_of_N_cons n) as (d & ds & Hc).
  pose proof (digits_of_N_digits n) as Hd.
  pose proof (N_of_digits_of_N n) as Hv.
  assert (is_digit d = true) as Hd0
      by (rewrite Hc in Hd; simpl in Hd; now apply andb_prop in Hd).
  assert (is_space d = false /\ Ascii.eqb d "-" = false
          /\ Ascii.eqb d "+" = false) as (Hs & Hm & Hp).
  { clear -Hd0. unfold is_digit, is_space, in_range, code in *.
    repeat split.
    - destruct (Nat.leb_spec 48 (nat_of_ascii d)); [|discriminate].
      destruct (Nat.leb_spec (nat_of_ascii d) 13); [lia|].
      destruct (Nat.eqb_spec (nat_of_ascii d) 32); [lia|].
      now rewrite andb_false_r.
    - apply Ascii.eqb_neq. intros ->. discriminate.
    - apply Ascii.eqb_neq. intros ->. discriminate. }
  unfold parseFloat.
  destruct (is_negative x).
  - rewrite chars_append. cbn [chars list_ascii_of_string app drop_space is_space].
    change (is_space "-") with false. cbn iota.
    change (Ascii.eqb "-" "-") with true. cbn iota.
    rewrite (take_digits_all _ Hd), app_nil_r, Hv, Hc, Hn. reflexivity.
  - rewrite Hc. cbn [drop_space]. rewrite Hs, Hm, Hp.
    rewrite <- Hc.
    rewrite (take_digits_all _ Hd), app_nil_r, Hv, Hc, Hn. reflexivity.
Qed.

Lemma goes_before_rounded (x y : Q) :
  goes_before (toFixed 0 x) (toFixed 0 y) = (rounded y <? rounded x)%Z.
Proof.
  unfold goes_before. rewrite !parseFloat_toFixed0.
  unfold is_negative, Qle_bool, Qminus, Qplus, Qopp, inject_Z. cbn.
  destruct (Z.leb_spec 0 ((rounded y * 1 + - rounded x * 1) * 1));
    destruct (Z.ltb_spec (rounded y) (rounded x)); cbn; try reflexivity; lia.
Qed.

(** *** Sorting and the first maximum *)

Lemma first_max_none {A} (key : A -> Z) (l : list A) :
  first_max key l = None <-> l = [].
Proof.
  destruct l as [|x l]; simpl; [tauto|].
  split; [|discriminate].
  destruct (first_max key l); [destruct (_ <? _)%Z|]; discriminate.
Qed.

Lemma first_max_spec {A} (key : A -> Z) (l : list A) (b : A) :
  first_max key l = Some b ->
  exists pre post,
    l = pre ++ b :: post
    /\ Forall (fun x => (key x < key b)%Z) pre
    /\ Forall (fun x => (key x <= key b)%Z) post.
Proof.
  revert b. induction l as [|x l IH]; intros b; simpl; [discriminate|].
  destruct (first_max key l) as [m|] eqn:Hm.
  - destruct (IH m eq_refl) as (pre & post & -> & Hpre & Hpost).
    destruct (Z.ltb_spec (key x) (key m)); intros E; inversion E; subst.
    + exists (x :: pre), post. repeat split; auto.
    + exists [], (pre ++ m :: post). repeat split; auto.
      apply Forall_app. split.
      * eapply Forall_impl; [exact Hpre|]. simpl. intros; lia.
      * constructor; [lia|].
        eapply Forall_impl; [exact Hpost|]. simpl. intros; lia.
  - apply first_max_none in Hm. subst. intros E; inversion E; subst.
    exists [], []. repeat split; auto.
Qed.

Lemma head_insert_sorted {A} (before : A -> A -> bool) (x : A) (l : list A) :
  head (insert_sorted before x l)
  = match head l with
    | Some m => if before m x then Some m else Some x
    | None => Some x
    end.
Proof. destruct l as [|y l]; simpl; [reflexivity|]. now destruct (before y x). Qed.

(** The head of a sorted array of entries is the entry of the first
    maximum, when the comparator orders entries by a key of what they
    were made from. *)
Lemma head_sort_map {A B} (g : A -> B) (key : A -> Z) (before : B -> B -> bool)
      (l : list A) :
  (forall a b, before (g a) (g b) = (key b <? key a)%Z) ->
  head (sort before (map g l)) = option_map g (first_max key l).
Proof.
  intros Hb. induction l as [|x l IH]; [reflexivity|].
  cbn [map sort fold_right]. fold (sort before (map g l)).
  rewrite head_insert_sorted, IH. cbn [first_max].
  destruct (first_max key l) as [m|]; cbn; [|reflexivity].
  rewrite Hb. now destruct (key x <? key m)%Z.
Qed.

(** *** Buckets *)

Lemma fold_pushFormat (fs : list Format) (A : list AudioEntry) (V : list VideoEntry) :
  fold_left pushFormat fs (A, V)
  = (A ++ map audioEntry (List.filter is_audio fs),
     V ++ map videoEntry (List.filter is_video fs)).
Proof.
  revert A V. induction fs as [|f fs IH]; intros A V; cbn [fold_left List.filter map].
  - now rewrite !app_nil_r.
  - unfold pushFormat at 2, is_audio, is_video.
    destruct (not_none (audio_ext f)); cbn [negb andb].
    + rewrite IH. cbn [map]. now rewrite <- app_assoc.
    + destruct (not_none (video_ext f)).
      * rewrite IH. cbn [map]. now rewrite <- app_assoc.
      * now rewrite IH.
Qed.

Lemma processFormats_buckets (fs : list Format) :
  processFormats (Some fs)
  = (map audioEntry (List.filter is_audio fs),
     map videoEntry (List.filter is_video fs)).
Proof. unfold processFormats. now rewrite fold_pushFormat. Qed.

Lemma best_audio_first_max ident p videoInfo l (fs : list Format) :
  formats videoInfo = Some fs ->
  best_audio (buildResult ident p videoInfo l)
  = option_map audioEntry (first_max audio_rate (List.filter is_audio fs)).
Proof.
  intros Hf. unfold buildResult. rewrite Hf, processFormats_buckets.
  cbn [best_audio]. unfold sortAudios.
  apply head_sort_map. intros a b. cbn [audioEntry a_rate].
  apply goes_before_rounded.
Qed.

Lemma best_video_first_max ident p videoInfo l (fs : list Format) :
  formats videoInfo = Some fs ->
  best_video (buildResult ident p videoInfo l)
  = option_map videoEntry (first_max video_rate (List.filter is_video fs)).
Proof.
  intros Hf. unfold buildResult. rewrite Hf, processFormats_buckets.
  cbn [best_video]. unfold sortVideos.
  apply head_sort_map. intros a b. cbn [videoEntry v_rate].
  apply goes_before_rounded.
Qed.

(** C3 (amended).  Every reported stream whose [audio_ext] is not
    "none" becomes an audio entry; one whose [audio_ext] is "none" and
    whose [video_ext] is not becomes a video entry; a stream for which
    both are "none" is in neither set.  The decision reads these two
    fields and not [ext].  The arrays returned are the buckets sorted
    by displayed rate, and best-audio (best-video) is the first-seen
    entry among those whose audio (video) bitrate, rounded to an integer
    as the entry displays it, is the highest; it is absent exactly when
    the bucket is empty. *)
Theorem formats_bucketed_and_ranked (ident : Identity) (p : option string)
        (videoInfo : VideoInfo) (l : list string) (fs : list Format) :
  formats videoInfo = Some fs ->
  let r := buildResult ident p videoInfo l in
  processFormats (Some fs)
  = (map audioEntry (List.filter is_audio fs),
     map videoEntry (List.filter is_video fs))
  /\ (forall e f, is_audio (with_ext e f) = is_audio f
                  /\ is_video (with_ext e f) = is_video f)
  /\ audios r = sortAudios (map audioEntry (List.filter is_audio fs))
  /\ videos r = sortVideos (map videoEntry (List.filter is_video fs))
  /\ (forall b, best_audio r = Some b ->
        exists pre f post,
          List.filter is_audio fs = pre ++ f :: post
          /\ b = audioEntry f
          /\ Forall (fun g => (audio_rate g < audio_rate f)%Z) pre
          /\ Forall (fun g => (audio_rate g <= audio_rate f)%Z) post)
  /\ (best_audio r = None <-> List.filter is_audio fs = [])
  /\ (forall b, best_video r = Some b ->
        exists pre f post,
          List.filter is_video fs = pre ++ f :: post
          /\ b = videoEntry f
          /\ Forall (fun g => (video_rate g < video_rate f)%Z) pre
          /\ Forall (fun g => (video_rate g <= video_rate f)%Z) post)
  /\ (best_video r = None <-> List.filter is_video fs = []).
Proof.
  intros Hf r.
  split; [apply processFormats_buckets|].
  split; [intros e f; split; reflexivity|].
  split; [subst r; unfold buildResult; now rewrite Hf, processFormats_buckets|].
  split; [subst r; unfold buildResult; now rewrite Hf, processFormats_buckets|].
  subst r.
  rewrite (best_audio_first_max _ _ _ _ _ Hf), (best_video_first_max _ _ _ _ _ Hf).
  repeat split.
  - intros b Hb.
    destruct (first_max audio_rate (List.filter is_audio fs)) as [f|] eqn:E;
      [|discriminate].
    inversion Hb; subst.
    destruct (first_max_spec _ _ _ E) as (pre & post & Hl & Hpre & Hpost).
    exists pre, f, post. auto.
  - intros Hn. apply (first_max_none audio_rate).
    now destruct (first_max audio_rate _).
  - intros Hn. now rewrite Hn.
  - intros b Hb.
    destruct (first_max video_rate (List.filter is_video fs)) as [f|] eqn:E;
      [|discriminate].
    inversion Hb; subst.
    destruct (first_max_spec _ _ _ E) as (pre & post & Hl & Hpre & Hpost).
    exists pre, f, post. auto.
  - intros Hn. apply (first_max_none video_rate).
    now destruct (first_max video_rate _).
  - intros Hn. now rewrite Hn.
Qed.

(** The formats of the scenario: a storyboard, two audio streams of
    127.6 and 128.4 kbps, and one video stream. *)
Lemma formats_bucketed_and_ranked_witness :
  processFormats (Some [Scenario.storyboard; Scenario.audio_low;
                        Scenario.audio_high; Scenario.video_720])
  = ([audioEntry Scenario.audio_low; audioEntry Scenario.audio_high],
     [videoEntry Scenario.video_720])
  /\ (best_video
        (buildResult (mkIdentity bilibili "BV1GJ411x7h7" None) (Some "1")
                     Scenario.bili_info [])
      = None
      <-> List.filter is_video [Scenario.storyboard; Scenario.audio_low;
                                Scenario.audio_high; Scenario.video_720] = []).
Proof.
  pose proof (formats_bucketed_and_ranked
                (mkIdentity bilibili "BV1GJ411x7h7" None) (Some "1")
                Scenario.bili_info []
                [Scenario.storyboard; Scenario.audio_low;
                 Scenario.audio_high; Scenario.video_720] eq_refl)
    as (Hb & _ & _ & _ & _ & _ & _ & Hv).
  split; [exact Hb | exact Hv].
Defined.

(** C3 as stated fails.  A stream without audio is not always a video
    entry: the storyboard is in neither set.  And the best audio entry
    is not always the one with the highest reported bitrate: 127.6 and
    128.4 are both displayed as 128, and the first one wins. *)
Lemma storyboard_dropped_and_rounded_tie :
  not_none (audio_ext Scenario.storyboard) = false
  /\ videos (buildResult (mkIdentity bilibili "BV1GJ411x7h7" None) (Some "1")
                         Scenario.bili_info [])
     = [videoEntry Scenario.video_720]
  /\ processFormats (Some [Scenario.storyboard]) = ([], [])
  /\ best_audio (buildResult (mkIdentity bilibili "BV1GJ411x7h7" None) (Some "1")
                             Scenario.bili_info [])
     = Some (audioEntry Scenario.audio_low)
  /\ abr Scenario.audio_low = Some (638 # 5)%Q
  /\ abr Scenario.audio_high = Some (642 # 5)%Q
  /\ (638 # 5 < 642 # 5)%Q.
Proof. repeat split; vm_compute; reflexivity. Qed.

End FormatFacts.

(** ** Validation in the downloaders *)

Module ValidationFacts.
Import JsString JsStringFacts Regex Sys SysTerms SysFacts ValidationTerms.
Local Open Scope list_scope.



Section Validation.
Context `{Host} `{SubtitleDownloader.Codec}.





End Validation.



End ValidationFacts.

(** ** The video downloader and the status check *)

Module VideoDownloaderFacts.
Import JsString JsStringFacts Regex Sys SysTerms SysFacts VideoDownloader.
Import ValidationTerms ValidationFacts VideoDownloaderTerms.
Local Open Scope list_scope.

Section Status.
Context `{Host}.









End Status.



End VideoDownloaderFacts.

(** ** The subtitle downloader *)

Module SubtitleDownloaderFacts.
Import JsString JsStringFacts Regex Sys SysTerms SysFacts SubtitleDownloader SubtitleDownloaderTerms.
Local Open Scope list_scope.

Lemma append_inj_l (s a b : string) : s +:+ a = s +:+ b -> a = b.
Proof. induction s as [|x s IH]; simpl; intros E; [assumption|]. inversion E. auto. Qed.

Lemma mkdirSync_log (path : string) (w : World) :
  log (mkdirSync path w).2 = log w ++ [Mkdir path].
Proof. unfold mkdirSync. now destruct (existsb _ _). Qed.

Section Conversion.
Context `{Host} `{Codec}.

Lemma same_file_iff (o : Options) (c : Checked) :
  String.eqb (subtitleFile o c) (convertedFile o c) = true
  <-> c_ext c = "." +:+ nativeExt o c.
Proof.
  rewrite String.eqb_eq. unfold subtitleFile, convertedFile. split.
  - intros E. apply append_inj_l in E. apply append_inj_l in E.
    apply append_inj_l in E. now symmetry.
  - intros ->. reflexivity.
Qed.

Lemma deliver_log (id locale ext info converted : string) (w : World) :
  log (deliver id locale ext info converted w).2
  = log w ++ [ReadFile info; ReadFile converted].
Proof.
  unfold deliver, bind, try_catch, readFileSync, ret, emit. cbn [fs log].
  destruct (files (fs w) !! info) as [content|]; cbn [fs log].
  - destruct (JSON_title content) as [[t|]|e]; cbn [fs log];
      destruct (files (fs w) !! converted); cbn [log snd];
      now rewrite <- app_assoc.
  - destruct (files (fs w) !! converted); cbn [log snd];
      now rewrite <- app_assoc.
Qed.

(** [downloadSubtitle] after a successful validation, creation of the
    directory and extraction. *)
Lemma downloadSubtitle_fetched (o : Options) (w : World) (c : Checked) (out : string) :
  validate o w = (Ok c, w) ->
  (mkdirSync (jobDir o c) w).1 = Ok tt ->
  (fetch o c w).1 = Ok out ->
  downloadSubtitle o w
  = let w2 := {| fs := (fetch o c w).2; log := log (fetch_world o c w) |} in
    let failure := fun '(r, w') =>
      match r with
      | Ok a => (Ok a, w')
      | Throw e => (Ok (Failure (if truthy e then e
                                 else "Failed to download subtitle")), w')
      end in
    if String.eqb (subtitleFile o c) (convertedFile o c) then
      failure (deliver (c_id c) (c_locale c) (c_ext c) (infoFile o c)
                       (convertedFile o c) w2)
    else
      let w3 := {| fs := (convert o c w).2; log := log (convert_world o c w) |} in
      match (convert o c w).1 with
      | Ok _ =>
          failure (deliver (c_id c) (c_locale c) (c_ext c) (infoFile o c)
                           (convertedFile o c) w3)
      | Throw _ =>
          failure
            ((let! originalContent := readFileSync (subtitleFile o c) in
              ret (Success (c_id c)
                           (c_id c +:+ "." +:+ c_locale c +:+ nativeExt o c)
                           (base64 originalContent))) w3)
      end.
Proof.
  intros Hv Hmk Hfetch.
  unfold downloadSubtitle, try_catch, bind. rewrite Hv.
  destruct c as [id locale ext type]. cbn [c_id c_locale c_ext c_type] in *.
  unfold convert, convert_world, fetch, fetch_world, fetchCommand in *.
  unfold subtitleFile, convertedFile, infoFile, stem, nativeExt, jobDir, site in *.
  cbn [c_id c_locale c_ext c_type] in *.
  destruct (mkdirSync _ w) as [[[]|e] wm]; cbn [fst snd] in *; [|discriminate].
  unfold existsSync, execSync, emit in *. cbn [fst snd fs log] in *.
  destruct (run (command _ _ _ _ _) _) as [[o1|e1] f1];
    cbn [fst snd fs log] in *; [|discriminate].
  destruct (String.eqb _ _); cbn [negb]; [reflexivity|].
  destruct (run (convertCommand _ _) _) as [[o2|e2] f2]; cbn [fst snd]; reflexivity.
Qed.

Lemma fetch_world_log (o : Options) (c : Checked) (w : World) :
  log (fetch_world o c w)
  = log w ++ [Mkdir (jobDir o c); Exists cookie; Spawn (fetchCommand o c w)].
Proof.
  unfold fetch_world, emit. cbn [log]. rewrite mkdirSync_log.
  now repeat rewrite <- app_assoc.
Qed.

Lemma readFileSync_log (path : string) (w : World) :
  log (readFileSync path w).2 = log w ++ [ReadFile path].
Proof. unfold readFileSync. now destruct (files (fs w) !! path). Qed.

(** C6.  Once the request is validated, the job directory created and
    the track fetched: when the requested extension is the native one
    the only subprocess of the call is the extraction tool; when it is
    another one the transcoding tool is invoked next, and is the last
    subprocess of the call.  If that invocation fails and the native
    file can be read, the call succeeds with the identifier as title,
    the content of the native file, and the file name
    [id.locale] followed by the native extension without its dot. *)
Theorem conversion_only_when_containers_differ (o : Options) (w : World)
        (c : Checked) (out : string) :
  validate o w = (Ok c, w) ->
  (mkdirSync (jobDir o c) w).1 = Ok tt ->
  (fetch o c w).1 = Ok out ->
  (c_ext c = "." +:+ nativeExt o c ->
   spawned (new_events (downloadSubtitle o) w) = [fetchCommand o c w])
  /\ (c_ext c <> "." +:+ nativeExt o c ->
      spawned (new_events (downloadSubtitle o) w)
      = [fetchCommand o c w; convertCommand (subtitleFile o c) (convertedFile o c)]
      /\ forall e content,
          (convert o c w).1 = Throw e ->
          files (convert o c w).2 !! subtitleFile o c = Some content ->
          (downloadSubtitle o w).1
          = Ok (Success (c_id c)
                        (c_id c +:+ "." +:+ c_locale c +:+ nativeExt o c)
                        (base64 content))).
Proof.
  intros Hv Hmk Hfetch.
  pose proof (downloadSubtitle_fetched o w c out Hv Hmk Hfetch) as DS.
  cbv zeta in DS. split.
  - intros Hsame. apply same_file_iff in Hsame. rewrite Hsame in DS.
    assert (log (downloadSubtitle o w).2
            = log w ++ [Mkdir (jobDir o c); Exists cookie;
                        Spawn (fetchCommand o c w);
                        ReadFile (infoFile o c); ReadFile (convertedFile o c)])
      as L.
    { rewrite DS.
      match goal with
      | |- context [deliver ?a ?b ?d ?e ?f ?w0] =>
          pose proof (deliver_log a b d e f w0) as DL;
          destruct (deliver a b d e f w0) as [[r|e0] w'']
      end; cbn [fst snd log] in *; rewrite DL, fetch_world_log;
        rewrite <- app_assoc; reflexivity. }
    rewrite (new_events_appended _ _ _ L). reflexivity.
  - intros Hdiff.
    assert (String.eqb (subtitleFile o c) (convertedFile o c) = false) as Hne.
    { destruct (String.eqb _ _) eqn:E; [|reflexivity].
      apply same_file_iff in E. contradiction. }
    rewrite Hne in DS. split.
    + assert (exists reads,
                 log (downloadSubtitle o w).2
                 = log w ++ [Mkdir (jobDir o c); Exists cookie;
                             Spawn (fetchCommand o c w);
                             Spawn (convertCommand (subtitleFile o c)
                                                   (convertedFile o c))]
                         ++ reads
                 /\ spawned reads = []) as (reads & L & Hreads).
      { rewrite DS.
        destruct (convert o c w).1 as [o2|e2].
        - exists [ReadFile (infoFile o c); ReadFile (convertedFile o c)].
          split; [|reflexivity].
          match goal with
          | |- context [deliver ?a ?b ?d ?e ?f ?w0] =>
              pose proof (deliver_log a b d e f w0) as DL;
              destruct (deliver a b d e f w0) as [[r|e0] w'']
          end; cbn [fst snd log] in *; rewrite DL;
            unfold convert_world, emit; cbn [log]; rewrite fetch_world_log;
            repeat rewrite <- app_assoc; reflexivity.
        - exists [ReadFile (subtitleFile o c)].
          split; [|reflexivity].
          unfold bind, ret.
          match goal with
          | |- context [readFileSync ?a ?w0] =>
              pose proof (readFileSync_log a w0) as RL;
              destruct (readFileSync a w0) as [[r|e0] w'']
          end; cbn [fst snd log] in *; rewrite RL;
            unfold convert_world, emit; cbn [log]; rewrite fetch_world_log;
            repeat rewrite <- app_assoc; reflexivity. }
      rewrite (new_events_appended _ _ _ L).
      cbn [app spawned]. now rewrite Hreads.
    + intros e content Hconv Hfile. rewrite DS, Hconv.
      unfold bind, ret, readFileSync. cbn [fs]. rewrite Hfile. reflexivity.
Qed.

End Conversion.

(** The request for [.srt] of the scenario, with the transcoding tool
    failing: the answer is a success whose file name is
    [dQw4w9WgXcQ.envtt]; the request for [.vtt] spawns the extraction
    tool only. *)
Lemma conversion_only_when_containers_differ_witness :
  (SubtitleDownloader.downloadSubtitle
     (H := Scenario.no_transcoder_host) (H0 := Scenario.sample_codec)
     Scenario.srt_request Scenario.fresh).1
  = Ok (Success "dQw4w9WgXcQ" "dQw4w9WgXcQ.envtt"
                ("base64:" +:+ Scenario.vtt_content))
  /\ spawned (new_events (SubtitleDownloader.downloadSubtitle
                (H := Scenario.no_transcoder_host) (H0 := Scenario.sample_codec)
                Scenario.vtt_request) Scenario.fresh)
     = ["yt-dlp --sub-lang 'en' -o '/app/tmp/dQw4w9WgXcQ/%(id)s.%(ext)s' --write-sub --skip-download --write-info-json https://www.youtube.com/watch?v=dQw4w9WgXcQ "].
Proof.
  split.
  - destruct (conversion_only_when_containers_differ
                (H := Scenario.no_transcoder_host) (H0 := Scenario.sample_codec)
                Scenario.srt_request Scenario.fresh
                (mkChecked "dQw4w9WgXcQ" "en" ".srt" "native")
                "[info] Writing video subtitles" eq_refl eq_refl eq_refl)
      as [_ Hdiff].
    destruct Hdiff as [_ Hfallback]; [vm_compute; discriminate|].
    apply (Hfallback "Command failed: ffmpeg" Scenario.vtt_content);
      vm_compute; reflexivity.
  - destruct (conversion_only_when_containers_differ
                (H := Scenario.no_transcoder_host) (H0 := Scenario.sample_codec)
                Scenario.vtt_request Scenario.fresh
                (mkChecked "dQw4w9WgXcQ" "en" ".vtt" "native")
                "[info] Writing video subtitles" eq_refl eq_refl eq_refl)
      as [Hsame _].
    apply Hsame. vm_compute. reflexivity.
Defined.

(** The file name returned when the conversion fails is not that of the
    native file: the dot before the extension is missing. *)
Lemma fallback_filename_lacks_the_dot :
  (SubtitleDownloader.downloadSubtitle
     (H := Scenario.no_transcoder_host) (H0 := Scenario.sample_codec)
     Scenario.srt_request Scenario.fresh).1
  = Ok (Success "dQw4w9WgXcQ" "dQw4w9WgXcQ.envtt"
                ("base64:" +:+ Scenario.vtt_content))
  /\ "dQw4w9WgXcQ.envtt" <> "dQw4w9WgXcQ.en.vtt"
  /\ files (SubtitleDownloader.downloadSubtitle
              (H := Scenario.no_transcoder_host) (H0 := Scenario.sample_codec)
              Scenario.srt_request Scenario.fresh).2.(fs)
     !! "/app/tmp/dQw4w9WgXcQ/dQw4w9WgXcQ.en.vtt"
     = Some Scenario.vtt_content.
Proof.
  split; [|split].
  - vm_compute. reflexivity.
  - discriminate.
  - vm_compute. reflexivity.
Qed.

End SubtitleDownloaderFacts.

(** ** The retention manager *)

Module CleanupFacts.
Import JsString Cleanup CleanupTerms.
Local Open Scope list_scope.
Local Open Scope Z_scope.

Lemma readdir_elem (m : gmap string entry) (k : string) :
  k ∈ readdir m <-> is_Some (m !! k).
Proof.
  unfold readdir. rewrite list_elem_of_fmap. split.
  - intros ([k' e] & -> & Hin). apply elem_of_map_to_list in Hin. eauto.
  - intros [e He]. exists (k, e). split; [reflexivity|].
    now apply elem_of_map_to_list.
Qed.

Lemma sweepItem_root (now : Z) (st : State) (n t : Z) (item : string)
      (m : gmap string entry) :
  root st = Some m ->
  root (sweepItem now (st, n, t) item).1.1 = Some (sweep_step now m item).
Proof.
  intros Hr. unfold sweepItem, sweep_step, removable, expired. rewrite Hr.
  destruct (m !! item) as [e|]; cbn; [|assumption].
  destruct (unreadable e); cbn; [now rewrite andb_false_r|].
  destruct (maxAge <? now - mtime e); cbn; [|assumption].
  destruct (locked e); cbn; [assumption | reflexivity].
Qed.

Lemma sweep_root (now : Z) (items : list string) (st : State) (n t : Z)
      (m : gmap string entry) :
  root st = Some m ->
  root (fold_left (sweepItem now) items (st, n, t)).1.1
  = Some (fold_left (sweep_step now) items m).
Proof.
  revert st n t m. induction items as [|item items IH]; intros st n t m Hr.
  - exact Hr.
  - cbn [fold_left].
    pose proof (sweepItem_root now st n t item m Hr) as Hs.
    destruct (sweepItem now (st, n, t) item) as [[st' n'] t'].
    now apply IH.
Qed.

Lemma sweep_lookup (now : Z) (items : list string) (m : gmap string entry)
      (k : string) :
  fold_left (sweep_step now) items m !! k
  = if bool_decide (k ∈ items)
    then match m !! k with
         | Some e => if removable now e then None else Some e
         | None => None
         end
    else m !! k.
Proof.
  revert m. induction items as [|item items IH]; intros m.
  - rewrite bool_decide_false by apply not_elem_of_nil. reflexivity.
  - cbn [fold_left]. rewrite IH.
    destruct (decide (k = item)) as [->|Hne].
    + rewrite (bool_decide_true (item ∈ item :: items)) by apply list_elem_of_here.
      unfold sweep_step.
      destruct (m !! item) as [e|] eqn:He.
      * destruct (removable now e) eqn:Hrem.
        -- rewrite lookup_delete_eq. now destruct (bool_decide _).
        -- rewrite He, Hrem. now destruct (bool_decide _).
      * rewrite He. now destruct (bool_decide _).
    + assert (sweep_step now m item !! k = m !! k) as Hk.
      { unfold sweep_step. destruct (m !! item) as [e|]; [|reflexivity].
        destruct (removable now e); [|reflexivity].
        now apply lookup_delete_ne. }
      rewrite Hk.
      destruct (bool_decide (k ∈ items)) eqn:Hin.
      * apply bool_decide_eq_true in Hin.
        rewrite bool_decide_true by (now apply list_elem_of_further).
        reflexivity.
      * apply bool_decide_eq_false in Hin.
        rewrite bool_decide_false; [reflexivity|].
        intros Hin'. apply elem_of_cons in Hin' as [?|?]; contradiction.
Qed.

(** The children after a sweep over the whole directory. *)
Lemma sweep_all_lookup (now : Z) (m : gmap string entry) (k : string) :
  fold_left (sweep_step now) (readdir m) m !! k
  = match m !! k with
    | Some e => if removable now e then None else Some e
    | None => None
    end.
Proof.
  rewrite sweep_lookup. destruct (bool_decide _) eqn:Hin; [reflexivity|].
  apply bool_decide_eq_false in Hin. rewrite readdir_elem in Hin.
  destruct (m !! k); [|reflexivity]. exfalso. apply Hin. eauto.
Qed.

(** *** The disk-pressure check *)

Lemma checkLines_under (lines : list string) (st : State) :
  existsb reports_over lines = false -> checkLines lines st = st.
Proof.
  induction lines as [|line lines IH]; [reflexivity|].
  cbn [existsb checkLines]. unfold reports_over at 1.
  intros Hex. apply orb_false_iff in Hex as [Hl Hrest].
  destruct (usage line) as [u|]; [rewrite Hl|]; now apply IH.
Qed.

Lemma checkLines_over (lines : list string) (st : State) :
  existsb reports_over lines = true -> checkLines lines st = cleanAllFiles st.
Proof.
  induction lines as [|line lines IH]; [discriminate|].
  cbn [existsb checkLines]. unfold reports_over at 1.
  destruct (usage line) as [u|]; [destruct (maxDiskUsage <? u)|];
    cbn [orb]; auto.
Qed.

Lemma checkDiskSpace_under (df : Sys.outcome string) (st : State) :
  overCeiling df = false -> checkDiskSpace df st = emit Df st.
Proof.
  unfold overCeiling, checkDiskSpace. destruct df as [out|e]; [|reflexivity].
  apply checkLines_under.
Qed.

Lemma checkDiskSpace_over (df : Sys.outcome string) (st : State) :
  overCeiling df = true -> checkDiskSpace df st = cleanAllFiles (emit Df st).
Proof.
  unfold overCeiling, checkDiskSpace. destruct df as [out|e]; [|discriminate].
  apply checkLines_over.
Qed.

(** *** The purge *)

Lemma remove_children_unlocked (items : list string) (m : gmap string entry) :
  (forall k e, m !! k = Some e -> locked e = false) ->
  (remove_children items m).2 = true.
Proof.
  revert m. induction items as [|item items IH]; intros m Hm; [reflexivity|].
  cbn [remove_children]. destruct (m !! item) as [e|] eqn:He.
  - rewrite (Hm item e He). apply IH. intros k e' Hk.
    apply lookup_delete_Some in Hk as [_ Hk]. eauto.
  - now apply IH.
Qed.

Lemma remove_children_locked_stays (items : list string) (m : gmap string entry)
      (k : string) (e : entry) :
  m !! k = Some e -> locked e = true ->
  (remove_children items m).1 !! k = Some e.
Proof.
  revert m. induction items as [|item items IH]; intros m Hk Hl; [assumption|].
  cbn [remove_children]. destruct (m !! item) as [e'|] eqn:He.
  - destruct (locked e') eqn:Hl'; [assumption|].
    apply IH; [|assumption]. rewrite lookup_delete_ne; [assumption|].
    intros ->. congruence.
  - now apply IH.
Qed.

Lemma remove_children_locked_fails (items : list string) (m : gmap string entry)
      (k : string) (e : entry) :
  k ∈ items -> m !! k = Some e -> locked e = true ->
  (remove_children items m).2 = false.
Proof.
  revert m. induction items as [|item items IH]; intros m Hin Hk Hl.
  - now apply not_elem_of_nil in Hin.
  - cbn [remove_children]. destruct (m !! item) as [e'|] eqn:He.
    + destruct (locked e') eqn:Hl'; [reflexivity|].
      apply elem_of_cons in Hin as [->|Hin]; [congruence|].
      apply IH; [assumption| |assumption].
      rewrite lookup_delete_ne; [assumption|]. intros ->. congruence.
    + apply elem_of_cons in Hin as [->|Hin]; [congruence|]. now apply IH.
Qed.

(** *** The queued callbacks *)

Lemma runJobs_root_some (jobs : list job) (st : State) (m : gmap string entry) :
  root st = Some m -> root (fold_left runJob jobs st) = Some m.
Proof.
  revert st. induction jobs as [|[] jobs IH]; intros st Hr; [assumption|].
  cbn [fold_left]. apply IH. unfold runJob. now rewrite Hr.
Qed.

Lemma runPending_root_some (st : State) (m : gmap string entry) :
  root st = Some m -> root (runPending st) = Some m.
Proof. intros Hr. unfold runPending. now apply runJobs_root_some. Qed.

Lemma runJobs_log (jobs : list job) (st : State) :
  exists l, log (fold_left runJob jobs st) = (log st ++ l)%list.
Proof.
  revert st. induction jobs as [|[] jobs IH]; intros st.
  - exists []. now rewrite app_nil_r.
  - cbn [fold_left]. destruct (IH (runJob st RecreateRoot)) as [l Hl].
    exists (MakeRoot :: l). rewrite Hl. unfold runJob.
    destruct (root st); cbn [log emit set_root]; now rewrite <- app_assoc.
Qed.

(** *** The sweep *)

Lemma sweep_log (now : Z) (items : list string) (acc : State * Z * Z) :
  exists l, log (fold_left (sweepItem now) items acc).1.1 = (log acc.1.1 ++ l)%list.
Proof.
  revert acc. induction items as [|item items IH]; intros [[st n] t].
  - exists []. cbn. now rewrite app_nil_r.
  - cbn [fold_left]. destruct (IH (sweepItem now (st, n, t) item)) as [l Hl].
    assert (exists l0, log (sweepItem now (st, n, t) item).1.1 = (log st ++ l0)%list)
      as [l0 Hl0].
    { unfold sweepItem.
      destruct (root st) as [m|]; [|eexists; reflexivity].
      destruct (m !! item) as [e|]; [|eexists; reflexivity].
      destruct (unreadable e); [eexists; reflexivity|].
      destruct (maxAge <? now - mtime e); [|eexists; reflexivity].
      destruct (locked e); cbn [fst snd log emit set_root];
        rewrite <- app_assoc; eexists; reflexivity. }
    exists (l0 ++ l)%list. rewrite Hl, Hl0. cbn [fst]. now rewrite app_assoc.
Qed.

(** C9.  In a cycle whose disk utilisation is not above the ceiling,
    the root keeps every direct child that is not older than the
    maximal age, unchanged, and loses every older child on which
    neither [statSync] nor [rmSync] fails; an older child on which one
    of them fails stays as it is, and this changes nothing for the other
    children; no child appears. *)
Theorem age_sweep_removes_exactly_expired (df : Sys.outcome string) (now : Z)
        (st : State) (m : gmap string entry) :
  overCeiling df = false ->
  root st = Some m ->
  exists m',
    root (cleanupCycle df now st) = Some m'
    /\ (forall item e,
           m !! item = Some e -> expired now e = false -> m' !! item = Some e)
    /\ (forall item e,
           m !! item = Some e -> expired now e = true ->
           unreadable e = false -> locked e = false ->
           m' !! item = None)
    /\ (forall item e,
           m !! item = Some e -> expired now e = true ->
           unreadable e = true \/ locked e = true ->
           m' !! item = Some e)
    /\ (forall item, m !! item = None -> m' !! item = None).
Proof.
  intros Hunder Hr.
  exists (fold_left (sweep_step now) (readdir m) m).
  split.
  - unfold cleanupCycle. apply runPending_root_some.
    unfold cleanupFiles. rewrite (checkDiskSpace_under df st Hunder).
    unfold cleanOldFiles. cbn [root emit]. rewrite Hr.
    apply sweep_root. exact Hr.
  - repeat split.
    + intros item e He Hx. rewrite sweep_all_lookup, He.
      unfold removable. now rewrite Hx.
    + intros item e He Hx Hu Hl. rewrite sweep_all_lookup, He.
      unfold removable. now rewrite Hx, Hu, Hl.
    + intros item e He Hx Herr. rewrite sweep_all_lookup, He.
      unfold removable.
      destruct Herr as [Hu|Hl]; [rewrite Hu | rewrite Hl];
        now rewrite ?andb_false_r.
    + intros item He. now rewrite sweep_all_lookup, He.
Qed.

(** C8 (amended).  In a cycle whose reported utilisation exceeds the
    ceiling: when the root exists and none of its children refuses to
    be removed, the whole tree is removed, the age-based sweep is
    entered and returns at once because the root is absent (no child is
    read or removed), and the queued callback re-creates the root,
    empty.  When the root is absent nothing is removed and nothing is
    created.  When a child refuses to be removed the purge fails, that
    child stays, and the age-based sweep runs in the same cycle. *)
Theorem purge_on_disk_pressure (df : Sys.outcome string) (now : Z) (st : State) :
  overCeiling df = true ->
  pending st = [] ->
  (forall m,
      root st = Some m ->
      (forall item e, m !! item = Some e -> locked e = false) ->
      cleanupCycle df now st
      = {| root := Some ∅;
           pending := [];
           log := (log st ++ [Df; ExistsRoot; RemoveRoot; ExistsRoot; MakeRoot])%list |})
  /\ (root st = None ->
      cleanupCycle df now st
      = {| root := None;
           pending := [];
           log := (log st ++ [Df; ExistsRoot; ExistsRoot])%list |})
  /\ (forall m item e,
         root st = Some m ->
         m !! item = Some e ->
         locked e = true ->
         exists m',
           root (cleanupCycle df now st) = Some m'
           /\ m' !! item = Some e
           /\ In ReadDir (log (cleanupCycle df now st))).
Proof.
  intros Hover Hp. split; [|split].
  - intros m Hr Hfree.
    unfold cleanupCycle, cleanupFiles.
    rewrite (checkDiskSpace_over df st Hover).
    unfold cleanAllFiles. cbn [root emit]. rewrite Hr.
    pose proof (remove_children_unlocked (readdir m) m Hfree) as Hrm.
    destruct (remove_children (readdir m) m) as [m' b]. cbn in Hrm. subst b.
    unfold cleanOldFiles, runPending. cbn [root pending log emit fst snd].
    rewrite Hp. cbn [app fold_left runJob root emit set_root log pending].
    unfold set_root, emit. cbn [root pending log].
    now repeat rewrite <- app_assoc.
  - intros Hr.
    unfold cleanupCycle, cleanupFiles.
    rewrite (checkDiskSpace_over df st Hover).
    unfold cleanAllFiles. cbn [root emit]. rewrite Hr.
    unfold cleanOldFiles, runPending. cbn [root pending log emit fst snd].
    unfold emit. cbn [root pending log fst snd].
    rewrite Hr, Hp. cbn [fold_left].
    now repeat rewrite <- app_assoc.
  - intros m item e Hr He Hl.
    unfold cleanupCycle, cleanupFiles.
    rewrite (checkDiskSpace_over df st Hover).
    unfold cleanAllFiles. cbn [root emit]. rewrite Hr.
    assert (item ∈ readdir m) as Hin by (apply readdir_elem; eauto).
    pose proof (remove_children_locked_fails _ m item e Hin He Hl) as Hfail.
    pose proof (remove_children_locked_stays (readdir m) m item e He Hl) as Hstay.
    destruct (remove_children (readdir m) m) as [m1 b]. cbn in Hfail, Hstay.
    subst b.
    unfold cleanOldFiles. cbn [root emit set_root].
    exists (fold_left (sweep_step now) (readdir m1) m1).
    split; [|split].
    + apply runPending_root_some. now apply sweep_root.
    + rewrite sweep_all_lookup, Hstay. unfold removable.
      now rewrite Hl, andb_false_r.
    + unfold runPending.
      match goal with
      | |- context [fold_left (sweepItem now) ?items ?acc] =>
          destruct (sweep_log now items acc) as [l Hlog];
          set (swept := fold_left (sweepItem now) items acc) in *
      end.
      match goal with
      | |- context [fold_left runJob ?jobs ?s0] =>
          destruct (runJobs_log jobs s0) as [l' Hlog']; rewrite Hlog'
      end.
      cbn [log fst snd emit set_root pending] in *. rewrite Hlog.
      apply in_or_app. left. apply in_or_app. left.
      apply in_or_app. right. now left.
Qed.

(** A root with a stale job, a recent job and a stale file that cannot
    be removed, at forty per cent: the stale job goes, the other two
    stay. *)
Lemma age_sweep_removes_exactly_expired_witness :
  exists m',
    root (cleanupCycle (Scenario.df_at "40") Scenario.noon
                       (Scenario.storage Scenario.three_jobs)) = Some m'
    /\ m' !! "dQw4w9WgXcQ" = None
    /\ m' !! "9bZkp7q19f0" = Some Scenario.recent
    /\ m' !! "core.1234" = Some Scenario.stuck.
Proof.
  destruct (age_sweep_removes_exactly_expired
              (Scenario.df_at "40") Scenario.noon
              (Scenario.storage Scenario.three_jobs) Scenario.three_jobs
              eq_refl eq_refl)
    as (m' & Hroot & Hyoung & Hold & Herr & _).
  exists m'. split; [exact Hroot|]. split; [|split].
  - apply (Hold "dQw4w9WgXcQ" Scenario.stale); vm_compute; reflexivity.
  - apply (Hyoung "9bZkp7q19f0" Scenario.recent); vm_compute; reflexivity.
  - apply (Herr "core.1234" Scenario.stuck);
      [vm_compute; reflexivity | vm_compute; reflexivity | right; reflexivity].
Defined.

(** At ninety-five per cent, a root whose children can all be removed
    ends the cycle empty, with no child read. *)
Lemma purge_on_disk_pressure_witness :
  cleanupCycle (Scenario.df_at "95") Scenario.noon
               (Scenario.storage Scenario.two_jobs)
  = {| root := Some ∅;
       pending := [];
       log := [Df; ExistsRoot; RemoveRoot; ExistsRoot; MakeRoot] |}.
Proof.
  apply (proj1 (purge_on_disk_pressure
                  (Scenario.df_at "95") Scenario.noon
                  (Scenario.storage Scenario.two_jobs) eq_refl eq_refl)
               Scenario.two_jobs eq_refl).
  intros item e He.
  unfold Scenario.two_jobs in He.
  apply lookup_insert_Some in He as [[_ <-]|[_ He]]; [reflexivity|].
  apply lookup_insert_Some in He as [[_ <-]|[_ He]]; [reflexivity|].
  now rewrite lookup_empty in He.
Defined.

(** C8 as stated fails: at ninety-five per cent, with a job directory
    that cannot be removed, the tree is not purged and the age-based
    sweep is not skipped: it reads the directory and removes the stale
    job. *)
Lemma sweep_runs_after_failed_purge :
  overCeiling (Scenario.df_at "95") = true
  /\ log (cleanupCycle (Scenario.df_at "95") Scenario.noon
                       (Scenario.storage Scenario.with_busy_job))
     = [Df; ExistsRoot; RemoveRoot; ExistsRoot; ReadDir;
        Stat "jNQXAC9IVRw"; Stat "dQw4w9WgXcQ"; Remove "dQw4w9WgXcQ"]
  /\ root (cleanupCycle (Scenario.df_at "95") Scenario.noon
                        (Scenario.storage Scenario.with_busy_job))
     = Some {[ "jNQXAC9IVRw" := Scenario.busy ]}.
Proof.
  split; [|split].
  - vm_compute. reflexivity.
  - vm_compute. reflexivity.
  - vm_compute. reflexivity.
Qed.

End CleanupFacts.

(** ** Patterns: what a match consumed and captured *)

Module RegexFacts.
Import JsString JsStringFacts Regex RegexTerms.
Local Open Scope list_scope.

Lemma group_cons_ne (n m : nat) (v : list ascii) (c : captures) :
  m <> n -> group n ((m, v) :: c) = group n c.
Proof. intros Hne. cbn. destruct (Nat.eqb_spec m n); [contradiction | reflexivity]. Qed.

Lemma group_cons_eq (n : nat) (v : list ascii) (c : captures) :
  group n ((n, v) :: c) = Some (str v).
Proof. cbn. now rewrite Nat.eqb_refl. Qed.

Lemma rmatch_star (g : bool) (r1 : regex) (i : nat) (s : list ascii)
      (c : captures) (k : cont) :
  rmatch (Star g r1) i s c k = star_loop g r1 k (S (length s)) i s c.
Proof. reflexivity. Qed.

Lemma captured_refl (r : regex) (n : nat) (c : captures) : captured r n c c.
Proof. now left. Qed.

Lemma captured_trans (r1 r2 r : regex) (n : nat) (c c1 c2 : captures) :
  (forall b, In b (groups n r1) -> In b (groups n r)) ->
  (forall b, In b (groups n r2) -> In b (groups n r)) ->
  captured r1 n c c1 -> captured r2 n c1 c2 -> captured r n c c2.
Proof.
  intros S1 S2 H1 [H2|(b & v & Hb & Hv & H2)].
  - destruct H1 as [H1|(b & v & Hb & Hv & H1)].
    + left. congruence.
    + right. exists b, v. repeat split; auto. congruence.
  - right. exists b, v. auto.
Qed.

(** A successful match consumed a word of the language of the pattern
    and then called its continuation; a capture is as it was or holds a
    word of a group of that number. *)
Lemma rmatch_sound (r : regex) :
  forall i s c k c',
    rmatch r i s c k = Some c' ->
    exists l s1 c1,
      s = l ++ s1 /\ lang r l /\ k (i + length l) s1 c1 = Some c'
      /\ forall n, captured r n c c1.
Proof.
  induction r as [|p|r1 IH1 r2 IH2|r1 IH1 r2 IH2|g r1 IH1|m r1 IH1| |];
    intros i s c k c' Hm; try rewrite rmatch_star in Hm; cbn [rmatch] in Hm.
  - exists [], s, c. rewrite Nat.add_0_r. repeat split; auto using captured_refl.
  - destruct s as [|a s']; [discriminate|].
    destruct (p a) eqn:Hp; [|discriminate].
    exists [a], s', c. cbn [length]. rewrite Nat.add_1_r.
    repeat split; auto using captured_refl. cbn. eauto.
  - apply IH1 in Hm as (l1 & s1 & c1 & -> & Hl1 & Hk & Hg1).
    apply IH2 in Hk as (l2 & s2 & c2 & -> & Hl2 & Hk & Hg2).
    exists (l1 ++ l2), s2, c2. rewrite length_app, Nat.add_assoc, <- app_assoc.
    repeat split; auto.
    + cbn. eauto.
    + intros n. apply (captured_trans r1 r2 _ n c c1 c2); auto;
        intros b Hb; cbn [groups]; apply in_or_app; auto.
  - destruct (rmatch r1 i s c k) as [x|] eqn:E1.
    + inversion Hm; subst x.
      apply IH1 in E1 as (l1 & s1 & c1 & -> & Hl1 & Hk & Hg1).
      exists l1, s1, c1. repeat split; auto.
      * now left.
      * intros n. apply (captured_trans r1 r1 _ n c c1 c1);
          auto using captured_refl;
          intros b Hb; cbn [groups]; apply in_or_app; auto.
    + apply IH2 in Hm as (l2 & s2 & c2 & -> & Hl2 & Hk & Hg2).
      exists l2, s2, c2. repeat split; auto.
      * now right.
      * intros n. apply (captured_trans r2 r2 _ n c c2 c2);
          auto using captured_refl;
          intros b Hb; cbn [groups]; apply in_or_app; auto.
  - revert Hm. generalize (S (length s)).
    intros fuel. revert i s c.
    induction fuel as [|fuel IHf]; intros i s c Hm.
    + cbn [star_loop] in Hm.
      exists [], s, c. rewrite Nat.add_0_r.
      split; [reflexivity|]. split; [constructor|].
      split; auto using captured_refl.
    + cbn [star_loop] in Hm. cbv zeta in Hm.
      set (more := rmatch r1 i s c _) in Hm.
      assert (more = Some c' ->
              exists l s1 c1,
                s = l ++ s1 /\ lang (Star g r1) l
                /\ k (i + length l) s1 c1 = Some c'
                /\ forall n, captured (Star g r1) n c c1) as Hmore.
      { unfold more. intros Hx.
        apply IH1 in Hx as (l1 & s1 & c1 & -> & Hl1 & Hk & Hg1).
        destruct (i <? i + length l1)%nat; [|discriminate].
        apply IHf in Hk as (l2 & s2 & c2 & -> & Hl2 & Hk & Hg2).
        exists (l1 ++ l2), s2, c2.
        rewrite length_app, Nat.add_assoc, <- app_assoc.
        repeat split; auto.
        - cbn. now constructor.
        - intros n.
          apply (captured_trans r1 (Star g r1) _ n c c1 c2); auto. }
      assert (k i s c = Some c' ->
              exists l s1 c1,
                s = l ++ s1 /\ lang (Star g r1) l
                /\ k (i + length l) s1 c1 = Some c'
                /\ forall n, captured (Star g r1) n c c1) as Hstop.
      { intros Hk. exists [], s, c. rewrite Nat.add_0_r.
        split; [reflexivity|]. split; [constructor|].
        split; auto using captured_refl. }
      clearbody more. destruct g.
      * destruct more as [x|]; [|now apply Hstop].
        inversion Hm; subst x. now apply Hmore.
      * destruct (k i s c) as [x|] eqn:E.
        -- inversion Hm; subst x. now apply Hstop.
        -- now apply Hmore.
  - apply IH1 in Hm as (l1 & s1 & c1 & -> & Hl1 & Hk & Hg1).
    exists l1, s1, ((m, firstn (i + length l1 - i) (l1 ++ s1)) :: c1).
    repeat split; auto.
    intros n. destruct (Nat.eqb_spec m n) as [->|Hne].
    + right. exists r1, l1. split; [cbn [groups]; rewrite Nat.eqb_refl; now left|].
      split; [exact Hl1|].
      rewrite group_cons_eq. do 2 f_equal.
      replace (i + length l1 - i) with (length l1 + 0) by lia.
      now rewrite take_app_add, take_0, app_nil_r.
    + destruct (Hg1 n) as [H|(b & v & Hb & Hv & H)].
      * left. now rewrite group_cons_ne.
      * right. exists b, v. rewrite group_cons_ne by exact Hne.
        repeat split; auto. cbn [groups]. apply in_or_app. now right.
  - destruct (i =? 0)%nat; [|discriminate].
    exists [], s, c. rewrite Nat.add_0_r. repeat split; auto using captured_refl.
  - destruct s; [|discriminate].
    exists [], [], c. rewrite Nat.add_0_r. repeat split; auto using captured_refl.
Qed.

(** The repetition loop finds a match of any concatenation of words of
    the repeated pattern, when its fuel exceeds the length of the input. *)
Lemma star_loop_complete (g : bool) (r1 : regex) (k : cont) :
  (forall l, lang r1 l -> forall i s1 c k0,
        (forall c1, is_Some (k0 (i + length l) s1 c1)) ->
        is_Some (rmatch r1 i (l ++ s1) c k0)) ->
  forall l, star_of (lang r1) l ->
  forall fuel i s1 c,
    length (l ++ s1) < fuel ->
    (forall c1, is_Some (k (i + length l) s1 c1)) ->
    is_Some (star_loop g r1 k fuel i (l ++ s1) c).
Proof.
  intros IH l Hl.
  induction Hl as [|l1 l2 Hl1 Hl2 IHl2]; intros fuel i s1 c Hf Hk.
  - destruct fuel as [|fuel]; [lia|]. cbn [star_loop app]. cbv zeta.
    specialize (Hk c). cbn [length] in Hk. rewrite Nat.add_0_r in Hk.
    destruct Hk as [x Hx]. rewrite Hx.
    destruct g; [|eauto].
    destruct (rmatch r1 i s1 c _); eauto.
  - destruct l1 as [|a l1].
    { cbn [app]. apply IHl2; auto. }
    destruct fuel as [|fuel]; [lia|]. cbn [star_loop]. cbv zeta.
    set (more := rmatch r1 i (((a :: l1) ++ l2) ++ s1) c _).
    assert (is_Some more) as [x Hx].
    { unfold more. rewrite <- app_assoc. apply IH; [exact Hl1|].
      intros c1.
      replace (i <? i + length (a :: l1))%nat with true
        by (symmetry; apply Nat.ltb_lt; cbn [length]; lia).
      apply IHl2.
      - rewrite <- app_assoc in Hf. rewrite length_app in Hf.
        cbn [length] in Hf. lia.
      - intros c2. rewrite <- Nat.add_assoc, <- length_app. apply Hk. }
    rewrite Hx. destruct g; [eauto|].
    destruct (k i _ c); eauto.
Qed.

(** A pattern without anchors matches every word of its language, at
    any offset and before any rest, when its continuation succeeds. *)
Lemma rmatch_complete (r : regex) :
  anchor_free r = true ->
  forall l, lang r l ->
  forall i s1 c k,
    (forall c1, is_Some (k (i + length l) s1 c1)) ->
    is_Some (rmatch r i (l ++ s1) c k).
Proof.
  induction r as [|p|r1 IH1 r2 IH2|r1 IH1 r2 IH2|g r1 IH1|m r1 IH1| |];
    intros Ha l Hl i s1 c k Hk; cbn [anchor_free] in Ha;
    try discriminate.
  - cbn in Hl. subst l. cbn. specialize (Hk c). cbn in Hk.
    now rewrite Nat.add_0_r in Hk.
  - cbn in Hl. destruct Hl as (a & -> & Hp). cbn. rewrite Hp.
    specialize (Hk c). cbn in Hk. now rewrite Nat.add_1_r in Hk.
  - apply andb_true_iff in Ha as [Ha1 Ha2].
    cbn in Hl. destruct Hl as (l1 & l2 & -> & Hl1 & Hl2).
    cbn [rmatch]. rewrite <- app_assoc. apply IH1; auto.
    intros c1. apply IH2; auto.
    intros c2. rewrite <- Nat.add_assoc, <- length_app. apply Hk.
  - apply andb_true_iff in Ha as [Ha1 Ha2].
    cbn [rmatch]. cbn in Hl. destruct Hl as [Hl|Hl].
    + destruct (IH1 Ha1 l Hl i s1 c k Hk) as [x ->]. eauto.
    + destruct (rmatch r1 i (l ++ s1) c k); [eauto|].
      apply IH2; auto.
  - rewrite rmatch_star. apply star_loop_complete; auto.
  - cbn [rmatch]. apply IH1; auto.
Qed.

(** Where a search succeeds, the pattern matches at some offset. *)
Lemma search_sound (r : regex) :
  forall s i c',
    search r i s = Some c' ->
    exists pre suf,
      s = pre ++ suf /\ rmatch r (i + length pre) suf [] final = Some c'.
Proof.
  induction s as [|a s IH]; intros i c' Hs; cbn [search] in Hs.
  - destruct (rmatch r i [] [] _) as [x|] eqn:E; [|discriminate].
    inversion Hs; subst x. exists [], []. cbn. rewrite Nat.add_0_r. auto.
  - destruct (rmatch r i (a :: s) [] _) as [x|] eqn:E.
    + inversion Hs; subst x. exists [], (a :: s). cbn.
      rewrite Nat.add_0_r. auto.
    + apply IH in Hs as (pre & suf & -> & Hm).
      exists (a :: pre), suf. cbn [length app].
      rewrite Nat.add_succ_r. auto.
Qed.

(** A match at the start of the input is what the search returns. *)
Lemma search_here (r : regex) (s : list ascii) (i : nat) :
  is_Some (rmatch r i s [] final) -> is_Some (search r i s).
Proof.
  intros [x Hx]. unfold final in Hx.
  destruct s; cbn [search]; rewrite Hx; eauto.
Qed.

(** A pattern anchored at both ends accepts exactly the words of the
    language of its body. *)
Lemma test_anchored (body : regex) (s : string) :
  anchor_free body = true ->
  test (Cat Bol (Cat body Eol)) s = true <-> lang body (chars s).
Proof.
  intros Ha. unfold test, exec. split.
  - destruct (search _ 0 (chars s)) as [c'|] eqn:E; [intros _|discriminate].
    apply search_sound in E as (pre & suf & Hs & Hm).
    cbn [rmatch] in Hm. cbn [Nat.add] in Hm.
    destruct pre as [|a pre]; [|discriminate]. cbn in Hm.
    apply rmatch_sound in Hm as (l & s1 & c1 & -> & Hl & Hk & _).
    destruct s1; [|discriminate].
    rewrite Hs. cbn [app]. now rewrite app_nil_r.
  - intros Hl.
    assert (is_Some (search (Cat Bol (Cat body Eol)) 0 (chars s))) as [x ->];
      [|reflexivity].
    apply search_here. cbn [rmatch]. cbn.
    rewrite <- (app_nil_r (chars s)).
    apply rmatch_complete; [exact Ha | exact Hl |].
    intros c1. cbn. eauto.
Qed.


(** Two patterns that match alike are searched alike. *)
Lemma search_ext (r1 r2 : regex) :
  (forall i s, rmatch r1 i s [] (fun _ _ c => Some c)
               = rmatch r2 i s [] (fun _ _ c => Some c)) ->
  forall s i, search r1 i s = search r2 i s.
Proof.
  intros E. induction s as [|a s IH]; intros i; cbn [search]; rewrite E.
  - reflexivity.
  - now rewrite IH.
Qed.

(** The same for a body of two parts, as [seq_of] nests them. *)
Lemma test_anchored_pair (a b : regex) (s : string) :
  anchor_free (Cat a b) = true ->
  test (Cat Bol (Cat a (Cat b Eol))) s = true <-> lang (Cat a b) (chars s).
Proof.
  intros Ha. rewrite <- (test_anchored (Cat a b) s Ha).
  unfold test, exec.
  now rewrite (search_ext (Cat Bol (Cat a (Cat b Eol)))
                 (Cat Bol (Cat (Cat a b) Eol))).
Qed.

(** What a successful search captured for a group is a word of the
    language of a group of that number. *)
Lemma exec_group (r : regex) (s x : string) (m : captures) (n : nat) :
  exec r s = Some m -> group n m = Some x ->
  exists body v, In body (groups n r) /\ lang body v /\ x = str v.
Proof.
  unfold exec. intros He Hg.
  apply search_sound in He as (pre & suf & _ & Hm).
  apply rmatch_sound in Hm as (l & s1 & c1 & _ & _ & Hk & Hc).
  unfold final in Hk. inversion Hk; subst c1.
  destruct (Hc n) as [H|(b & v & Hb & Hv & H)].
  - cbn in H. congruence.
  - exists b, v. repeat split; auto. congruence.
Qed.

Lemma captured_is_Some (r : regex) (n : nat) (c c1 : captures) :
  captured r n c c1 -> is_Some (group n c) -> is_Some (group n c1).
Proof.
  intros [E|(b & x & _ & _ & E)] Hc; rewrite E; [exact Hc | eauto].
Qed.

(** A pattern that always captures a group has captured it when its
    continuation is called. *)
Lemma rmatch_sets (n : nat) (r : regex) :
  sets_group n r = true ->
  forall i s c k c',
    rmatch r i s c k = Some c' ->
    exists i1 s1 c1, k i1 s1 c1 = Some c' /\ is_Some (group n c1).
Proof.
  induction r as [|p|r1 IH1 r2 IH2|r1 IH1 r2 IH2|g r1 IH1|m r1 IH1| |];
    intros Hs i s c k c' Hm; cbn [sets_group] in Hs; try discriminate.
  - cbn [rmatch] in Hm. apply orb_true_iff in Hs as [Hs|Hs].
    + destruct (IH1 Hs _ _ _ _ _ Hm) as (i1 & s1 & c1 & Hk & Hg).
      apply rmatch_sound in Hk as (l & s2 & c2 & _ & _ & Hk & Hc).
      exists (i1 + length l)%nat, s2, c2. split; [exact Hk|].
      exact (captured_is_Some r2 n c1 c2 (Hc n) Hg).
    + apply rmatch_sound in Hm as (l & s1 & c1 & _ & _ & Hk & _).
      exact (IH2 Hs _ _ _ _ _ Hk).
  - cbn [rmatch] in Hm. apply andb_true_iff in Hs as [Hs1 Hs2].
    destruct (rmatch r1 i s c k) as [x|] eqn:E.
    + inversion Hm; subst x. exact (IH1 Hs1 _ _ _ _ _ E).
    + exact (IH2 Hs2 _ _ _ _ _ Hm).
  - cbn [rmatch] in Hm. destruct (Nat.eqb_spec m n) as [->|Hne].
    + apply rmatch_sound in Hm as (l & s1 & c1 & _ & _ & Hk & _).
      eexists _, _, _. split; [exact Hk|]. rewrite group_cons_eq. eauto.
    + cbn [orb] in Hs.
      destruct (IH1 Hs _ _ _ _ _ Hm) as (i1 & s1 & c1 & Hk & Hg).
      eexists _, _, _. split; [exact Hk|]. now rewrite group_cons_ne.
Qed.

Lemma exec_sets (n : nat) (r : regex) (s : string) (m : captures) :
  sets_group n r = true -> exec r s = Some m -> is_Some (group n m).
Proof.
  unfold exec. intros Hs He.
  apply search_sound in He as (pre & suf & _ & Hm).
  destruct (rmatch_sets n r Hs _ _ _ _ _ Hm) as (i1 & s1 & c1 & Hk & Hg).
  unfold final in Hk. now inversion Hk; subst.
Qed.

End RegexFacts.

(** ** The shapes of the validation patterns *)

Module ShapeFacts.
Import JsString JsStringFacts Regex RegexTerms RegexFacts ShapeTerms.
Local Open Scope list_scope.

Lemma length_chars (s : string) : length (chars s) = String.length s.
Proof. unfold chars. induction s; cbn; congruence. Qed.

Lemma truthy_nonempty (s : string) : truthy s = true <-> chars s <> [].
Proof. destruct s; cbn; split; congruence. Qed.

Lemma lang_chr (a : ascii) (l : list ascii) : lang (chr a) l <-> l = [a].
Proof.
  unfold chr. cbn. split.
  - intros (b & -> & Hb). apply Ascii.eqb_eq in Hb. now subst.
  - intros ->. exists a. split; [reflexivity | apply Ascii.eqb_refl].
Qed.

Lemma lang_lit_chars (x l : list ascii) : lang (lit_chars x) l <-> l = x.
Proof.
  revert l. induction x as [|a x IH]; intros l; [reflexivity|].
  destruct x as [|b x].
  - apply lang_chr.
  - change (lit_chars (a :: b :: x)) with (Cat (chr a) (lit_chars (b :: x))).
    cbn [lang]. split.
    + intros (l1 & l2 & -> & H1 & H2). apply lang_chr in H1. apply IH in H2.
      now subst.
    + intros ->. exists [a], (b :: x). repeat split.
      * now apply lang_chr.
      * now apply IH.
Qed.

Lemma lang_lit (x : string) (l : list ascii) : lang (lit x) l <-> l = chars x.
Proof. apply lang_lit_chars. Qed.

Lemma star_cls (p : ascii -> bool) (l : list ascii) :
  star_of (lang (Cls p)) l <-> forallb p l = true.
Proof.
  split.
  - induction 1 as [|l1 l2 (a & -> & Hp) _ IH]; [reflexivity|].
    cbn. now rewrite Hp.
  - induction l as [|a l IH]; [constructor|].
    cbn. intros [Hp Hl]%andb_true_iff.
    change (a :: l) with ([a] ++ l). constructor; [cbn; eauto | auto].
Qed.

Lemma lang_plus_cls (p : ascii -> bool) (l : list ascii) :
  lang (plus (Cls p)) l <-> l <> [] /\ forallb p l = true.
Proof.
  unfold plus. cbn [lang]. split.
  - intros (l1 & l2 & -> & (a & -> & Hp) & H2). apply star_cls in H2.
    split; [discriminate|]. cbn. now rewrite Hp.
  - intros [Hne Hl]. destruct l as [|a l]; [contradiction|].
    cbn in Hl. apply andb_true_iff in Hl as [Hp Hl].
    exists [a], l. repeat split; [eauto | now apply star_cls].
Qed.

Lemma lang_rep_cls (n : nat) (p : ascii -> bool) (l : list ascii) :
  lang (rep n (Cls p)) l <-> length l = n /\ forallb p l = true.
Proof.
  revert l. induction n as [|n IH]; intros l; cbn [rep lang].
  - split; [intros ->; auto | intros [Hl _]; now destruct l].
  - split.
    + intros (l1 & l2 & -> & (a & -> & Hp) & H2). apply IH in H2 as [H2 H3].
      cbn. rewrite Hp, H3. auto.
    + intros [Hn Hl]. destruct l as [|a l]; [discriminate|].
      cbn in Hl. apply andb_true_iff in Hl as [Hp Hl].
      exists [a], l. repeat split; [eauto|]. apply IH. cbn in Hn. split; [lia|auto].
Qed.

Lemma lang_upto_cls (n : nat) (p : ascii -> bool) (l : list ascii) :
  lang (upto n (Cls p)) l <-> length l <= n /\ forallb p l = true.
Proof.
  revert l. induction n as [|n IH]; intros l; cbn [upto opt lang].
  - split; [intros ->; auto | intros [Hl _]; destruct l; [auto | cbn in Hl; lia]].
  - split.
    + intros [(l1 & l2 & -> & (a & -> & Hp) & H2) | ->].
      * apply IH in H2 as [H2 H3]. cbn. rewrite Hp, H3. split; [lia|auto].
      * cbn. split; [lia|auto].
    + intros [Hn Hl]. destruct l as [|a l]; [now right|]. left.
      cbn in Hl. apply andb_true_iff in Hl as [Hp Hl].
      exists [a], l. repeat split; [eauto|]. apply IH. cbn in Hn. split; [lia|auto].
Qed.

Lemma lang_between_cls (n m : nat) (p : ascii -> bool) (l : list ascii) :
  n <= m ->
  lang (between n m (Cls p)) l <-> n <= length l <= m /\ forallb p l = true.
Proof.
  intros Hnm. unfold between. cbn [lang]. split.
  - intros (l1 & l2 & -> & [H1 H1']%lang_rep_cls & [H2 H2']%lang_upto_cls).
    rewrite length_app, forallb_app, H1', H2'. split; [lia|auto].
  - intros [Hn Hl]. exists (firstn n l), (skipn n l).
    rewrite <- (firstn_skipn n l), forallb_app in Hl.
    apply andb_true_iff in Hl as [H1 H2].
    split; [now rewrite firstn_skipn|]. split.
    + apply lang_rep_cls. split; [|exact H1]. rewrite length_take. lia.
    + apply lang_upto_cls. split; [|exact H2]. rewrite length_skipn. lia.
Qed.

(** A boolean test against an anchored pattern, decided on the
    language of its body. *)
Lemma test_anchored_bool (body : regex) (s : string) (b : bool) :
  anchor_free body = true ->
  (lang body (chars s) <-> b = true) ->
  test (Cat Bol (Cat body Eol)) s = b.
Proof.
  intros Ha Hb. pose proof (test_anchored body s Ha) as Ht.
  destruct (test _ s), b; intuition congruence.
Qed.

Lemma test_anchored_pair_bool (a b : regex) (s : string) (v : bool) :
  anchor_free (Cat a b) = true ->
  (lang (Cat a b) (chars s) <-> v = true) ->
  test (Cat Bol (Cat a (Cat b Eol))) s = v.
Proof.
  intros Ha Hb. pose proof (test_anchored_pair a b s Ha) as Ht.
  destruct (test _ s), v; intuition congruence.
Qed.

Lemma test_videoIDRegex (s : string) :
  test VideoDownloader.videoIDRegex s = identifier_shape s.
Proof.
  apply test_anchored_bool; [reflexivity|].
  unfold identifier_shape, all_chars. rewrite <- length_chars.
  rewrite (lang_between_cls 11 14) by lia.
  rewrite !andb_true_iff, !Nat.leb_le. tauto.
Qed.

Lemma test_idRegex (s : string) :
  test SubtitleDownloader.idRegex s = identifier_shape s.
Proof. exact (test_videoIDRegex s). Qed.

Lemma test_partNumberRegex (s : string) :
  test VideoDownloader.partNumberRegex s = digits_shape s.
Proof.
  apply test_anchored_bool; [reflexivity|].
  unfold digits_shape, all_chars. unfold digit. rewrite lang_plus_cls.
  rewrite andb_true_iff, truthy_nonempty. tauto.
Qed.

Lemma test_formatRegex (s : string) :
  test VideoDownloader.formatRegex s = spec_shape s.
Proof.
  apply test_anchored_pair_bool; [reflexivity|].
  unfold spec_shape, all_chars, one_of.
  rewrite andb_true_iff, truthy_nonempty.
  cbn [lang opt]. split.
  - intros (l1 & l2 & E & [H1 H1']%lang_plus_cls & H2). rewrite E.
    split; [destruct l1; [contradiction | discriminate]|].
    rewrite forallb_app, H1'. cbn [andb].
    destruct H2 as [(l3 & l4 & -> & ->%lang_chr & [_ H4]%lang_plus_cls) | -> ];
      [|reflexivity].
    cbn. exact H4.
  - intros [Hne Hl]. exists (chars s), []. rewrite app_nil_r.
    repeat split; [|now right]. now apply lang_plus_cls.
Qed.

Lemma one_of_strings_In (l : list string) (s : string) :
  one_of_strings l s = true <-> In s l.
Proof.
  unfold one_of_strings. rewrite existsb_exists. split.
  - intros (x & Hx & ->%String.eqb_eq). exact Hx.
  - intros Hs. exists s. split; [exact Hs | apply String.eqb_refl].
Qed.

Lemma chars_inj (s t : string) : chars s = chars t -> s = t.
Proof. intros E. rewrite <- (str_chars s), <- (str_chars t). now rewrite E. Qed.

Lemma test_extRegex (s : string) :
  test SubtitleDownloader.extRegex s
  = one_of_strings [".srt"; ".ass"; ".vtt"; ".lrc"; ".xml"] s.
Proof.
  apply test_anchored_pair_bool; [reflexivity|].
  rewrite one_of_strings_In. cbn [lang alt_of]. split.
  - intros (l1 & l2 & E & ->%lang_chr & H2).
    rewrite !lang_lit in H2.
    cbn [In]. destruct H2 as [-> | [-> | [-> | [-> | ->]]]];
      [left|right; left|do 2 right; left|do 3 right; left|do 4 right; left];
      apply chars_inj; now rewrite E.
  - intros Hs. cbn [In] in Hs.
    exists ["."%char], (skipn 1 (chars s)). rewrite !lang_lit.
    rewrite lang_chr.
    repeat (destruct Hs as [<- | Hs]; [cbn; tauto|]). contradiction.
Qed.

Lemma test_typeRegex (s : string) :
  test SubtitleDownloader.typeRegex s = one_of_strings ["auto"; "native"] s.
Proof.
  apply test_anchored_bool; [reflexivity|].
  rewrite one_of_strings_In. cbn [lang]. rewrite !lang_lit. cbn [In]. split.
  - intros [E|E]; [left|right; left]; apply chars_inj; now rewrite E.
  - intros Hs. repeat (destruct Hs as [<- | Hs]; [cbn; tauto|]). contradiction.
Qed.

End ShapeFacts.

(** ** The subtitle lister: the sections of a listing *)

Module ListingFacts.
Import JsString JsStringFacts Regex RegexTerms RegexFacts ShapeFacts Sys VideoParser.
Import SubtitleTerms SubtitleFacts ListingTerms.
Local Open Scope list_scope.



(** *** White space at the ends of a line *)








(** *** Markers *)



(** *** The patterns of the two sections *)










(** *** Lines *)








(** *** The outer loop before the section *)






(** *** The inner loop *)









(** *** The section of authored tracks *)








End ListingFacts.

(** ** What the validations let through *)

Module RequestShapeFacts.
Import JsString JsStringFacts Regex RegexTerms RegexFacts Sys ShapeTerms ShapeFacts.
Local Open Scope list_scope.

Lemma identifier_truthy (s : string) : identifier_shape s = true -> truthy s = true.
Proof.
  unfold identifier_shape. destruct s; [|reflexivity]. cbn. discriminate.
Qed.

Lemma video_validate_iff (o : VideoDownloader.Options) (w : World) :
  video_request_shape o = true <->
  exists v f, VideoDownloader.videoID o = Some v
              /\ VideoDownloader.format o = Some f
              /\ VideoDownloader.validate o w = (Ok (v, f), w).
Proof.
  unfold video_request_shape, VideoDownloader.validate,
    VideoDownloader.or_default, otruthy, part_shape, throw, ret.
  destruct o as [ws [vid|] pn [fmt|] rc sb mg];
    cbn [VideoDownloader.videoID VideoDownloader.format VideoDownloader.p];
    try (split; [discriminate | intros (v & f & Ev & Ef & _); discriminate]).
  rewrite test_videoIDRegex, test_formatRegex.
  pose proof (identifier_truthy vid) as Hv.
  unfold spec_shape.
  destruct pn as [n|]; [rewrite test_partNumberRegex|];
    destruct (identifier_shape vid), (truthy fmt),
      (all_chars VideoDownloader.spec_char fmt);
    try (rewrite Hv by reflexivity);
    try destruct (truthy vid); try destruct (truthy n);
    try destruct (digits_shape n); cbn;
    (split; [first [discriminate | intros _; eauto]
            | first [reflexivity | intros (v & f & _ & _ & E); discriminate]]).
Qed.

Lemma video_validate_world (o : VideoDownloader.Options) (w : World) :
  (VideoDownloader.validate o w).2 = w.
Proof.
  unfold VideoDownloader.validate, throw, ret.
  destruct (VideoDownloader.videoID o), (VideoDownloader.format o);
    try reflexivity.
  repeat match goal with |- context [if ?b then _ else _] => destruct b end;
    reflexivity.
Qed.

Lemma video_validate_fields (o : VideoDownloader.Options) (w w' : World)
      (v f : string) :
  VideoDownloader.validate o w = (Ok (v, f), w') ->
  VideoDownloader.videoID o = Some v /\ VideoDownloader.format o = Some f.
Proof.
  unfold VideoDownloader.validate, throw, ret.
  destruct (VideoDownloader.videoID o) as [v'|],
           (VideoDownloader.format o) as [f'|]; try discriminate.
  repeat match goal with
         | |- (if ?b then _ else _) _ = _ -> _ => destruct b; try discriminate
         end.
  intros E. inversion E. auto.
Qed.

(** X1. [downloadVideo] lets a request through its validation exactly
    when the identifier is eleven to fourteen letters, digits,
    underscores or hyphens, the format is a non-empty word of the same
    characters, and the part number is absent, empty or decimal; the
    letter [x] of a merge specification is not asked to separate two
    formats.  Validation never touches the world. *)
Theorem video_validation_accepts_exactly
        (o : VideoDownloader.Options) (w : World) :
  (video_request_shape o = true <->
   exists v f, VideoDownloader.videoID o = Some v
               /\ VideoDownloader.format o = Some f
               /\ VideoDownloader.validate o w = (Ok (v, f), w))
  /\ (VideoDownloader.validate o w).2 = w.
Proof. split; [apply video_validate_iff | apply video_validate_world]. Qed.

Lemma all_chars_append (f : ascii -> bool) (s t : string) :
  all_chars f (s +:+ t) = all_chars f s && all_chars f t.
Proof. unfold all_chars. now rewrite chars_append, forallb_app. Qed.

Lemma all_chars_impl (f g : ascii -> bool) (s : string) :
  (forall a, f a = true -> g a = true) ->
  all_chars f s = true -> all_chars g s = true.
Proof.
  unfold all_chars. intros Hfg. rewrite !forallb_forall. auto.
Qed.

Lemma id_or_dash_path (a : ascii) :
  VideoDownloader.id_or_dash a = true -> path_char a = true.
Proof. unfold path_char. now intros ->. Qed.

Lemma spec_char_path (a : ascii) :
  VideoDownloader.spec_char a = true -> path_char a = true.
Proof.
  unfold path_char, VideoDownloader.spec_char, VideoDownloader.id_or_dash, is_word.
  destruct (is_alpha a), (is_digit a), (code a =? 95)%nat, (Ascii.eqb a "-");
    cbn; congruence.
Qed.

Lemma digit_path (a : ascii) : is_digit a = true -> path_char a = true.
Proof.
  unfold path_char, VideoDownloader.id_or_dash, is_word. intros ->.
  now rewrite orb_true_r.
Qed.

(** X3. The job path of a request that passed the validation of
    [downloadVideo] is made of letters, digits, underscores, hyphens
    and slashes only: it has no dot, so no component of it can lead
    out of the temporary directory, and no quote or blank. *)
Theorem job_path_has_safe_characters
        (o : VideoDownloader.Options) (w : World) (v f : string) :
  VideoDownloader.validate o w = (Ok (v, f), w) ->
  all_chars path_char (VideoDownloader.jobPath v (VideoDownloader.p o) f) = true.
Proof.
  intros Hv.
  destruct (video_validate_fields o w w v f Hv) as [Ev Ef].
  assert (video_request_shape o = true) as Hs
      by (apply (video_validate_iff o w); eauto).
  unfold video_request_shape in Hs. rewrite Ev, Ef in Hs.
  apply andb_true_iff in Hs as [[Hid Hf]%andb_true_iff Hp].
  unfold identifier_shape in Hid. apply andb_true_iff in Hid as [_ Hid].
  unfold spec_shape in Hf. apply andb_true_iff in Hf as [_ Hf].
  unfold VideoDownloader.jobPath. rewrite !all_chars_append.
  rewrite (all_chars_impl _ _ v id_or_dash_path Hid).
  rewrite (all_chars_impl _ _ f spec_char_path Hf).
  rewrite andb_true_r. cbn [andb].
  unfold part_shape in Hp. destruct (VideoDownloader.p o) as [n|]; [|reflexivity].
  destruct (truthy n); [|reflexivity]. cbn in Hp.
  unfold digits_shape in Hp. apply andb_true_iff in Hp as [_ Hp].
  rewrite all_chars_append.
  now rewrite (all_chars_impl _ _ n digit_path Hp).
Qed.

Lemma job_path_has_safe_characters_witness :
  all_chars path_char
    (VideoDownloader.jobPath "BV1xx411c7mD" (Some "2") "30280") = true.
Proof.
  exact (job_path_has_safe_characters
           {| VideoDownloader.website := Some "bilibili";
              VideoDownloader.videoID := Some "BV1xx411c7mD";
              VideoDownloader.p := Some "2";
              VideoDownloader.format := Some "30280";
              VideoDownloader.recode := None;
              VideoDownloader.subs := None;
              VideoDownloader.merge := None |}
           Scenario.fresh "BV1xx411c7mD" "30280" eq_refl).
Defined.

Section Subtitle.
Context `{Host}.

Lemma subtitle_validate_iff (o : SubtitleDownloader.Options) (w : World) :
  subtitle_request_shape o = true <->
  exists c, SubtitleDownloader.validate o w = (Ok c, w).
Proof.
  unfold subtitle_request_shape, SubtitleDownloader.validate,
    SubtitleDownloader.or_default, otruthy, part_shape, throw, ret.
  destruct o as [ws [i|] pn [l|] [e|] [t|]];
    cbn [SubtitleDownloader.id SubtitleDownloader.locale SubtitleDownloader.ext
         SubtitleDownloader.type SubtitleDownloader.p];
    try (split; [discriminate | intros (c & E); discriminate]).
  rewrite test_idRegex, test_extRegex, test_typeRegex.
  pose proof (identifier_truthy i) as Hi.
  assert (one_of_strings [".srt"; ".ass"; ".vtt"; ".lrc"; ".xml"] e = true ->
          truthy e = true) as He by (destruct e; [discriminate | reflexivity]).
  assert (one_of_strings ["auto"; "native"] t = true -> truthy t = true)
    as Ht by (destruct t; [discriminate | reflexivity]).
  destruct pn as [n|]; [rewrite test_partNumberRegex|];
    destruct (identifier_shape i), (truthy l),
      (one_of_strings [".srt"; ".ass"; ".vtt"; ".lrc"; ".xml"] e),
      (one_of_strings ["auto"; "native"] t);
    try (rewrite Hi by reflexivity);
    try (rewrite He by reflexivity);
    try (rewrite Ht by reflexivity);
    try destruct (truthy i); try destruct (truthy e); try destruct (truthy t);
    try destruct (truthy n); try destruct (digits_shape n); cbn;
    (split; [first [discriminate | intros _; eauto]
            | first [reflexivity | intros (c & E); discriminate]]).
Qed.

Lemma subtitle_validate_world (o : SubtitleDownloader.Options) (w : World) :
  (SubtitleDownloader.validate o w).2 = w.
Proof.
  unfold SubtitleDownloader.validate, throw, ret.
  destruct (SubtitleDownloader.id o), (SubtitleDownloader.locale o),
    (SubtitleDownloader.ext o), (SubtitleDownloader.type o); try reflexivity.
  repeat match goal with |- context [if ?b then _ else _] => destruct b end;
    reflexivity.
Qed.

(** X2. [downloadSubtitle] lets a request through its validation
    exactly when the identifier is eleven to fourteen letters, digits,
    underscores or hyphens, the locale is present and not empty, the
    extension is one of the five it knows, the type is [auto] or
    [native], and the part number is absent, empty or decimal: of the
    locale nothing else is asked.  Validation never touches the world. *)
Theorem subtitle_validation_accepts_exactly
        (o : SubtitleDownloader.Options) (w : World) :
  (subtitle_request_shape o = true <->
   exists c, SubtitleDownloader.validate o w = (Ok c, w))
  /\ (SubtitleDownloader.validate o w).2 = w.
Proof. split; [apply subtitle_validate_iff | apply subtitle_validate_world]. Qed.

End Subtitle.

End RequestShapeFacts.

(** ** What the patterns capture *)

Module CaptureFacts.
Import JsString JsStringFacts Regex RegexTerms RegexFacts Sys ShapeTerms ShapeFacts.
Import RequestShapeFacts SubtitleDownloaderFacts ExtractorFacts.
Local Open Scope list_scope.

Lemma groups_lit_chars (n : nat) (x : list ascii) : groups n (lit_chars x) = [].
Proof.
  induction x as [|a x IH]; [reflexivity|].
  destruct x as [|b x]; [reflexivity|].
  change (lit_chars (a :: b :: x)) with (Cat (chr a) (lit_chars (b :: x))).
  cbn [groups chr]. now rewrite IH.
Qed.

Lemma length_str (l : list ascii) : String.length (str l) = length l.
Proof. now rewrite <- length_chars, chars_str. Qed.

Lemma all_chars_str (f : ascii -> bool) (l : list ascii) :
  all_chars f (str l) = forallb f l.
Proof. unfold all_chars. now rewrite chars_str. Qed.

Lemma forallb_impl_bool (f g : ascii -> bool) (l : list ascii) :
  (forall a, f a = true -> g a = true) ->
  forallb f l = true -> forallb g l = true.
Proof. intros Hfg. rewrite !forallb_forall. auto. Qed.

Lemma id_char_id_or_dash (a : ascii) :
  VideoParser.id_char a = true -> VideoDownloader.id_or_dash a = true.
Proof.
  unfold VideoParser.id_char, VideoDownloader.id_or_dash, is_word.
  destruct (Ascii.eqb a "_") eqn:E.
  { apply Ascii.eqb_eq in E. subst a. reflexivity. }
  destruct (is_alpha a), (is_digit a), (Ascii.eqb a "-"); cbn;
    rewrite ?orb_true_r; congruence.
Qed.

Lemma word_or_digit_id_or_dash (a : ascii) :
  is_word a || is_digit a = true -> VideoDownloader.id_or_dash a = true.
Proof.
  unfold VideoDownloader.id_or_dash, is_word.
  destruct (is_alpha a), (is_digit a), (code a =? 95)%nat, (Ascii.eqb a "-");
    cbn; congruence.
Qed.

Lemma first_match_group (ps : list regex) (url x : string) :
  VideoParser.first_match ps url = Some x ->
  exists r m, In r ps /\ exec r url = Some m /\ group 1 m = Some x.
Proof.
  induction ps as [|r ps IH]; cbn [VideoParser.first_match]; [discriminate|].
  destruct (exec r url) as [m|] eqn:E.
  - intros Hg. exists r, m. repeat split; auto. now left.
  - intros Hx. destruct (IH Hx) as (r' & m & Hin & He & Hg).
    exists r', m. repeat split; auto. now right.
Qed.

(** What [resolve] returns is of the shape the validations ask for. *)
Lemma resolve_shape (url : string) (i : VideoParser.Identity) :
  VideoParser.resolve url = Some i ->
  identifier_shape (VideoParser.id_videoID i) = true
  /\ match VideoParser.id_p i with
     | Some n => digits_shape n = true
     | None => True
     end.
Proof.
  unfold VideoParser.resolve.
  destruct (includes url "youtube.com" || includes url "youtu.be").
  - destruct (VideoParser.first_match _ url) as [x|] eqn:E; [|discriminate].
    destruct (truthy x); [|discriminate]. intros Hi. inversion Hi; subst i.
    cbn [VideoParser.id_videoID VideoParser.id_p]. split; [|exact I].
    apply first_match_group in E as (r & m & Hin & He & Hg).
    destruct (exec_group r url x m 1 He Hg) as (body & v & Hb & Hv & ->).
    assert (body = rep 11 (one_of VideoParser.id_char)) as ->.
    { cbn in Hin. destruct Hin as [<-|[<-|[]]]; cbn in Hb;
        destruct Hb as [<-|[]]; reflexivity. }
    apply lang_rep_cls in Hv as [Hlen Hall].
    unfold identifier_shape. rewrite length_str, all_chars_str, Hlen.
    now rewrite (forallb_impl_bool _ _ v id_char_id_or_dash Hall).
  - destruct (includes url "bilibili.com"); [|discriminate].
    destruct (exec VideoParser.bilibiliRegex url) as [m|] eqn:He; [|discriminate].
    destruct (group 1 m) as [x|] eqn:Hg; [|discriminate].
    destruct (truthy x); [|discriminate]. intros Hi. inversion Hi; subst i.
    cbn [VideoParser.id_videoID VideoParser.id_p]. split.
    + destruct (exec_group _ url x m 1 He Hg) as (body & v & Hb & Hv & ->).
      cbn in Hb. destruct Hb as [<-|[]].
      apply (lang_between_cls 11 14) in Hv as [Hlen Hall]; [|lia].
      unfold identifier_shape. rewrite length_str, all_chars_str.
      rewrite (forallb_impl_bool _ _ v word_or_digit_id_or_dash Hall).
      rewrite andb_true_r. apply andb_true_iff.
      split; apply Nat.leb_le; lia.
    + destruct (exec VideoParser.partRegex url) as [pm|] eqn:Hp; [|exact I].
      destruct (group 1 pm) as [n|] eqn:Hn; [|exact I].
      destruct (exec_group _ url n pm 1 Hp Hn) as (body & v & Hb & Hv & ->).
      cbn in Hb. destruct Hb as [<-|[]].
      apply lang_plus_cls in Hv as [Hne Hall].
      unfold digits_shape. rewrite all_chars_str, Hall, andb_true_r.
      apply truthy_nonempty. now rewrite chars_str.
Qed.

(** X4. What the resolution of a URL in [parseVideo] returns passes
    the validation of [downloadVideo]: the identifier is of the shape
    asked for, and the part number, when the URL has one, is decimal.
    Any request made of the resolved identifier and part and of a
    well-formed format is let through. *)
Theorem resolved_identity_passes_validation
        (url : string) (i : VideoParser.Identity)
        (o : VideoDownloader.Options) (f : string) (w : World) :
  VideoParser.resolve url = Some i ->
  VideoDownloader.videoID o = Some (VideoParser.id_videoID i) ->
  VideoDownloader.p o = VideoParser.id_p i ->
  VideoDownloader.format o = Some f ->
  spec_shape f = true ->
  VideoDownloader.validate o w = (Ok (VideoParser.id_videoID i, f), w).
Proof.
  intros Hr Hv Hp Hf Hs. destruct (resolve_shape url i Hr) as [Hid Hpart].
  assert (video_request_shape o = true) as Hshape.
  { unfold video_request_shape. rewrite Hv, Hf, Hp, Hid, Hs. cbn [andb].
    unfold part_shape. destruct (VideoParser.id_p i) as [n|]; [|reflexivity].
    rewrite Hpart. apply orb_true_r. }
  apply (video_validate_iff o w) in Hshape as (v' & f' & Ev & Ef & Hval).
  congruence.
Qed.

Lemma resolved_identity_passes_validation_witness :
  VideoParser.resolve "https://www.bilibili.com/video/BV1xx411c7mD?p=2"
  = Some (VideoParser.mkIdentity VideoParser.bilibili "BV1xx411c7mD" (Some "2"))
  /\ VideoDownloader.validate
       {| VideoDownloader.website := Some "bilibili";
          VideoDownloader.videoID := Some "BV1xx411c7mD";
          VideoDownloader.p := Some "2";
          VideoDownloader.format := Some "30280";
          VideoDownloader.recode := None;
          VideoDownloader.subs := None;
          VideoDownloader.merge := None |} Scenario.fresh
     = (Ok ("BV1xx411c7mD", "30280"), Scenario.fresh).
Proof.
  split; [reflexivity|].
  exact (resolved_identity_passes_validation
           "https://www.bilibili.com/video/BV1xx411c7mD?p=2"
           (VideoParser.mkIdentity VideoParser.bilibili "BV1xx411c7mD" (Some "2"))
           {| VideoDownloader.website := Some "bilibili";
              VideoDownloader.videoID := Some "BV1xx411c7mD";
              VideoDownloader.p := Some "2";
              VideoDownloader.format := Some "30280";
              VideoDownloader.recode := None;
              VideoDownloader.subs := None;
              VideoDownloader.merge := None |}
           "30280" Scenario.fresh eq_refl eq_refl eq_refl eq_refl eq_refl).
Defined.

Lemma test_localeRegex (s : string) :
  test Middleware.localeRegex s = locale_shape s.
Proof.
  apply test_anchored_bool; [reflexivity|].
  unfold locale_shape. cbn [lang alt_of opt one_of].
  rewrite orb_true_iff, one_of_strings_In, !lang_lit. cbn [In].
  split.
  - intros [(l1 & l2 & E & [H1 H1']%lang_rep_cls & H2) | [E | E]].
    + right. rewrite E.
      destruct l1 as [|a [|b [|? ?]]]; try discriminate.
      cbn in H1'. rewrite andb_true_r in H1'. cbn [app]. rewrite H1'.
      destruct H2 as [(l3 & l4 & -> & ->%lang_chr & H4) | -> ]; [|reflexivity].
      apply (lang_between_cls 2 4) in H4 as [Hlen Hall]; [|lia].
      cbn [app andb]. rewrite Hall, andb_true_r.
      apply andb_true_iff. split; apply Nat.leb_le; lia.
    + left. left. apply chars_inj. now rewrite E.
    + left. right. left. apply chars_inj. now rewrite E.
  - intros [[<- | [<- | []]] | H]; [right; left; reflexivity
                                  | right; right; reflexivity |].
    left. destruct (chars s) as [|a [|b rest]]; try discriminate.
    apply andb_true_iff in H as [[Ha Hb]%andb_true_iff Hrest].
    exists [a; b], rest. split; [reflexivity|]. split.
    + apply lang_rep_cls. cbn. now rewrite Ha, Hb.
    + destruct rest as [|h suffix]; [now right|]. left.
      apply andb_true_iff in Hrest as [[[Hh H2]%andb_true_iff H4]%andb_true_iff Hall].
      apply Ascii.eqb_eq in Hh. subst h.
      exists ["-"%char], suffix. split; [reflexivity|]. split; [now apply lang_chr|].
      apply (lang_between_cls 2 4); [lia|].
      apply Nat.leb_le in H2, H4. auto.
Qed.

Lemma findDest_group (r : regex) (lines : list string) (x : string) :
  VideoDownloader.findDest r lines = Some x ->
  exists line m, In line lines /\ exec r line = Some m /\ group 1 m = Some x.
Proof.
  induction lines as [|l lines IH]; cbn [VideoDownloader.findDest]; [discriminate|].
  destruct (exec r l) as [m|] eqn:E.
  - intros Hg. exists l, m. repeat split; auto. now left.
  - intros Hx. destruct (IH Hx) as (l' & m & Hin & He & Hg).
    exists l', m. repeat split; auto. now right.
Qed.

(** The name found in the output of the tool is the identifier, a dot
    and a stem of word characters. *)
Lemma findDest_unmerged (fullpath videoID : string) (lines : list string)
      (x : string) :
  VideoDownloader.findDest (VideoDownloader.destRegex fullpath videoID) lines
  = Some x ->
  unmerged_name videoID x.
Proof.
  intros Hx. apply findDest_group in Hx as (line & m & _ & He & Hg).
  destruct (exec_group _ line x m 1 He Hg) as (body & v & Hb & Hv & ->).
  unfold VideoDownloader.destRegex in Hb. cbn [seq_of groups] in Hb.
  unfold lit in Hb. rewrite !groups_lit_chars in Hb. cbn in Hb.
  destruct Hb as [<-|[]].
  cbn [seq_of lang] in Hv.
  destruct Hv as (l1 & l2 & -> & ->%lang_lit & l3 & l4 & -> & ->%lang_chr & Hw).
  apply lang_plus_cls in Hw as [Hne Hall].
  exists (str l4). split; [|split].
  - apply chars_inj. now rewrite !chars_append, !chars_str.
  - apply truthy_nonempty. now rewrite chars_str.
  - now rewrite all_chars_str.
Qed.

Lemma locale_shape_truthy (s : string) : locale_shape s = true -> truthy s = true.
Proof. destruct s; [discriminate | reflexivity]. Qed.

Lemma one_of_strings_truthy (l : list string) (s : string) :
  one_of_strings l s = true -> forallb truthy l = true -> truthy s = true.
Proof.
  intros [x [Hx ->%String.eqb_eq]]%existsb_exists Hl.
  rewrite forallb_forall in Hl. auto.
Qed.

(** X5. The request validation lets the body of a subtitle request
    through exactly when the identifier, the extension and the type
    are of the shapes that [downloadSubtitle] asks for and the locale
    is [auto], [danmaku], or two lower-case letters with an optional
    suffix of a hyphen and two to four letters; of the part number it
    asks nothing. *)
Theorem subtitle_body_accepted_exactly (body : SubtitleDownloader.Options) :
  Middleware.validateSubtitleRequest body = None
  <-> subtitle_body_shape body = true.
Proof.
  unfold Middleware.validateSubtitleRequest, Middleware.present_and,
    subtitle_body_shape.
  destruct (SubtitleDownloader.id body) as [i|]; [|cbn; split; discriminate].
  rewrite test_idRegex.
  destruct (identifier_shape i) eqn:Hi;
    [rewrite (identifier_truthy i Hi)
    | rewrite andb_false_r; cbn;
      destruct (SubtitleDownloader.ext body), (SubtitleDownloader.type body),
        (SubtitleDownloader.locale body); split; discriminate].
  cbn [andb negb].
  destruct (SubtitleDownloader.ext body) as [e|]; [|cbn; split; discriminate].
  rewrite test_extRegex.
  destruct (one_of_strings _ e) eqn:He;
    [rewrite (one_of_strings_truthy _ e He eq_refl)
    | rewrite andb_false_r; cbn;
      destruct (SubtitleDownloader.type body),
        (SubtitleDownloader.locale body); split; discriminate].
  cbn [andb negb].
  destruct (SubtitleDownloader.type body) as [t|]; [|cbn; split; discriminate].
  rewrite test_typeRegex.
  destruct (one_of_strings _ t) eqn:Ht;
    [rewrite (one_of_strings_truthy _ t Ht eq_refl)
    | rewrite andb_false_r; cbn;
      destruct (SubtitleDownloader.locale body); split; discriminate].
  cbn [andb negb].
  destruct (SubtitleDownloader.locale body) as [l|]; [|cbn; split; discriminate].
  rewrite test_localeRegex.
  destruct (locale_shape l) eqn:Hl;
    [rewrite (locale_shape_truthy l Hl) | rewrite andb_false_r];
    cbn; split; congruence.
Qed.

Section Dest.
Context `{Host}.

(** X6. When [downloadVideo] reports a successful download, the file
    it names is [Unknown dest] or the identifier, a dot and a stem of
    word characters, as recovered from the output of the tool; it is
    never the [_merged] file that a merging download asks the tool to
    write. *)
Theorem dest_is_never_the_merged_file
        (o : VideoDownloader.Options) (w w' : World) (job : VideoDownloader.Job) :
  VideoDownloader.downloadVideo o w = (Ok (VideoDownloader.Success job), w') ->
  VideoDownloader.downloadSucceed job = true ->
  exists v f name,
    VideoDownloader.validate o w = (Ok (v, f), w)
    /\ VideoDownloader.dest job
       = "files/" +:+ VideoDownloader.jobPath v (VideoDownloader.p o) f
         +:+ "/" +:+ name
    /\ (name = "Unknown dest" \/ unmerged_name v name)
    /\ forall ext, name <> v +:+ "_merged." +:+ ext.
Proof.
  unfold VideoDownloader.downloadVideo, try_catch, bind.
  pose proof (video_validate_world o w) as Hw.
  destruct (VideoDownloader.validate o w) as [[[v f]|e] w1] eqn:Hval;
    cbn [snd] in Hw; subst w1;
    [|unfold VideoDownloader.failed, ret; intros E; inversion E; subst job;
      discriminate].
  destruct (mkdirSync _ w) as [[[]|e] w1];
    [|unfold VideoDownloader.failed, ret; intros E; inversion E; subst job;
      discriminate].
  unfold existsSync, execSync. cbn [fs log emit].
  destruct (run _ _) as [[output|e] f1];
    [|unfold VideoDownloader.failed, ret; intros E; inversion E; subst job;
      discriminate].
  unfold ret. intros E _. inversion E; subst job; clear E.
  cbn [VideoDownloader.dest].
  set (found := VideoDownloader.findDest _ _).
  exists v, f, (VideoDownloader.or_default found "Unknown dest").
  split; [reflexivity|]. split; [reflexivity|].
  assert (identifier_shape v = true) as Hid.
  { destruct (video_validate_fields o w w v f Hval) as [Ev Ef].
    assert (video_request_shape o = true) as Hs
        by (apply (video_validate_iff o w); eauto).
    unfold video_request_shape in Hs. rewrite Ev, Ef in Hs.
    now apply andb_true_iff in Hs as [[Hs _]%andb_true_iff _]. }
  destruct found as [x|] eqn:Hx; cbn [VideoDownloader.or_default].
  - apply findDest_unmerged in Hx. split; [now right|].
    intros ext Hext. destruct Hx as (stem & -> & _).
    apply append_inj_l in Hext. discriminate.
  - split; [now left|]. intros ext Hext.
    apply (f_equal String.length) in Hext.
    rewrite !length_append in Hext. cbn in Hext.
    unfold identifier_shape in Hid.
    apply andb_true_iff in Hid as [[Hlen _]%andb_true_iff _].
    apply Nat.leb_le in Hlen. lia.
Qed.

End Dest.

(** A merging download whose tool names the two streams and the merged
    file: the job names the first stream, cut at its second dot. *)
Lemma dest_is_never_the_merged_file_witness :
  exists job w',
    VideoDownloader.downloadVideo (H := Cases.merging_host)
      Scenario.merge_request Scenario.fresh
    = (Ok (VideoDownloader.Success job), w')
    /\ VideoDownloader.downloadSucceed job = true
    /\ VideoDownloader.dest job = "files/dQw4w9WgXcQ/137x140/dQw4w9WgXcQ.f137"
    /\ exists v f name,
        VideoDownloader.validate Scenario.merge_request Scenario.fresh
        = (Ok (v, f), Scenario.fresh)
        /\ VideoDownloader.dest job
           = "files/" +:+ VideoDownloader.jobPath v None f +:+ "/" +:+ name
        /\ (name = "Unknown dest" \/ unmerged_name v name)
        /\ forall ext, name <> v +:+ "_merged." +:+ ext.
Proof.
  pose (r := VideoDownloader.downloadVideo (H := Cases.merging_host)
               Scenario.merge_request Scenario.fresh).
  assert (exists job, r.1 = Ok (VideoDownloader.Success job)
                      /\ VideoDownloader.downloadSucceed job = true
                      /\ VideoDownloader.dest job
                         = "files/dQw4w9WgXcQ/137x140/dQw4w9WgXcQ.f137")
    as (job & Hr & Hs & Hd).
  { eexists. vm_compute. repeat split. }
  exists job, r.2. split; [|split; [exact Hs | split; [exact Hd|]]].
  - rewrite <- Hr. apply surjective_pairing.
  - apply (dest_is_never_the_merged_file (H := Cases.merging_host)
             Scenario.merge_request Scenario.fresh r.2 job);
      [rewrite <- Hr; apply surjective_pairing | exact Hs].
Defined.

Lemma officialList_codes (lines : list string) (x : string) :
  In x (VideoParser.officialList lines) ->
  exists line, VideoParser.catchSubtitle line = VideoParser.Code x.
Proof.
  induction lines as [|l lines IH]; cbn [VideoParser.officialList]; [intros []|].
  destruct (VideoParser.skipped (trim l)); [exact IH|].
  destruct (VideoParser.catchSubtitle (trim l)) as [sub| |] eqn:E;
    [|exact IH|intros []].
  destruct (truthy sub); [|exact IH].
  intros [<-|Hx]; [eauto | auto].
Qed.

Lemma scan_codes (lines : list string) (b : bool) (x : string) :
  In x (VideoParser.scan lines b).2 ->
  exists line, VideoParser.catchSubtitle line = VideoParser.Code x.
Proof.
  revert b. induction lines as [|l lines IH]; intros b;
    cbn [VideoParser.scan]; [intros []|].
  destruct (VideoParser.skipped (trim l)); [apply IH|].
  destruct (test VideoParser.autoCaptions (trim l)); [apply IH|].
  destruct (test VideoParser.officialSubtitles (trim l)); [|apply IH].
  cbn [snd]. apply officialList_codes.
Qed.

Lemma catchSubtitle_shape (line x : string) :
  VideoParser.catchSubtitle line = VideoParser.Code x -> code_shape x = true.
Proof.
  unfold VideoParser.catchSubtitle.
  destruct (test VideoParser.languageHeader line); [discriminate|].
  destruct (exec VideoParser.languageCode line) as [m|] eqn:He; [|discriminate].
  destruct (group 1 m) as [y|] eqn:Hg; [|discriminate].
  intros E. inversion E; subst y.
  destruct (exec_group _ line x m 1 He Hg) as (body & v & Hb & Hv & ->).
  assert (body = Alt (lit "danmaku")
                     (Cat (rep 2 (one_of is_lower))
                          (opt (Cat (chr "-") (plus (one_of is_alpha))))))
    as -> by (cbn in Hb; destruct Hb as [<-|[]]; reflexivity).
  unfold code_shape. rewrite chars_str. apply orb_true_iff.
  cbn [lang opt one_of] in Hv.
  destruct Hv as [->%lang_lit | (l1 & l2 & -> & [H1 H1']%lang_rep_cls & H2)].
  - left. reflexivity.
  - right. destruct l1 as [|a [|b [|? ?]]]; try discriminate.
    cbn in H1'. rewrite andb_true_r in H1'. cbn [app]. rewrite H1'.
    destruct H2 as [(l3 & l4 & -> & ->%lang_chr & [Hne Hall]%lang_plus_cls) | -> ];
      [|reflexivity].
    cbn [app andb]. rewrite Hall, andb_true_r.
    destruct l4; [contradiction | reflexivity].
Qed.

(** X7. Every code in the list that the subtitle scanner returns is
    [auto], [danmaku], or two lower-case letters with an optional
    suffix of a hyphen and letters: whatever the tool prints, no other
    character reaches the list. *)
Theorem listed_codes_have_the_code_shape (result code : string) :
  In code (VideoParser.listSubtitles result) -> code_shape code = true.
Proof.
  unfold VideoParser.listSubtitles.
  destruct (VideoParser.scan _ true) as [noAuto official] eqn:Hs.
  destruct (length official <? 1)%nat.
  - destruct noAuto; [intros [] | intros [<-|[]]; reflexivity].
  - intros Hin.
    destruct (scan_codes (split_newlines_keep result) true code) as [line Hl].
    + now rewrite Hs.
    + exact (catchSubtitle_shape line code Hl).
Qed.

Lemma listed_codes_have_the_code_shape_witness :
  In "es" (VideoParser.listSubtitles Scenario.official_listing)
  /\ code_shape "es" = true.
Proof.
  assert (In "es" (VideoParser.listSubtitles Scenario.official_listing)) as Hin
      by (vm_compute; auto).
  split; [exact Hin|].
  exact (listed_codes_have_the_code_shape Scenario.official_listing "es" Hin).
Defined.

End CaptureFacts.

(** ** The outcomes of a parse *)

Module ParseFacts.
Import JsString JsStringFacts Regex Sys SysTerms SysFacts VideoParser.
Import ExtractorTerms ExtractorFacts.
Local Open Scope list_scope.

Ltac read_events :=
  unfold new_events, after, retry_world, first_world, emit; cbn [log fst snd];
  repeat rewrite <- app_assoc; cbn [app];
  rewrite skipn_app_exact; cbn [spawned].

Section Outcomes.
Context `{Host} `{Json}.

(** What [extract] logs: the metadata command for the URL as given,
    and then at most the retry. *)
Lemma extract_log (ident : Identity) (url : string) (w : World) :
  exists tail,
    log (extract ident (present w) url (emit (Exists cookie) w)).2
    = log w ++ Exists cookie :: Spawn (parseCommand (present w) url) :: tail.
Proof.
  unfold extract, try_catch, bind, execSync, ret, throw, emit. cbn [fs log].
  destruct (run (parseCommand (present w) url) _) as [[o|e] f]; cbn [fst snd log].
  - exists []. now rewrite <- app_assoc.
  - destruct (bool_decide (id_website ident = bilibili) && negb (otruthy (id_p ident))).
    + cbn [fs log]. destruct (run _ _) as [[o2|e2] f2]; cbn [snd log];
        eexists; rewrite <- !app_assoc; cbn [app]; reflexivity.
    + exists []. cbn [snd log]. now rewrite <- app_assoc.
Qed.

Lemma parseSubtitles_log (url : string) (w : World) :
  exists tail, log (parseSubtitles url w).2 = log w ++ tail.
Proof.
  destruct (parseSubtitles_total url w) as (subs & f & ->). cbn. eauto.
Qed.

Lemma buildResult_identity ident p videoInfo l :
  r_website (buildResult ident p videoInfo l) = id_website ident
  /\ r_v (buildResult ident p videoInfo l) = id_videoID ident.
Proof. unfold buildResult. now destruct (processFormats _). Qed.

(** X8. A URL that [parseVideo] cannot resolve is refused with the
    message that names the supported forms, before anything is looked
    up or run.  For a resolved URL the first subprocess is the
    metadata command for the URL as the caller gave it; the call then
    answers with the site and the identifier of the resolution, or
    fails with a message that starts with the parse-failure prefix,
    whatever went wrong. *)
Theorem parseVideo_outcomes (url : string) (w : World) :
  match resolve url with
  | None => parseVideo url w = (Throw unsupported_url_message, w)
  | Some ident =>
      (exists rest,
          spawned (new_events (parseVideo url) w)
          = parseCommand (present w) url :: rest)
      /\ match (parseVideo url w).1 with
         | Ok r => r_website r = id_website ident /\ r_v r = id_videoID ident
         | Throw e => exists m, e = "解析失败: " +:+ m
         end
  end.
Proof.
  destruct (resolve url) as [ident|] eqn:Hr.
  - pose proof (parseVideo_resolved url w ident Hr) as PV.
    destruct (extract_log ident url w) as [tail Hlog].
    destruct (extract ident (present w) url _) as [[[[result p] url']|e] w1].
    + destruct (JSON_parse result) as [info|e].
      * destruct (parseSubtitles_log url' w1) as [tail2 Hlog2].
        destruct (parseSubtitles url' w1) as [[subs|e] w2];
          rewrite PV; cbn [fst snd] in *; (split;
            [ unfold new_events; rewrite PV; cbn [snd]; rewrite Hlog2, Hlog;
              rewrite <- app_assoc, skipn_app_exact; cbn [app spawned]; eauto
            | first [apply buildResult_identity | eauto] ]).
      * rewrite PV. cbn [fst snd] in *. split; [|eauto].
        unfold new_events. rewrite PV. cbn [snd]. rewrite Hlog.
        rewrite skipn_app_exact. cbn [spawned]. eauto.
    + rewrite PV. cbn [fst snd] in *. split; [|eauto].
      unfold new_events. rewrite PV. cbn [snd]. rewrite Hlog.
      rewrite skipn_app_exact. cbn [spawned]. eauto.
  - unfold parseVideo. rewrite Hr. reflexivity.
Qed.

(** X9. When the first metadata invocation succeeds there is no retry,
    whatever the site: if its output parses, the call spawns the
    metadata command and then the listing, both for the URL as given,
    and the result carries the part of the URL and the list that the
    listing returned; if its output does not parse, the call fails with
    the message of the parser and the listing is not run. *)
Theorem first_success_means_no_retry (url : string) (w : World)
        (ident : Identity) (out : string) :
  resolve url = Some ident ->
  (first_attempt url w).1 = Ok out ->
  (forall videoInfo,
      JSON_parse out = Ok videoInfo ->
      exists r b,
        (parseVideo url w).1 = Ok r
        /\ r_p r = id_p ident
        /\ spawned (new_events (parseVideo url) w)
           = [parseCommand (present w) url; listCommand b url]
        /\ (parseSubtitles url
              (after (first_attempt url w) (first_world url w))).1
           = Ok (subs r))
  /\ (forall e,
         JSON_parse out = Throw e ->
         (parseVideo url w).1 = Throw ("解析失败: " +:+ e)
         /\ spawned (new_events (parseVideo url) w)
            = [parseCommand (present w) url]).
Proof.
  intros Hr Hfirst.
  pose proof (parseVideo_resolved url w ident Hr) as PV.
  rewrite (extract_first_ok ident url w out Hfirst) in PV.
  split.
  - intros videoInfo Hj. rewrite Hj in PV.
    destruct (parseSubtitles_total url
                (after (first_attempt url w) (first_world url w)))
      as (l & f & PS).
    rewrite PS in PV. rewrite PS.
    eexists. eexists. rewrite PV. cbn [fst].
    split; [reflexivity|]. split; [apply buildResult_p|].
    split; [|now rewrite buildResult_subs].
    unfold new_events. rewrite PV. read_events. reflexivity.
  - intros e Hj. rewrite Hj in PV. rewrite PV. split; [reflexivity|].
    unfold new_events. rewrite PV. read_events. reflexivity.
Qed.

End Outcomes.

Lemma first_success_means_no_retry_witness :
  (exists r,
      (parseVideo (H := DirectCase.direct_host) (H0 := Scenario.sample_json)
                  "https://www.bilibili.com/video/BV1GJ411x7h7?p=3"
                  Scenario.fresh).1 = Ok r
      /\ r_p r = Some "3"
      /\ subs r = ["en"; "es"; "danmaku"]
      /\ spawned (new_events
                    (parseVideo (H := DirectCase.direct_host)
                                (H0 := Scenario.sample_json)
                                "https://www.bilibili.com/video/BV1GJ411x7h7?p=3")
                    Scenario.fresh)
         = ["yt-dlp --print-json --skip-download  'https://www.bilibili.com/video/BV1GJ411x7h7?p=3' 2> /dev/null";
            "yt-dlp --list-subs  'https://www.bilibili.com/video/BV1GJ411x7h7?p=3' 2> /dev/null"])
  /\ (parseVideo (H := DirectCase.garbled_host) (H0 := Scenario.sample_json)
                 "https://youtu.be/dQw4w9WgXcQ" Scenario.fresh).1
     = Throw ("解析失败: " +:+ "Unexpected token < in JSON at position 0").
Proof.
  split.
  - destruct (first_success_means_no_retry
                (H := DirectCase.direct_host) (H0 := Scenario.sample_json)
                "https://www.bilibili.com/video/BV1GJ411x7h7?p=3" Scenario.fresh
                {| id_website := bilibili; id_videoID := "BV1GJ411x7h7";
                   id_p := Some "3" |}
                Scenario.bili_output eq_refl eq_refl) as [Hok _].
    destruct (Hok Scenario.bili_info eq_refl) as (r & b & Hr & Hp & Hs & Hl).
    exists r. split; [exact Hr|]. split; [exact Hp|]. split.
    + assert (Ok (subs r) = Ok ["en"; "es"; "danmaku"]) as E
          by (rewrite <- Hl; vm_compute; reflexivity).
      now inversion E.
    + rewrite Hs. f_equal. f_equal.
      assert (Some (listCommand (H := DirectCase.direct_host) b
                      "https://www.bilibili.com/video/BV1GJ411x7h7?p=3")
              = Some "yt-dlp --list-subs  'https://www.bilibili.com/video/BV1GJ411x7h7?p=3' 2> /dev/null")
        as E; [|now inversion E].
      transitivity
        (nth_error
           (spawned (new_events
                       (parseVideo (H := DirectCase.direct_host)
                                   (H0 := Scenario.sample_json)
                                   "https://www.bilibili.com/video/BV1GJ411x7h7?p=3")
                       Scenario.fresh)) 1).
      * now rewrite Hs.
      * vm_compute. reflexivity.
  - destruct (first_success_means_no_retry
                (H := DirectCase.garbled_host) (H0 := Scenario.sample_json)
                "https://youtu.be/dQw4w9WgXcQ" Scenario.fresh
                {| id_website := y2b; id_videoID := "dQw4w9WgXcQ"; id_p := None |}
                "<html>Too many requests</html>" eq_refl eq_refl) as [_ Hbad].
    apply (Hbad "Unexpected token < in JSON at position 0"). reflexivity.
Defined.

End ParseFacts.

(** ** The order of the listed streams *)

Module OrderFacts.
Import JsString JsStringFacts JsNumber Regex Sys VideoParser FormatTerms FormatFacts.
Local Open Scope list_scope.

Section Sorting.
Context {A : Type} (key : A -> Z).

Let before (a b : A) : bool := (key b <? key a)%Z.
Let same (k : Z) (a : A) : bool := (key a =? k)%Z.

Lemma insert_sorted_perm (x : A) (l : list A) :
  Permutation (insert_sorted before x l) (x :: l).
Proof.
  induction l as [|y l IH]; cbn [insert_sorted]; [reflexivity|].
  destruct (before y x); [|reflexivity].
  rewrite IH. apply perm_swap.
Qed.

Lemma sort_perm (l : list A) : Permutation (sort before l) l.
Proof.
  induction l as [|x l IH]; [reflexivity|].
  cbn [sort fold_right]. fold (sort before l).
  rewrite insert_sorted_perm. now constructor.
Qed.

Lemma insert_sorted_sorted (x : A) (l : list A) :
  StronglySorted (fun a b => (key b <= key a)%Z) l ->
  StronglySorted (fun a b => (key b <= key a)%Z) (insert_sorted before x l).
Proof.
  induction 1 as [|y l Hl IH Hy]; cbn [insert_sorted].
  - repeat constructor.
  - unfold before at 1. destruct (Z.ltb_spec (key x) (key y)) as [Hlt|Hge].
    + constructor; [exact IH|].
      apply List.Forall_forall. intros z Hz.
      apply (Permutation_in _ (insert_sorted_perm x l)) in Hz.
      destruct Hz as [<-|Hz]; [lia|].
      rewrite List.Forall_forall in Hy. auto.
    + constructor; [now constructor|].
      constructor; [exact Hge|].
      eapply Forall_impl; [exact Hy|]. cbn. intros; lia.
Qed.

Lemma sort_sorted (l : list A) :
  StronglySorted (fun a b => (key b <= key a)%Z) (sort before l).
Proof.
  induction l as [|x l IH]; [constructor|].
  cbn [sort fold_right]. fold (sort before l). now apply insert_sorted_sorted.
Qed.

Lemma insert_sorted_stable (k : Z) (x : A) (l : list A) :
  List.filter (same k) (insert_sorted before x l) = List.filter (same k) (x :: l).
Proof.
  induction l as [|y l IH]; [reflexivity|]. cbn [insert_sorted].
  unfold before at 1. destruct (Z.ltb_spec (key x) (key y)) as [Hlt|Hge];
    [|reflexivity].
  cbn [List.filter] in *. rewrite IH. unfold same.
  destruct (Z.eqb_spec (key x) k), (Z.eqb_spec (key y) k); try reflexivity. lia.
Qed.

Lemma sort_stable (k : Z) (l : list A) :
  List.filter (same k) (sort before l) = List.filter (same k) l.
Proof.
  induction l as [|x l IH]; [reflexivity|].
  cbn [sort fold_right]. fold (sort before l).
  rewrite insert_sorted_stable. cbn [List.filter]. now rewrite IH.
Qed.

Lemma sort_map {B : Type} (g : A -> B) (beforeB : B -> B -> bool) (l : list A) :
  (forall a b, beforeB (g a) (g b) = before a b) ->
  sort beforeB (map g l) = map g (sort before l).
Proof.
  intros Hb. induction l as [|x l IH]; [reflexivity|].
  cbn [map sort fold_right]. fold (sort beforeB (map g l)) (sort before l).
  rewrite IH. generalize (sort before l). intros s.
  induction s as [|y s IHs]; [reflexivity|].
  cbn [map insert_sorted]. rewrite Hb. destruct (before y x); cbn [map]; congruence.
Qed.

End Sorting.

(** X10. The streams that [parseVideo] lists are the audio entries and
    the video entries of the formats that the tool reported, each
    format once: sorted by displayed bitrate, highest first, and among
    equal bitrates in the order of the tool. *)
Theorem streams_listed_best_first
        (ident : Identity) (p : option string) (videoInfo : VideoInfo)
        (l : list string) (fs : list Format) :
  formats videoInfo = Some fs ->
  exists la lv,
    audios (buildResult ident p videoInfo l) = map audioEntry la
    /\ videos (buildResult ident p videoInfo l) = map videoEntry lv
    /\ Permutation la (List.filter is_audio fs)
    /\ Permutation lv (List.filter is_video fs)
    /\ StronglySorted (fun a b => (audio_rate b <= audio_rate a)%Z) la
    /\ StronglySorted (fun a b => (video_rate b <= video_rate a)%Z) lv
    /\ (forall k,
           List.filter (fun f => (audio_rate f =? k)%Z) la
           = List.filter (fun f => (audio_rate f =? k)%Z) (List.filter is_audio fs))
    /\ (forall k,
           List.filter (fun f => (video_rate f =? k)%Z) lv
           = List.filter (fun f => (video_rate f =? k)%Z) (List.filter is_video fs)).
Proof.
  intros Hf.
  exists (sort (fun a b => (audio_rate b <? audio_rate a)%Z) (List.filter is_audio fs)),
         (sort (fun a b => (video_rate b <? video_rate a)%Z) (List.filter is_video fs)).
  unfold buildResult. rewrite Hf, processFormats_buckets.
  cbn [audios videos]. unfold sortAudios, sortVideos.
  split; [|split; [|split; [|split; [|split; [|split; [|split]]]]]].
  - apply (sort_map audio_rate). intros a b. cbn [audioEntry a_rate].
    apply goes_before_rounded.
  - apply (sort_map video_rate). intros a b. cbn [videoEntry v_rate].
    apply goes_before_rounded.
  - apply sort_perm.
  - apply sort_perm.
  - apply sort_sorted.
  - apply sort_sorted.
  - intros k. apply (sort_stable audio_rate).
  - intros k. apply (sort_stable video_rate).
Qed.

(** On the scenario the two audio streams display the same bitrate and
    stay in the order of the tool. *)
Lemma streams_listed_best_first_witness :
  exists la lv,
    audios (buildResult (mkIdentity bilibili "BV1GJ411x7h7" None) (Some "1")
              Scenario.bili_info [])
    = map audioEntry la
    /\ videos (buildResult (mkIdentity bilibili "BV1GJ411x7h7" None) (Some "1")
                 Scenario.bili_info [])
       = map videoEntry lv
    /\ Permutation la [Scenario.audio_low; Scenario.audio_high]
    /\ Permutation lv [Scenario.video_720]
    /\ StronglySorted (fun a b => (audio_rate b <= audio_rate a)%Z) la
    /\ (forall k,
           List.filter (fun f => (audio_rate f =? k)%Z) la
           = List.filter (fun f => (audio_rate f =? k)%Z)
               [Scenario.audio_low; Scenario.audio_high]).
Proof.
  destruct (streams_listed_best_first
              (mkIdentity bilibili "BV1GJ411x7h7" None) (Some "1")
              Scenario.bili_info []
              [Scenario.storyboard; Scenario.audio_low; Scenario.audio_high;
               Scenario.video_720] eq_refl)
    as (la & lv & Ha & Hv & Pa & Pv & Sa & _ & Ta & _).
  exists la, lv. repeat split; assumption.
Defined.

(** X11. The description of the result is made of the first 500
    UTF-16 code units of the description that the tool reported, as
    [substring] counts them: a description of 500 units or fewer comes
    back whole, whatever the number of its bytes, and a video without
    description has the empty one. *)
Theorem description_is_a_bounded_prefix
        (ident : Identity) (p : option string) (videoInfo : VideoInfo)
        (l : list string) :
  let d := r_description (buildResult ident p videoInfo l) in
  (length (units (chars d)) <= 500)%nat
  /\ match description videoInfo with
     | Some full =>
         units (chars d) = firstn 500 (units (chars full))
         /\ ((length (units (chars full)) <= 500)%nat -> d = full)
     | None => d = ""
     end.
Proof.
  unfold buildResult. destruct (processFormats _) as [a v].
  cbn [r_description].
  destruct (description videoInfo) as [full|]; [|cbn; split; [lia | reflexivity]].
  unfold substring0. rewrite chars_str, CodeUnitFacts.units_take.
  split; [|split].
  - rewrite length_take. lia.
  - reflexivity.
  - intros Hle. rewrite (CodeUnitFacts.take_all 500 _ Hle). apply str_chars.
Qed.

End OrderFacts.

(** ** Quality bands *)

Module QualityBandFacts.
Import JsString JsNumber VideoParser.
Local Open Scope list_scope.

Lemma ge_above (h t u : Q) :
  (u <= t)%Q -> ge (Some h) t = true -> ge (Some h) u = true.
Proof.
  unfold ge. rewrite !Qle_bool_iff. intros Hut Hth.
  now apply Qle_trans with t.
Qed.

Lemma ge_below (h t : Q) :
  ge (Some h) 144 = false -> (144 <= t)%Q -> ge (Some h) t = false.
Proof.
  intros Hlow Ht. destruct (ge (Some h) t) eqn:E; [|reflexivity].
  rewrite (ge_above h t 144 Ht E) in Hlow. discriminate.
Qed.

(** X12. The height decides the video quality: from 144 pixels on the
    note has no influence and the quality is never [unknown].  Below
    144 pixels, or without a height, the note decides, and then a note
    that is not empty is displayed as it is, whatever quality was read
    out of it; without a note the quality is [unknown].  The audio
    label is [Unknown] exactly when the bitrate is absent or below 96. *)
Theorem quality_by_height_then_note :
  (forall h note,
      ge (Some h) 144 = true ->
      mapVideoQuality (Some h) note = mapVideoQuality (Some h) None
      /\ quality (mapVideoQuality (Some h) note) <> "unknown")
  /\ (forall height note,
         ge height 144 = false ->
         truthy note = true ->
         label (mapVideoQuality height (Some note)) = note)
  /\ (forall height note,
         ge height 144 = false ->
         otruthy note = false ->
         mapVideoQuality height note
         = mkQuality "unknown" "Unknown" "Unknown")
  /\ (forall abr, mapAudioQuality abr = "Unknown" <-> ge abr 96 = false).
Proof.
  split; [|split; [|split]].
  - intros h note H144. unfold mapVideoQuality. rewrite H144.
    repeat match goal with
           | |- context [if ge (Some h) ?t then _ else _] =>
               destruct (ge (Some h) t)
           end; (split; [reflexivity | discriminate]).
  - intros height note Hlow Hn. unfold mapVideoQuality.
    assert (forall t, (144 <= t)%Q -> ge height t = false) as Hb.
    { destruct height as [h|]; [|reflexivity]. intros t. now apply ge_below. }
    rewrite !Hb by discriminate.
    destruct note; [discriminate|]. cbn [or_else truthy].
    repeat match goal with
           | |- context [if ?b then _ else _] => destruct b
           end; reflexivity.
  - intros height note Hlow Hn. unfold mapVideoQuality.
    assert (forall t, (144 <= t)%Q -> ge height t = false) as Hb.
    { destruct height as [h|]; [|reflexivity]. intros t. now apply ge_below. }
    rewrite !Hb by discriminate.
    destruct note as [[|a s]|]; try discriminate; reflexivity.
  - intros abr. unfold mapAudioQuality. split.
    + repeat match goal with
             | |- context [if ge abr ?t then _ else _] =>
                 destruct (ge abr t) eqn:?
             end; try discriminate. reflexivity.
    + intros H96.
      assert (forall t, (96 <= t)%Q -> ge abr t = false) as Hb.
      { destruct abr as [h|]; [|reflexivity]. intros t Ht.
        destruct (ge (Some h) t) eqn:E; [|reflexivity].
        rewrite (ge_above h t 96 Ht E) in H96. discriminate. }
      rewrite !Hb by discriminate. reflexivity.
Qed.

End QualityBandFacts.

(** ** What the downloaders answer *)

Module AnswerFacts.
Import JsString JsStringFacts Regex Sys SysTerms SysFacts.
Import SubtitleDownloaderTerms SubtitleDownloaderFacts.
Local Open Scope list_scope.

Section Answers.
Context `{Host} `{SubtitleDownloader.Codec}.

Lemma downloadVideo_answers (o : VideoDownloader.Options) (w : World) :
  exists job,
    (VideoDownloader.downloadVideo o w).1 = Ok (VideoDownloader.Success job)
    /\ (VideoDownloader.downloadSucceed job = false ->
        VideoDownloader.v job = VideoDownloader.videoID o
        /\ VideoDownloader.dest job = "下载失败").
Proof.
  unfold VideoDownloader.downloadVideo, try_catch, bind.
  destruct (VideoDownloader.validate o w) as [[[v f]|e] w1];
    [|eexists; split; [reflexivity | intros _; split; reflexivity]].
  destruct (mkdirSync _ w1) as [[[]|e] w2];
    [|eexists; split; [reflexivity | intros _; split; reflexivity]].
  unfold existsSync, execSync. cbn [fs log emit].
  destruct (run _ _) as [[output|e] f1];
    eexists; (split; [reflexivity|]); cbn; intros E;
    first [discriminate | split; reflexivity].
Qed.

Lemma downloadSubtitle_answers (o : SubtitleDownloader.Options) (w : World) :
  exists r, (SubtitleDownloader.downloadSubtitle o w).1 = Ok r.
Proof.
  unfold SubtitleDownloader.downloadSubtitle, try_catch.
  match goal with
  | |- exists r, (match ?m w with _ => _ end).1 = _ =>
      destruct (m w) as [[r|e] w']; eexists; reflexivity
  end.
Qed.

(** X13. Neither downloader throws, whatever the request, the storage
    and the tools do: [downloadVideo] always answers with its success
    envelope, and a job that did not succeed carries the identifier of
    the request and the fixed failure text as destination;
    [downloadSubtitle] always answers with a response. *)
Theorem downloaders_never_throw :
  (forall o w,
      exists job,
        (VideoDownloader.downloadVideo o w).1 = Ok (VideoDownloader.Success job)
        /\ (VideoDownloader.downloadSucceed job = false ->
            VideoDownloader.v job = VideoDownloader.videoID o
            /\ VideoDownloader.dest job = "下载失败"))
  /\ (forall o w,
         exists r, (SubtitleDownloader.downloadSubtitle o w).1 = Ok r).
Proof. split; [apply downloadVideo_answers | apply downloadSubtitle_answers]. Qed.

(** X14. When the extraction tool fails on a validated subtitle
    request, [downloadSubtitle] answers with a failure that carries the
    message of the tool (the default text when the message is empty);
    the transcoding tool is not invoked and no file is read: the call
    made the directory, looked the cookie file up and spawned the one
    subprocess. *)
Theorem failed_extraction_is_reported
        (o : SubtitleDownloader.Options) (w : World)
        (c : SubtitleDownloader.Checked) (e : string) :
  SubtitleDownloader.validate o w = (Ok c, w) ->
  (mkdirSync (jobDir o c) w).1 = Ok tt ->
  (fetch o c w).1 = Throw e ->
  (SubtitleDownloader.downloadSubtitle o w).1
  = Ok (SubtitleDownloader.Failure
          (if truthy e then e else "Failed to download subtitle"))
  /\ new_events (SubtitleDownloader.downloadSubtitle o) w
     = [Mkdir (jobDir o c); Exists cookie; Spawn (fetchCommand o c w)].
Proof.
  intros Hv Hmk Hfetch.
  assert (SubtitleDownloader.downloadSubtitle o w
          = (Ok (SubtitleDownloader.Failure
                   (if truthy e then e else "Failed to download subtitle")),
             {| fs := (fetch o c w).2; log := log (fetch_world o c w) |})) as DS.
  { unfold SubtitleDownloader.downloadSubtitle, try_catch, bind. rewrite Hv.
    destruct c as [id locale ext type].
    unfold fetch, fetch_world, fetchCommand, jobDir, site in *.
    cbn [SubtitleDownloader.c_id SubtitleDownloader.c_locale
         SubtitleDownloader.c_ext SubtitleDownloader.c_type] in *.
    destruct (mkdirSync _ w) as [[[]|e0] wm]; cbn [fst snd] in *; [|discriminate].
    unfold existsSync, execSync, emit in *. cbn [fst snd fs log] in *.
    destruct (run _ _) as [[o1|e1] f1]; cbn [fst snd fs log] in *;
      [discriminate|].
    inversion Hfetch; subst e1. reflexivity. }
  split; [now rewrite DS|].
  apply new_events_appended. rewrite DS. cbn [snd log].
  apply fetch_world_log.
Qed.

(** X15. A subtitle that needs no conversion is delivered under the
    title of the sidecar that the tool wrote; when the sidecar is
    missing, cannot be parsed, or has no title, the request still
    succeeds and the identifier stands in for the title.  The file name
    is the title, the locale and the extension.  When the subtitle file
    itself is missing the answer is a failure. *)
Theorem title_falls_back_to_identifier
        (o : SubtitleDownloader.Options) (w : World)
        (c : SubtitleDownloader.Checked) (out : string) :
  SubtitleDownloader.validate o w = (Ok c, w) ->
  (mkdirSync (jobDir o c) w).1 = Ok tt ->
  (fetch o c w).1 = Ok out ->
  SubtitleDownloader.c_ext c = "." +:+ nativeExt o c ->
  let stored := files (fetch o c w).2 in
  let title :=
    match stored !! infoFile o c with
    | Some info =>
        match SubtitleDownloader.JSON_title info with
        | Ok parsed => or_else parsed (SubtitleDownloader.c_id c)
        | Throw _ => SubtitleDownloader.c_id c
        end
    | None => SubtitleDownloader.c_id c
    end in
  (forall content,
      stored !! convertedFile o c = Some content ->
      (SubtitleDownloader.downloadSubtitle o w).1
      = Ok (SubtitleDownloader.Success
              title
              (title +:+ "." +:+ SubtitleDownloader.c_locale c
                     +:+ SubtitleDownloader.c_ext c)
              (SubtitleDownloader.base64 content)))
  /\ (stored !! convertedFile o c = None ->
      exists message,
        (SubtitleDownloader.downloadSubtitle o w).1
        = Ok (SubtitleDownloader.Failure message)).
Proof.
  intros Hv Hmk Hfetch Hsame stored title.
  pose proof (downloadSubtitle_fetched o w c out Hv Hmk Hfetch) as DS.
  cbv zeta in DS. apply same_file_iff in Hsame. rewrite Hsame in DS.
  rewrite DS. clear DS.
  unfold SubtitleDownloader.deliver, bind, try_catch, readFileSync, ret, emit.
  cbn [fs log]. fold stored. subst title.
  split.
  - intros content Hc.
    destruct (stored !! infoFile o c) as [info|]; cbn [fs log].
    + destruct (SubtitleDownloader.JSON_title info) as [parsed|e];
        cbn [fs log]; fold stored; rewrite Hc; reflexivity.
    + fold stored. rewrite Hc. reflexivity.
  - intros Hc.
    destruct (stored !! infoFile o c) as [info|]; cbn [fs log].
    + destruct (SubtitleDownloader.JSON_title info) as [parsed|e];
        cbn [fs log]; fold stored; rewrite Hc; eexists; reflexivity.
    + fold stored. rewrite Hc. eexists. reflexivity.
Qed.

End Answers.

Lemma failed_extraction_is_reported_witness :
  (SubtitleDownloader.downloadSubtitle
     (H := Scenario.unavailable_host) (H0 := Scenario.sample_codec)
     Scenario.vtt_request Scenario.fresh).1
  = Ok (SubtitleDownloader.Failure
          ("Command failed: yt-dlp" +:+ nl +:+
           "ERROR: [youtube] dQw4w9WgXcQ: Video unavailable"))
  /\ spawned (new_events
                (SubtitleDownloader.downloadSubtitle
                   (H := Scenario.unavailable_host) (H0 := Scenario.sample_codec)
                   Scenario.vtt_request) Scenario.fresh)
     = ["yt-dlp --sub-lang 'en' -o '/app/tmp/dQw4w9WgXcQ/%(id)s.%(ext)s' --write-sub --skip-download --write-info-json https://www.youtube.com/watch?v=dQw4w9WgXcQ "].
Proof.
  destruct (failed_extraction_is_reported
              (H := Scenario.unavailable_host) (H0 := Scenario.sample_codec)
              Scenario.vtt_request Scenario.fresh
              (SubtitleDownloader.mkChecked "dQw4w9WgXcQ" "en" ".vtt" "native")
              ("Command failed: yt-dlp" +:+ nl +:+
               "ERROR: [youtube] dQw4w9WgXcQ: Video unavailable")
              eq_refl eq_refl eq_refl) as [Hr Hl].
  split; [exact Hr|]. rewrite Hl. vm_compute. reflexivity.
Defined.

(** The tool of the scenario writes a sidecar that the codec reads as
    [Sample title]; on a storage where it writes none the identifier is
    the title. *)
Lemma title_falls_back_to_identifier_witness :
  (SubtitleDownloader.downloadSubtitle
     (H := Scenario.no_transcoder_host) (H0 := Scenario.sample_codec)
     Scenario.vtt_request Scenario.fresh).1
  = Ok (SubtitleDownloader.Success "Sample title" "Sample title.en.vtt"
          ("base64:" +:+ Scenario.vtt_content))
  /\ (SubtitleDownloader.downloadSubtitle
        (H := DirectCase.bare_host) (H0 := Scenario.sample_codec)
        Scenario.vtt_request Scenario.fresh).1
     = Ok (SubtitleDownloader.Success "dQw4w9WgXcQ" "dQw4w9WgXcQ.en.vtt"
             ("base64:" +:+ Scenario.vtt_content)).
Proof.
  split.
  - destruct (title_falls_back_to_identifier
                (H := Scenario.no_transcoder_host) (H0 := Scenario.sample_codec)
                Scenario.vtt_request Scenario.fresh
                (SubtitleDownloader.mkChecked "dQw4w9WgXcQ" "en" ".vtt" "native")
                "[info] Writing video subtitles" eq_refl eq_refl eq_refl eq_refl)
      as [Hok _].
    apply (Hok Scenario.vtt_content). vm_compute. reflexivity.
  - destruct (title_falls_back_to_identifier
                (H := DirectCase.bare_host) (H0 := Scenario.sample_codec)
                Scenario.vtt_request Scenario.fresh
                (SubtitleDownloader.mkChecked "dQw4w9WgXcQ" "en" ".vtt" "native")
                "[info] Writing video subtitles" eq_refl eq_refl eq_refl eq_refl)
      as [Hok _].
    apply (Hok Scenario.vtt_content). vm_compute. reflexivity.
Defined.

End AnswerFacts.

(** ** Retention: what a cycle never does *)

Module RetentionFacts.
Import JsString Cleanup CleanupTerms CleanupFacts RetentionTerms.
Local Open Scope list_scope.
Local Open Scope Z_scope.

Lemma remove_children_subseteq (items : list string) (m : gmap string entry) :
  (remove_children items m).1 ⊆ m.
Proof.
  revert m. induction items as [|item items IH]; intros m; cbn [remove_children].
  - reflexivity.
  - destruct (m !! item) as [e|]; [|apply IH].
    destruct (locked e); [reflexivity|].
    transitivity (delete item m); [apply IH | apply delete_subseteq].
Qed.

Lemma cleanAllFiles_children (st : State) :
  children (root (cleanAllFiles st)) ⊆ children (root st).
Proof.
  unfold cleanAllFiles. destruct (root st) as [m|] eqn:Hr; cbn [root emit].
  - pose proof (remove_children_subseteq (readdir m) m) as Hs.
    destruct (remove_children (readdir m) m) as [m' []]; cbn [root set_root children] in *.
    + apply map_empty_subseteq.
    + exact Hs.
  - now rewrite Hr.
Qed.

Lemma checkLines_children (lines : list string) (st : State) :
  children (root (checkLines lines st)) ⊆ children (root st).
Proof.
  induction lines as [|line lines IH]; cbn [checkLines]; [reflexivity|].
  destruct (usage line) as [u|]; [|exact IH].
  destruct (maxDiskUsage <? u); [apply cleanAllFiles_children | exact IH].
Qed.

Lemma checkDiskSpace_children (df : Sys.outcome string) (st : State) :
  children (root (checkDiskSpace df st)) ⊆ children (root st).
Proof.
  unfold checkDiskSpace. destruct df as [out|e]; [|reflexivity].
  apply (checkLines_children _ (emit Df st)).
Qed.

(** One step of the sweep: the children shrink, by one exactly when the
    count grows by one. *)
Lemma sweepItem_step (now : Z) (st : State) (n t : Z) (item : string) :
  let r := sweepItem now (st, n, t) item in
  children (root r.1.1) ⊆ children (root st)
  /\ r.1.2 + count (root r.1.1) = n + count (root st).
Proof.
  unfold sweepItem, count.
  destruct (root st) as [m|] eqn:Hr; cbn [fst snd root emit];
    [|rewrite Hr; repeat split; reflexivity].
  destruct (m !! item) as [e|] eqn:He; cbn [fst snd root emit];
    [|rewrite Hr; repeat split; reflexivity].
  destruct (unreadable e); cbn [fst snd root emit];
    [rewrite Hr; repeat split; reflexivity|].
  destruct (maxAge <? now - mtime e); cbn [fst snd root emit];
    [|rewrite Hr; repeat split; reflexivity].
  destruct (locked e); cbn [fst snd root emit set_root children].
  - rewrite Hr. cbn [children]. repeat split; auto.
  - repeat split; auto.
    + apply delete_subseteq.
    + rewrite map_size_delete, He.
      assert (base.size m <> 0%nat) as Hne.
      { intros Hz. apply map_size_empty_inv in Hz. subst m.
        rewrite lookup_empty in He. discriminate. }
      lia.
Qed.

Lemma sweep_steps (now : Z) (items : list string) (st : State) (n t : Z) :
  let r := fold_left (sweepItem now) items (st, n, t) in
  children (root r.1.1) ⊆ children (root st)
  /\ r.1.2 + count (root r.1.1) = n + count (root st).
Proof.
  revert st n t. induction items as [|item items IH]; intros st n t;
    cbn [fold_left].
  - cbn. repeat split; reflexivity.
  - destruct (sweepItem_step now st n t item) as (S1 & C1).
    destruct (sweepItem now (st, n, t) item) as [[st1 n1] t1];
      cbn [fst snd] in *.
    destruct (IH st1 n1 t1) as (S2 & C2). cbv zeta in *.
    split.
    + etransitivity; eassumption.
    + lia.
Qed.

(** One step of the sweep adds the size of the entry when it takes it
    for an old regular file, before it tries to remove it. *)
Lemma sweepItem_bytes (now : Z) (st : State) (n t : Z) (item : string)
      (m : gmap string entry) :
  root st = Some m ->
  (sweepItem now (st, n, t) item).2
  = t + match m !! item with
        | Some e => old_file_size now e
        | None => 0
        end.
Proof.
  intros Hr. unfold sweepItem, old_file_size, expired. rewrite Hr.
  destruct (m !! item) as [e|]; cbn [snd]; [|lia].
  destruct (unreadable e), (maxAge <? now - mtime e), (locked e),
    (isDirectory e); cbn [snd negb andb]; lia.
Qed.

(** The names of a directory are distinct, so an entry is met as the
    sweep found it at the start. *)
Lemma sweep_bytes (now : Z) (m : gmap string entry) (items : list string) :
  forall (st : State) (n t : Z) (mc : gmap string entry),
    root st = Some mc ->
    NoDup items ->
    (forall k, k ∈ items -> mc !! k = m !! k) ->
    (fold_left (sweepItem now) items (st, n, t)).2
    = t + foldr Z.add 0
            (map (fun k => match m !! k with
                           | Some e => old_file_size now e
                           | None => 0
                           end) items).
Proof.
  induction items as [|item items IH]; intros st n t mc Hr Hnd Hsame.
  - cbn. lia.
  - cbn [fold_left map foldr].
    apply NoDup_cons in Hnd as [Hnotin Hnd].
    pose proof (sweepItem_bytes now st n t item mc Hr) as Hb.
    pose proof (sweepItem_root now st n t item mc Hr) as Hroot.
    destruct (sweepItem now (st, n, t) item) as [[st1 n1] t1].
    cbn [fst snd] in Hb, Hroot.
    rewrite (IH st1 n1 t1 _ Hroot Hnd).
    + rewrite Hb, (Hsame item) by apply list_elem_of_here. lia.
    + intros k Hk. rewrite <- (Hsame k) by (now apply list_elem_of_further).
      unfold sweep_step. destruct (mc !! item) as [e|]; [|reflexivity].
      destruct (removable now e); [|reflexivity].
      apply lookup_delete_ne. intros <-. contradiction.
Qed.

Lemma bytes_by_name (now : Z) (m : gmap string entry) :
  foldr Z.add 0
        (map (fun k => match m !! k with
                       | Some e => old_file_size now e
                       | None => 0
                       end) (readdir m))
  = old_file_bytes now m.
Proof.
  unfold old_file_bytes, readdir.
  assert (forall l : list (string * entry),
             (forall ke, ke ∈ l -> m !! ke.1 = Some ke.2) ->
             map (fun k => match m !! k with
                           | Some e => old_file_size now e
                           | None => 0
                           end) (l.*1)
             = map (fun ke : string * entry => old_file_size now ke.2) l) as H.
  { induction l as [|ke l IH]; intros Hl; [reflexivity|].
    cbn [fmap list_fmap map]. rewrite (Hl ke) by apply list_elem_of_here.
    f_equal. apply IH. intros x Hx. apply Hl. now apply list_elem_of_further. }
  rewrite H; [reflexivity|].
  intros [k e] Hin. now apply elem_of_map_to_list in Hin.
Qed.

Lemma runJobs_children (jobs : list job) (st : State) :
  children (root (fold_left runJob jobs st)) = children (root st).
Proof.
  revert st. induction jobs as [|[] jobs IH]; intros st; [reflexivity|].
  cbn [fold_left]. rewrite IH. unfold runJob.
  destruct (root st) as [m|] eqn:Hr; cbn [root emit set_root children].
  - now rewrite Hr.
  - reflexivity.
Qed.

Section Cycle.
Variable df : Sys.outcome string.
Variable now : Z.

(** X16. A retention cycle never adds a child to the temporary storage
    and never touches a regular file that it leaves: whatever the disk
    reports, whichever removals fail and whatever was queued, a child
    present after the cycle was present before it, of the same kind, and
    when it is a regular file it is unchanged. *)
Theorem cycle_never_adds_a_child (st : State) (item : string) (e' : entry) :
  children (root (cleanupCycle df now st)) !! item = Some e' ->
  exists e,
    children (root st) !! item = Some e
    /\ isDirectory e' = isDirectory e
    /\ (isDirectory e = false -> e' = e).
Proof.
  assert (children (root (cleanupCycle df now st)) ⊆ children (root st)) as Hs.
  { unfold cleanupCycle, runPending. rewrite runJobs_children. cbn [root].
    unfold cleanupFiles.
    transitivity (children (root (checkDiskSpace df st)));
      [|apply checkDiskSpace_children].
    unfold cleanOldFiles.
    destruct (root (checkDiskSpace df st)) as [m|] eqn:Hr.
    - destruct (sweep_steps now (readdir m)
                  (emit ReadDir (emit ExistsRoot (checkDiskSpace df st))) 0 0)
        as (S & _).
      cbn [root emit] in S. rewrite Hr in S. exact S.
    - cbn [fst root emit]. rewrite Hr. reflexivity. }
  intros He. exists e'. split; [|split; [reflexivity | reflexivity]].
  eapply lookup_weaken; eassumption.
Qed.

(** X17. The sweep counts what it removes: the number of old items it
    reports is the number of children that left the root.  The bytes it
    reports as freed are those of the regular files it found old, added
    before the removal is tried: the size of a file that could not be
    removed is among them, and the size of a directory never is. *)
Theorem sweep_counts_what_it_removes (st : State) :
  let swept := cleanOldFiles now st in
  swept.1.2 = count (root st) - count (root swept.1.1)
  /\ swept.2 = old_file_bytes now (children (root st)).
Proof.
  unfold cleanOldFiles.
  destruct (root st) as [m|] eqn:Hr; cbn [fst snd root emit children].
  2:{ rewrite Hr. split; [unfold count; lia | reflexivity]. }
  destruct (sweep_steps now (readdir m) (emit ReadDir (emit ExistsRoot st)) 0 0)
    as (_ & C).
  cbn [root emit] in C. rewrite Hr in C. cbv zeta.
  split; [lia|].
  rewrite (sweep_bytes now m (readdir m) _ 0 0 m).
  - rewrite bytes_by_name. lia.
  - exact Hr.
  - unfold readdir. apply NoDup_fst_map_to_list.
  - reflexivity.
Qed.

(** X18. Under the ceiling, a second cycle at the same instant finds
    nothing left to do: the children after two cycles are those after
    one. *)
Theorem second_sweep_changes_nothing (st : State) (m : gmap string entry) :
  overCeiling df = false ->
  root st = Some m ->
  root (cleanupCycle df now (cleanupCycle df now st))
  = root (cleanupCycle df now st).
Proof.
  intros Hunder Hr.
  assert (forall st0 m0,
             root st0 = Some m0 ->
             root (cleanupCycle df now st0)
             = Some (fold_left (sweep_step now) (readdir m0) m0)) as Hcycle.
  { intros st0 m0 H0. unfold cleanupCycle. apply runPending_root_some.
    unfold cleanupFiles. rewrite (checkDiskSpace_under df st0 Hunder).
    unfold cleanOldFiles. cbn [root emit]. rewrite H0.
    apply sweep_root. exact H0. }
  rewrite (Hcycle _ _ (Hcycle st m Hr)), (Hcycle st m Hr). f_equal.
  apply map_eq. intros k. rewrite !sweep_all_lookup.
  destruct (m !! k) as [e|]; [|reflexivity].
  destruct (removable now e) eqn:Hrem; [reflexivity|]. now rewrite Hrem.
Qed.

End Cycle.

(** The stale file that cannot be removed is there after the cycle, as
    it was. *)
Lemma cycle_never_adds_a_child_witness :
  exists e,
    children (root (Scenario.storage Scenario.three_jobs)) !! "core.1234" = Some e
    /\ isDirectory Scenario.stuck = isDirectory e
    /\ (isDirectory e = false -> Scenario.stuck = e).
Proof.
  apply (cycle_never_adds_a_child (Scenario.df_at "40") Scenario.noon
           (Scenario.storage Scenario.three_jobs) "core.1234" Scenario.stuck).
  vm_compute. reflexivity.
Defined.

Lemma second_sweep_changes_nothing_witness :
  root (cleanupCycle (Scenario.df_at "42") Scenario.noon
          (cleanupCycle (Scenario.df_at "42") Scenario.noon
             (Scenario.storage Scenario.two_jobs)))
  = root (cleanupCycle (Scenario.df_at "42") Scenario.noon
            (Scenario.storage Scenario.two_jobs)).
Proof.
  apply (second_sweep_changes_nothing (Scenario.df_at "42") Scenario.noon
           (Scenario.storage Scenario.two_jobs) Scenario.two_jobs); reflexivity.
Defined.

End RetentionFacts.

(** ** The rate limiter *)

Module RateLimitFacts.
Import JsString RateLimit RateLimitTerms.
Local Open Scope list_scope.
Local Open Scope Z_scope.

Lemma filter_later (span now now' : Z) (l : list Z) :
  now <= now' ->
  List.filter (fun t => now' - t <? span) (List.filter (fun t => now - t <? span) l)
  = List.filter (fun t => now' - t <? span) l.
Proof.
  intros Hle. induction l as [|t l IH]; [reflexivity|]. cbn [List.filter].
  destruct (Z.ltb_spec (now - t) span) as [H1|H1]; cbn [List.filter].
  - now rewrite IH.
  - rewrite IH. destruct (Z.ltb_spec (now' - t) span); [lia | reflexivity].
Qed.

Lemma filter_cutoff (now : Z) (l : list Z) :
  List.filter (fun t => now - 60 * 60 * 1000 <? t) l
  = List.filter (fun t => now - t <? 60 * 60 * 1000) l.
Proof.
  apply List.filter_ext. intros t.
  destruct (Z.ltb_spec (now - 60 * 60 * 1000) t),
           (Z.ltb_spec (now - t) (60 * 60 * 1000)); try reflexivity; lia.
Qed.

Lemma length_zero_nil {A} (l : list A) : (length l =? 0)%nat = true -> l = [].
Proof. destruct l; [reflexivity | discriminate]. Qed.

(** The record of a client after the clean-up: its two lists,
    filtered. *)
Lemma cleanup_record (now : Z) (store : gmap string ClientData) (client : string) :
  record_of (cleanupOldEntries now store) client
  = mkClientData
      (List.filter (fun t => now - t <? RATE_LIMIT_WINDOW)
                   (requests (record_of store client)))
      (List.filter (fun t => now - t <? 60 * 60 * 1000)
                   (hourlyRequests (record_of store client))).
Proof.
  unfold record_of, cleanupOldEntries. cbv zeta.
  rewrite lookup_omap.
  destruct (store !! client) as [data|]; cbn [default option_bind mbind];
    [|reflexivity].
  rewrite filter_cutoff.
  destruct (_ && _) eqn:E; cbn [default]; [|reflexivity].
  apply andb_true_iff in E as [E1 E2]. change (id data) with data.
  now rewrite (length_zero_nil _ E1), (length_zero_nil _ E2).
Qed.

(** The record of a client before the request is counted. *)
Lemma record_after_get_or_create (store : gmap string ClientData) (c client : string) :
  record_of (match store !! c with
             | Some _ => store
             | None => <[c := mkClientData [] []]> store
             end) client
  = record_of store client.
Proof.
  unfold record_of. destruct (store !! c) eqn:Hc; [reflexivity|].
  destruct (decide (client = c)) as [->|Hne].
  - now rewrite lookup_insert_eq, Hc.
  - now rewrite lookup_insert_ne.
Qed.

Lemma instants_snoc (client c : string) (now : Z) (passed : list (string * Z)) :
  instants client (passed ++ [(c, now)])
  = instants client passed ++ (if String.eqb c client then [now] else []).
Proof.
  unfold instants. rewrite List.filter_app, map_app. cbn [List.filter fst].
  now destruct (String.eqb c client).
Qed.

Lemma filter_twice (span now : Z) (l : list Z) :
  List.filter (fun t => now - t <? span) (List.filter (fun t => now - t <? span) l)
  = List.filter (fun t => now - t <? span) l.
Proof. apply filter_later. lia. Qed.

(** One request: whether it passes is read off the history, and the
    store goes on tracking the history. *)
Lemma rateLimiter_step (req : Request) (now last : Z) (store : gmap string ClientData)
      (passed : list (string * Z)) :
  tracks store passed last ->
  last <= now ->
  let c := getClientIP req in
  let r := rateLimiter req now store in
  let_through r.1
  = (lately RATE_LIMIT_WINDOW now (instants c passed) <? 30)%nat
    && (lately (60 * 60 * 1000) now (instants c passed) <? 200)%nat
  /\ tracks r.2 (if let_through r.1 then passed ++ [(c, now)] else passed) now.
Proof.
  intros Ht Hle c r. subst r. unfold rateLimiter. fold c. cbv zeta.
  set (store1 := cleanupOldEntries now store).
  set (store2 := match store1 !! c with
                 | Some _ => store1
                 | None => <[c := mkClientData [] []]> store1
                 end).
  assert (forall client, record_of store2 client
                         = mkClientData
                             (List.filter (fun t => now - t <? RATE_LIMIT_WINDOW)
                                (requests (record_of store client)))
                             (List.filter (fun t => now - t <? 60 * 60 * 1000)
                                (hourlyRequests (record_of store client))))
    as Hrec.
  { intros client. unfold store2. rewrite record_after_get_or_create.
    apply cleanup_record. }
  assert (tracks store2 passed now) as Ht2.
  { intros client now' Hn. rewrite Hrec. cbn [requests hourlyRequests].
    rewrite !filter_later by exact Hn. apply Ht. lia. }
  fold (record_of store2 c). rewrite (Hrec c). cbn [requests hourlyRequests].
  rewrite !filter_twice.
  destruct (Ht c now Hle) as [Hm Hh]. rewrite Hm, Hh.
  fold (lately RATE_LIMIT_WINDOW now (instants c passed)).
  fold (lately (60 * 60 * 1000) now (instants c passed)).
  set (minute := lately RATE_LIMIT_WINDOW now (instants c passed)).
  set (hour := lately (60 * 60 * 1000) now (instants c passed)).
  unfold RATE_LIMIT_MAX_REQUESTS, RATE_LIMIT_MAX_REQUESTS_PER_HOUR.
  destruct (Z.leb_spec 30 (Z.of_nat minute)) as [Hmin|Hmin].
  { cbn [fst snd let_through].
    replace (minute <? 30)%nat with false
      by (symmetry; apply Nat.ltb_ge; lia).
    split; [reflexivity | exact Ht2]. }
  replace (minute <? 30)%nat with true by (symmetry; apply Nat.ltb_lt; lia).
  destruct (Z.leb_spec 200 (Z.of_nat hour)) as [Hhr|Hhr].
  { cbn [fst snd let_through].
    replace (hour <? 200)%nat with false
      by (symmetry; apply Nat.ltb_ge; lia).
    split; [reflexivity | exact Ht2]. }
  replace (hour <? 200)%nat with true by (symmetry; apply Nat.ltb_lt; lia).
  cbn [fst snd let_through]. split; [reflexivity|].
  intros client now' Hn. rewrite instants_snoc. unfold record_of.
  destruct (String.eqb_spec c client) as [<-|Hne].
  - rewrite lookup_insert_eq. cbn [default]. unfold id.
    cbn [requests hourlyRequests].
    rewrite !List.filter_app, !filter_later by exact Hn. split; reflexivity.
  - rewrite lookup_insert_ne by exact Hne. rewrite !app_nil_r.
    apply (Ht2 client now' Hn).
Qed.


Lemma in_window_snoc (span upto now : Z) (l : list Z) :
  in_window span upto (l ++ [now])
  = (in_window span upto l
     + if (now <=? upto)%Z && (upto - now <? span)%Z then 1 else 0)%nat.
Proof.
  unfold in_window. rewrite List.filter_app, length_app. cbn [List.filter].
  now destruct ((now <=? upto) && (upto - now <? span)).
Qed.

(** Seen from a later instant, fewer instants are recent. *)
Lemma in_window_lately (span upto now : Z) (l : list Z) :
  now <= upto ->
  (in_window span upto l <= lately span now l)%nat.
Proof.
  intros Hle. unfold in_window, lately.
  induction l as [|t l IH]; [reflexivity|]. cbn [List.filter].
  destruct (Z.leb_spec t upto), (Z.ltb_spec (upto - t) span),
    (Z.ltb_spec (now - t) span); cbn [andb length]; lia.
Qed.

(** Letting one more request through, after a check against the last
    minute and the last hour, keeps every window within the limits. *)
Lemma bounded_snoc (passed : list (string * Z)) (c : string) (now : Z) :
  bounded passed ->
  (lately RATE_LIMIT_WINDOW now (instants c passed) < 30)%nat ->
  (lately (60 * 60 * 1000) now (instants c passed) < 200)%nat ->
  bounded (passed ++ [(c, now)]).
Proof.
  intros Hb Hm Hh client upto. rewrite instants_snoc.
  destruct (Hb client upto) as [Bm Bh].
  destruct (String.eqb_spec c client) as [<-|Hne];
    [|rewrite app_nil_r; auto].
  rewrite !in_window_snoc.
  destruct (Z.leb_spec now upto) as [Hle|Hgt]; cbn [andb].
  - pose proof (in_window_lately RATE_LIMIT_WINDOW upto now (instants c passed) Hle).
    pose proof (in_window_lately (60 * 60 * 1000) upto now (instants c passed) Hle).
    split; [destruct (upto - now <? RATE_LIMIT_WINDOW)
           | destruct (upto - now <? 60 * 60 * 1000)]; lia.
  - split; lia.
Qed.

(** The requests of a run, served one after the other. *)
Lemma serve_invariant (reqs : list (Request * Z)) :
  forall store passed last,
    tracks store passed last ->
    bounded passed ->
    clock_from last reqs ->
    exists last',
      tracks (serve reqs store passed).1 (serve reqs store passed).2 last'
      /\ bounded (serve reqs store passed).2
      /\ last <= last'
      /\ (forall req now, clock_from last (reqs ++ [(req, now)]) -> last' <= now).
Proof.
  induction reqs as [|[req now] reqs IH]; intros store passed last Ht Hb Hc.
  - exists last. cbn [serve fst snd app].
    split; [exact Ht|]. split; [exact Hb|]. split; [lia|].
    intros req0 now0 [H0 _]. exact H0.
  - destruct Hc as [Hle Hc]. cbn [serve].
    destruct (rateLimiter_step req now last store passed Ht Hle) as [Ha Ht'].
    cbv zeta in Ha, Ht'.
    destruct (rateLimiter req now store) as [v store'] eqn:Hr.
    cbn [fst snd] in Ha, Ht'.
    assert (bounded (if let_through v
                     then passed ++ [(getClientIP req, now)] else passed)) as Hb'.
    { destruct (let_through v); [|exact Hb].
      symmetry in Ha. apply andb_true_iff in Ha as [Hm Hh].
      apply Nat.ltb_lt in Hm, Hh. now apply bounded_snoc. }
    destruct (IH store' _ now Ht' Hb' Hc) as (last' & T & B & L & N).
    exists last'.
    split; [exact T|]. split; [exact B|]. split; [lia|].
    intros req' now' [_ Hc']. exact (N req' now' Hc').
Qed.

Lemma tracks_empty (last : Z) : tracks ∅ [] last.
Proof.
  intros client now _. unfold record_of. rewrite lookup_empty. split; reflexivity.
Qed.

Lemma bounded_nil : bounded [].
Proof. intros client upto. cbn. lia. Qed.

Lemma clock_ok_from (reqs : list (Request * Z)) :
  clock_ok reqs -> exists last, clock_from last reqs.
Proof.
  destruct reqs as [|[req now] reqs]; [exists 0; exact I|].
  intros H. exists now. exact H.
Qed.

(** X19. Started with an empty store and served by a clock that never
    runs backwards, the rate limiter lets a request through exactly
    when fewer than 30 requests of the same client were let through
    during the minute before it and fewer than 200 during the hour
    before it: requests that were turned down do not count. *)
Theorem admission_follows_history
        (reqs : list (Request * Z)) (req : Request) (now : Z) :
  clock_ok (reqs ++ [(req, now)]) ->
  let_through (rateLimiter req now (serve reqs ∅ []).1).1
  = (lately RATE_LIMIT_WINDOW now
            (instants (getClientIP req) (serve reqs ∅ []).2) <? 30)%nat
    && (lately (60 * 60 * 1000) now
               (instants (getClientIP req) (serve reqs ∅ []).2) <? 200)%nat.
Proof.
  intros Hc. destruct (clock_ok_from _ Hc) as [last Hl].
  assert (clock_from last reqs) as Hreqs.
  { clear Hc. revert last Hl. induction reqs as [|[r t] reqs IH]; intros last Hl;
      [exact I|]. destruct Hl as [H1 H2]. split; [exact H1 | now apply IH]. }
  destruct (serve_invariant reqs ∅ [] last (tracks_empty last) bounded_nil Hreqs)
    as (last' & T & _ & _ & N).
  exact (proj1 (rateLimiter_step req now last' _ _ T (N req now Hl))).
Qed.

(** Thirty requests of one client within a second pass; the next one,
    a second later, is turned down, and one that comes a minute after
    the first passes again. *)
Lemma admission_follows_history_witness :
  let_through (rateLimiter (direct "203.0.113.7") 2000
              (serve (burst (direct "203.0.113.7") 1000 30) ∅ []).1).1 = false
  /\ let_through (rateLimiter (direct "203.0.113.7") 61000
                 (serve (burst (direct "203.0.113.7") 1000 30) ∅ []).1).1 = true.
Proof.
  split.
  - rewrite (admission_follows_history
               (burst (direct "203.0.113.7") 1000 30) (direct "203.0.113.7") 2000).
    + vm_compute. reflexivity.
    + cbn [burst repeat app clock_ok clock_from]. repeat split; lia.
  - rewrite (admission_follows_history
               (burst (direct "203.0.113.7") 1000 30) (direct "203.0.113.7") 61000).
    + vm_compute. reflexivity.
    + cbn [burst repeat app clock_ok clock_from]. repeat split; lia.
Defined.

(** X20. Started with an empty store and served by a clock that never
    runs backwards, the rate limiter lets through at most 30 requests
    of one client in any window of one minute, and at most 200 in any
    window of one hour, wherever the window lies. *)
Theorem no_window_exceeds_the_limits
        (reqs : list (Request * Z)) (client : string) (upto : Z) :
  clock_ok reqs ->
  let passed := (serve reqs ∅ []).2 in
  (in_window RATE_LIMIT_WINDOW upto (instants client passed) <= 30)%nat
  /\ (in_window (60 * 60 * 1000) upto (instants client passed) <= 200)%nat.
Proof.
  intros Hc. destruct (clock_ok_from _ Hc) as [last Hl].
  destruct (serve_invariant reqs ∅ [] last (tracks_empty last) bounded_nil Hl)
    as (_ & _ & B & _).
  apply B.
Qed.

(** Of forty requests of one client at one instant, thirty pass. *)
Lemma no_window_exceeds_the_limits_witness :
  length (serve (burst (direct "203.0.113.7") 1000 40) ∅ []).2 = 30%nat
  /\ (in_window RATE_LIMIT_WINDOW 1000
        (instants "203.0.113.7"
           (serve (burst (direct "203.0.113.7") 1000 40) ∅ []).2) <= 30)%nat
  /\ (in_window (60 * 60 * 1000) 1000
        (instants "203.0.113.7"
           (serve (burst (direct "203.0.113.7") 1000 40) ∅ []).2) <= 200)%nat.
Proof.
  split; [vm_compute; reflexivity|].
  apply (no_window_exceeds_the_limits
           (burst (direct "203.0.113.7") 1000 40) "203.0.113.7" 1000).
  cbn [burst repeat clock_ok clock_from]. repeat split; lia.
Defined.

Lemma cleanup_kept (now : Z) (store : gmap string ClientData)
      (client : string) (data : ClientData) :
  cleanupOldEntries now store !! client = Some data ->
  exists t, (In t (requests data) \/ In t (hourlyRequests data))
            /\ now - t < 60 * 60 * 1000.
Proof.
  unfold cleanupOldEntries. cbv zeta. rewrite lookup_omap.
  destruct (store !! client) as [d0|]; cbn [option_bind mbind]; [|discriminate].
  destruct (_ && _) eqn:E; [discriminate|]. intros H. inversion H; subst data.
  cbn [requests hourlyRequests].
  apply andb_false_iff in E as [E|E].
  - destruct (List.filter _ (requests d0)) as [|t l] eqn:F; [discriminate|].
    exists t. split; [left; now left|].
    assert (In t (List.filter (fun timestamp => now - timestamp <? RATE_LIMIT_WINDOW)
                              (requests d0))) as Hin by (rewrite F; now left).
    apply List.filter_In in Hin as [_ Hin]. apply Z.ltb_lt in Hin.
    unfold RATE_LIMIT_WINDOW in Hin. lia.
  - destruct (List.filter _ (hourlyRequests d0)) as [|t l] eqn:F; [discriminate|].
    exists t. split; [right; now left|].
    assert (In t (List.filter (fun timestamp => now - 60 * 60 * 1000 <? timestamp)
                              (hourlyRequests d0))) as Hin by (rewrite F; now left).
    apply List.filter_In in Hin as [_ Hin]. apply Z.ltb_lt in Hin. lia.
Qed.

(** X21. The store never keeps an idle client: after any request,
    whatever the store held before, every client in it has a request
    on record that was let through less than an hour ago.  A request
    that is turned down leaves no trace: the store is as the clean-up
    left it. *)
Theorem store_keeps_no_idle_client
        (req : Request) (now : Z) (store : gmap string ClientData) :
  (forall client data,
      (rateLimiter req now store).2 !! client = Some data ->
      exists t, (In t (requests data) \/ In t (hourlyRequests data))
                /\ now - t < 60 * 60 * 1000)
  /\ (let_through (rateLimiter req now store).1 = false ->
      (rateLimiter req now store).2 = cleanupOldEntries now store).
Proof.
  unfold rateLimiter. cbv zeta.
  set (c := getClientIP req).
  set (store1 := cleanupOldEntries now store).
  assert (forall client data,
             client <> c \/ is_Some (store1 !! c) ->
             match store1 !! c with
             | Some _ => store1
             | None => <[c := mkClientData [] []]> store1
             end !! client = Some data ->
             exists t, (In t (requests data) \/ In t (hourlyRequests data))
                       /\ now - t < 60 * 60 * 1000) as Hkept.
  { intros client data Hc. destruct (store1 !! c) eqn:E.
    - apply cleanup_kept.
    - destruct Hc as [Hne|[x Hx]]; [|discriminate].
      rewrite lookup_insert_ne by congruence. apply cleanup_kept. }
  destruct (store1 !! c) as [d|] eqn:Hd; cbn [default]; unfold id.
  - destruct (RATE_LIMIT_MAX_REQUESTS <=? _);
      [cbn [fst snd let_through]; split; [intros client data; apply Hkept; eauto | reflexivity]|].
    destruct (RATE_LIMIT_MAX_REQUESTS_PER_HOUR <=? _);
      [cbn [fst snd let_through]; split; [intros client data; apply Hkept; eauto | reflexivity]|].
    cbn [fst snd let_through]. split; [|discriminate].
    intros client data. destruct (decide (client = c)) as [->|Hne].
    + rewrite lookup_insert_eq. intros E. inversion E; subst data.
      exists now. cbn [requests]. split; [left; apply in_or_app; right; now left | lia].
    + rewrite lookup_insert_ne by congruence. apply Hkept. now left.
  - rewrite lookup_insert_eq. cbn [default]. unfold id.
    cbn [requests hourlyRequests List.filter length].
    change (RATE_LIMIT_MAX_REQUESTS <=? Z.of_nat 0) with false.
    change (RATE_LIMIT_MAX_REQUESTS_PER_HOUR <=? Z.of_nat 0) with false.
    cbn [fst snd let_through app]. split; [|discriminate].
    intros client data. destruct (decide (client = c)) as [->|Hne].
    + rewrite lookup_insert_eq. intros E. inversion E; subst data.
      exists now. cbn [requests]. split; [left; now left | lia].
    + rewrite lookup_insert_ne by congruence.
      rewrite lookup_insert_ne by congruence. apply cleanup_kept.
Qed.

Lemma or_else_truthy (o : option string) (d : string) :
  truthy d = true -> truthy (or_else o d) = true.
Proof.
  intros Hd. destruct o as [s|]; cbn [or_else]; [|exact Hd].
  destruct (truthy s) eqn:E; [exact E | exact Hd].
Qed.

(** X22. The key under which a request is counted is never the empty
    string.  It is the first field of the [X-Forwarded-For] header,
    trimmed, whenever the request has that header and the field is not
    blank, whatever the address of the connection; without it, the
    first address that is present among the four others, and
    [unknown] when there is none. *)
Theorem client_key_is_never_empty (req : Request) :
  truthy (getClientIP req) = true
  /\ (forall header,
         x_forwarded_for req = Some header ->
         truthy (trim (first_field header)) = true ->
         getClientIP req = trim (first_field header))
  /\ (otruthy (option_map (fun header => trim (first_field header))
                          (x_forwarded_for req)) = false ->
      otruthy (x_real_ip req) = false ->
      otruthy (connection_remoteAddress req) = false ->
      otruthy (socket_remoteAddress req) = false ->
      otruthy (ip req) = false ->
      getClientIP req = "unknown").
Proof.
  split; [|split].
  - unfold getClientIP. repeat apply or_else_truthy. reflexivity.
  - intros header Hh Ht. unfold getClientIP. rewrite Hh. cbn [option_map or_else].
    now rewrite Ht.
  - unfold getClientIP, otruthy.
    destruct (x_forwarded_for req) as [h|]; cbn [option_map or_else];
      [intros ->|intros _];
      (destruct (x_real_ip req); cbn [or_else]; [intros ->|intros _]);
      (destruct (connection_remoteAddress req); cbn [or_else]; [intros ->|intros _]);
      (destruct (socket_remoteAddress req); cbn [or_else]; [intros ->|intros _]);
      (destruct (ip req); cbn [or_else]; [intros ->|intros _]); reflexivity.
Qed.


Lemma cleanup_fresh (now : Z) (store : gmap string ClientData)
      (client : string) (data : ClientData) :
  cleanupOldEntries now store !! client = Some data -> fresh_at now data.
Proof.
  unfold cleanupOldEntries. cbv zeta. rewrite lookup_omap.
  destruct (store !! client) as [d0|]; cbn [option_bind mbind]; [|discriminate].
  destruct (_ && _) eqn:E; [discriminate|]. intros H. inversion H; subst data.
  unfold fresh_at. cbn [requests hourlyRequests]. split; [apply filter_twice|].
  rewrite filter_cutoff, filter_twice. rewrite filter_cutoff in E.
  apply andb_false_iff in E as [E|E]; [left|right]; intros Hnil;
    rewrite Hnil in E; discriminate.
Qed.

Lemma rateLimiter_fresh (req : Request) (now : Z) (store : gmap string ClientData)
      (client : string) (data : ClientData) :
  (rateLimiter req now store).2 !! client = Some data -> fresh_at now data.
Proof.
  unfold rateLimiter. cbv zeta.
  set (c := getClientIP req).
  set (store1 := cleanupOldEntries now store).
  pose proof (cleanup_fresh now store) as Hclean. fold store1 in Hclean.
  assert (forall recent hourly,
             List.filter (fun t => now - t <? RATE_LIMIT_WINDOW) recent = recent ->
             fresh_at now (mkClientData (recent ++ [now]) (hourly ++ [now])))
    as Hnew.
  { intros recent hourly Hr. unfold fresh_at. cbn [requests hourlyRequests].
    rewrite List.filter_app, Hr. cbn [List.filter].
    replace (now - now <? RATE_LIMIT_WINDOW) with true
      by (symmetry; apply Z.ltb_lt; unfold RATE_LIMIT_WINDOW; lia).
    split; [reflexivity|]. left. now destruct recent. }
  destruct (store1 !! c) as [d|] eqn:Hd; cbn [default]; unfold id.
  - destruct (RATE_LIMIT_MAX_REQUESTS <=? _); [cbn [snd]; apply Hclean|].
    destruct (RATE_LIMIT_MAX_REQUESTS_PER_HOUR <=? _); [cbn [snd]; apply Hclean|].
    cbn [snd]. destruct (decide (client = c)) as [->|Hne].
    + rewrite lookup_insert_eq. intros E. inversion E; subst data.
      apply Hnew, filter_twice.
    + rewrite lookup_insert_ne by congruence. apply Hclean.
  - rewrite lookup_insert_eq. cbn [default]. unfold id.
    cbn [requests hourlyRequests List.filter length].
    change (RATE_LIMIT_MAX_REQUESTS <=? Z.of_nat 0) with false.
    change (RATE_LIMIT_MAX_REQUESTS_PER_HOUR <=? Z.of_nat 0) with false.
    cbn [snd]. destruct (decide (client = c)) as [->|Hne].
    + rewrite lookup_insert_eq. intros E. inversion E; subst data.
      now apply (Hnew [] []).
    + rewrite !lookup_insert_ne by congruence. apply Hclean.
Qed.

Lemma countClient_fresh (now : Z) (l : list ClientData) (stats : Stats) :
  Forall (fresh_at now) l ->
  let total := fold_left (countClient now) l stats in
  totalClients total = totalClients stats
  /\ activeClients total = activeClients stats + Z.of_nat (length l)
  /\ totalRequests total - requestsLastMinute total
     = totalRequests stats - requestsLastMinute stats.
Proof.
  intros Hl. revert stats.
  induction Hl as [|d l [Hd1 Hd2] _ IH]; intros stats; cbn [fold_left].
  - cbv zeta. repeat split; try reflexivity. cbn. lia.
  - destruct (IH (countClient now stats d)) as (T & A & R). cbv zeta in *.
    rewrite T, A, R. unfold countClient at 1 2 3 4.
    cbn [totalClients activeClients totalRequests requestsLastMinute].
    rewrite Hd1. split; [reflexivity|]. split; [|lia].
    assert ((0 <? length (requests d))%nat
            || (0 <? length (List.filter (fun t => (now - t <? 60 * 60 * 1000)%Z)
                                         (hourlyRequests d)))%nat = true) as ->.
    { apply orb_true_iff.
      destruct Hd2 as [H|H]; [left|right]; apply Nat.ltb_lt;
        [destruct (requests d) | destruct (List.filter _ (hourlyRequests d))];
        cbn; try contradiction; lia. }
    cbn [length]. lia.
Qed.

(** X23. The statistics taken at the instant of a request, right after
    it, count every client of the store as active, and every request on
    record as one of the last minute: the request has cleaned the store
    of everything older. *)
Theorem statistics_after_a_request
        (req : Request) (now : Z) (store : gmap string ClientData) :
  let stats := getRateLimitStats now (rateLimiter req now store).2 in
  totalClients stats = Z.of_nat (base.size (rateLimiter req now store).2)
  /\ activeClients stats = totalClients stats
  /\ requestsLastMinute stats = totalRequests stats.
Proof.
  cbv zeta. unfold getRateLimitStats.
  set (store' := (rateLimiter req now store).2).
  assert (Forall (fresh_at now) (map_to_list store').*2) as Hall.
  { apply List.Forall_forall. intros d Hd.
    apply in_map_iff in Hd as ([k d'] & <- & Hin).
    apply (rateLimiter_fresh req now store k d').
    apply elem_of_map_to_list, list_elem_of_In. exact Hin. }
  destruct (countClient_fresh now _
              {| totalClients := Z.of_nat (base.size store');
                 activeClients := 0; totalRequests := 0;
                 requestsLastMinute := 0; requestsLastHour := 0 |} Hall)
    as (T & A & R).
  cbv zeta in T, A, R. cbn [totalClients activeClients totalRequests
                            requestsLastMinute] in T, A, R.
  rewrite T, A. split; [reflexivity|]. split; [|lia].
  rewrite length_fmap, length_map_to_list. lia.
Qed.

End RateLimitFacts.

(** ** The statistics of the temporary storage *)

Module CleanupStatsFacts.
Import JsString JsNumber Regex Sys CleanupStats CleanupStatsTerms.
Local Open Scope list_scope.
Local Open Scope Z_scope.

Lemma bytes_app (l k : list (Z * Z)) : bytes (l ++ k) = bytes l + bytes k.
Proof. unfold bytes. induction l as [|f l IH]; cbn; [reflexivity | lia]. Qed.

Lemma old_ones_app (now : Z) (l k : list (Z * Z)) :
  old_ones now (l ++ k) = old_ones now l ++ old_ones now k.
Proof. unfold old_ones. apply List.filter_app. Qed.

Lemma counted_nil (now : Z) (acc : Counters) : counted now acc [] = acc.
Proof. destruct acc. unfold counted. cbn. f_equal; lia. Qed.

Lemma counted_app (now : Z) (acc : Counters) (l k : list (Z * Z)) :
  counted now (counted now acc l) k = counted now acc (l ++ k).
Proof.
  unfold counted. cbn [c_totalFiles c_totalSize c_oldFiles].
  rewrite bytes_app, old_ones_app, !length_app. f_equal; lia.
Qed.

(** The scan of readable items adds their files to the counters; the
    scan of items of which one is not readable throws. *)
Lemma scan_spec (now : Z) :
  forall n acc,
    if readable n
    then scanItem now n acc = Ok (counted now acc (files_below n))
    else exists e, scanItem now n acc = Throw e.
Proof.
  apply (node_entries_ind
           (fun n => forall acc,
                if readable n
                then scanItem now n acc = Ok (counted now acc (files_below n))
                else exists e, scanItem now n acc = Throw e)
           (fun l => forall acc,
                if all_readable l
                then scanItems now l acc = Ok (counted now acc (files_among l))
                else exists e, scanItems now l acc = Throw e)).
  - intros mtime size acc. cbn [readable scanItem files_below]. cbv zeta.
    unfold counted, old_ones. cbn [length bytes fold_right snd fst List.filter].
    destruct (Cleanup.maxAge <? now - mtime); cbn [length]; do 2 f_equal; lia.
  - intros items IH acc. exact (IH acc).
  - intros message acc. cbn. eauto.
  - intros acc. cbn [all_readable scanItems files_among].
    now rewrite counted_nil.
  - intros name child IHc rest IHr acc.
    cbn [all_readable scanItems files_among].
    specialize (IHc acc). destruct (readable child); cbn [andb].
    + rewrite IHc. specialize (IHr (counted now acc (files_below child))).
      destruct (all_readable rest); [|exact IHr].
      now rewrite IHr, counted_app.
    + destruct IHc as [e ->]. eauto.
Qed.

(** X24. [getCleanupStats] counts every regular file below the
    temporary storage, at any depth, once: the number of files, their
    bytes in rounded megabytes, and among them the files older than the
    maximal age, which are never more than the files; the age of a
    directory plays no part.  The disk usage is what [df] reports, or
    [unknown].  Where the scan meets an item that cannot be read the
    answer is the error alone, and where the storage does not exist it
    is zero files and an unknown usage. *)
Theorem statistics_count_every_file
        (dir : string) (tree : node) (df : outcome string) (now : Z) :
  (is_directory tree = true ->
   readable tree = true ->
   getCleanupStats dir (Some tree) df now
   = Statistics
       {| totalFiles := Z.of_nat (length (files_below tree));
          totalSize :=
            scaled_round 0 (inject_Z (bytes (files_below tree)) / 1024 / 1024);
          oldFiles := Z.of_nat (length (old_ones now (files_below tree)));
          diskUsage := usageLabel df;
          maxAge := Some 24;
          tmpDir := Some dir |}
   /\ (length (old_ones now (files_below tree)) <= length (files_below tree))%nat)
  /\ (readable tree = false ->
      exists e, getCleanupStats dir (Some tree) df now = Error e)
  /\ getCleanupStats dir None df now
     = Statistics {| totalFiles := 0; totalSize := 0; oldFiles := 0;
                     diskUsage := "unknown"; maxAge := None; tmpDir := None |}.
Proof.
  split; [|split; [|reflexivity]].
  - intros Hd Hr. split; [|apply List.filter_length_le].
    unfold getCleanupStats, scanDirectory.
    pose proof (scan_spec now tree (mkCounters 0 0 0)) as Hs. rewrite Hr in Hs.
    destruct tree as [m s|items|e]; try discriminate.
    rewrite Hs. unfold counted. cbn [c_totalFiles c_totalSize c_oldFiles].
    rewrite !Z.add_0_l. reflexivity.
  - intros Hr. unfold getCleanupStats, scanDirectory.
    pose proof (scan_spec now tree (mkCounters 0 0 0)) as Hs. rewrite Hr in Hs.
    destruct Hs as [e Hs].
    destruct tree as [m s|items|e']; [discriminate| |]; rewrite Hs; eauto.
Qed.

(** The storage of the scenario: three files, two of them old, 54 MB. *)
Lemma statistics_count_every_file_witness :
  getCleanupStats "/app/tmp" (Some sample_tree) (Scenario.df_at "42") Scenario.noon
  = Statistics {| totalFiles := 3; totalSize := 54; oldFiles := 2;
                  diskUsage := "42%"; maxAge := Some 24;
                  tmpDir := Some "/app/tmp" |}.
Proof.
  destruct (statistics_count_every_file "/app/tmp" sample_tree
              (Scenario.df_at "42") Scenario.noon) as [Hok _].
  destruct (Hok eq_refl eq_refl) as [-> _].
  vm_compute. reflexivity.
Defined.

End CleanupStatsFacts.

(** ** The routes *)

Module RouteFacts.
Import JsString JsStringFacts Regex RegexTerms RegexFacts Sys SysTerms SysFacts.
Import ShapeTerms ShapeFacts RequestShapeFacts CaptureFacts AnswerFacts.
Import Routes RouteTerms.
Local Open Scope list_scope.

Lemma spec_truthy (s : string) : spec_shape s = true -> truthy s = true.
Proof. unfold spec_shape. now intros [H _]%andb_true_iff. Qed.

(** What [!x || !x.match(r)] answers, by the shape that the pattern
    describes. *)
Lemma absent_or_mismatch_shape (name : string) (r : regex)
      (shape : string -> bool) (x : option Param) :
  (forall s, test r s = shape s) ->
  (forall s, shape s = true -> truthy s = true) ->
  absent_or_mismatch name r x
  = if structured x then Throw (name +:+ ".match is not a function")
    else Ok (negb (text_of_shape shape x)).
Proof.
  intros Ht Hs. destruct x as [[s|items|printable]|]; try reflexivity.
  cbn. rewrite Ht. destruct (shape s) eqn:E; [|now rewrite orb_true_r].
  now rewrite (Hs s E).
Qed.

Section Middleware.
Context `{UrlParser}.

Lemma validateRequest_download (q : Query) (body : SubtitleDownloader.Options) :
  validateRequest "GET" "/api/download" q body
  = match validateDownload q with
    | Ok None => Pass
    | Ok (Some error) => Reject 400 error
    | Throw _ => Reject 500 "Internal validation error"
    end.
Proof.
  unfold validateRequest.
  change (includes "/api/download" "/parse") with false.
  change (includes "/api/download" "/download") with true.
  change (includes "/api/download" "/subtitle") with false.
  cbn [andb]. now destruct (validateDownload q) as [[e|]|e].
Qed.

(** X25. On [/api/download] the middleware looks at the identifier,
    then at the format.  A parameter that is an array or an object makes
    it answer 500; one that is missing, empty or a string of another
    shape than the one [downloadVideo] itself asks for makes it answer
    400; it lets through exactly the queries whose identifier and format
    are strings of those shapes.  With the identifier and the format of
    a query that was let through, [downloadVideo] refuses the request
    only for a part number that is not decimal. *)
Theorem download_validation_and_downloader_agree
        (q : Query) (body : SubtitleDownloader.Options) :
  validateRequest "GET" "/api/download" q body
  = (if structured (v q) then Reject 500 "Internal validation error"
     else if negb (text_of_shape identifier_shape (v q))
     then Reject 400 "Invalid video ID format"
     else if structured (format q) then Reject 500 "Internal validation error"
     else if negb (text_of_shape spec_shape (format q))
     then Reject 400 "Invalid format specification"
     else Pass)
  /\ (validateRequest "GET" "/api/download" q body = Pass ->
      exists i f,
        v q = Some (Text i) /\ format q = Some (Text f)
        /\ forall (o : VideoDownloader.Options) (w : World),
            VideoDownloader.videoID o = Some i ->
            VideoDownloader.format o = Some f ->
            (part_shape (VideoDownloader.p o) = true <->
             exists i' f', VideoDownloader.validate o w = (Ok (i', f'), w))).
Proof.
  assert (validateRequest "GET" "/api/download" q body
          = (if structured (v q) then Reject 500 "Internal validation error"
             else if negb (text_of_shape identifier_shape (v q))
             then Reject 400 "Invalid video ID format"
             else if structured (format q)
             then Reject 500 "Internal validation error"
             else if negb (text_of_shape spec_shape (format q))
             then Reject 400 "Invalid format specification"
             else Pass)) as Hverdict.
  { rewrite validateRequest_download. unfold validateDownload.
    rewrite (absent_or_mismatch_shape "v" _ identifier_shape (v q)
               test_videoIDRegex identifier_truthy).
    rewrite (absent_or_mismatch_shape "format" _ spec_shape (format q)
               test_formatRegex spec_truthy).
    destruct (structured (v q)); [reflexivity|].
    destruct (text_of_shape identifier_shape (v q)); cbn [negb]; [|reflexivity].
    destruct (structured (format q)); [reflexivity|].
    now destruct (text_of_shape spec_shape (format q)). }
  split; [exact Hverdict|].
  rewrite Hverdict. intros Hpass.
  destruct (v q) as [[i|?|?]|]; cbn in Hpass; try discriminate.
  destruct (identifier_shape i) eqn:Hi; cbn in Hpass; [|discriminate].
  destruct (format q) as [[f|?|?]|]; cbn in Hpass; try discriminate.
  destruct (spec_shape f) eqn:Hf; cbn in Hpass; [|discriminate].
  exists i, f. split; [reflexivity|]. split; [reflexivity|].
  intros o w Hov Hof.
  assert (video_request_shape o = part_shape (VideoDownloader.p o)) as Hshape.
  { unfold video_request_shape. now rewrite Hov, Hof, Hi, Hf. }
  rewrite <- Hshape. split.
  - intros Hp. apply (video_validate_iff _ w) in Hp as (i' & f' & _ & _ & E).
    eauto.
  - intros (i' & f' & E). apply (video_validate_iff _ w).
    destruct (video_validate_fields _ _ _ _ _ E) as [Ei Ef]. eauto.
Qed.

End Middleware.

(** The query of a part of a Bilibili video is let through, and
    [downloadVideo] accepts it with the part [2]; a query that repeats
    the identifier is answered with status 500. *)
Lemma download_validation_and_downloader_agree_witness :
  (exists i' f',
      VideoDownloader.validate (part_options "2") Scenario.fresh
      = (Ok (i', f'), Scenario.fresh))
  /\ validateRequest (H := lenient_urls) "GET" "/api/download"
       (download_query (Items [Text "BV1xx411c7mD"; Text "BV1GJ411x7h7"]) "30280")
       no_body
     = Reject 500 "Internal validation error".
Proof.
  destruct (download_validation_and_downloader_agree (H := lenient_urls)
              (download_query "BV1xx411c7mD" "30280") no_body) as [_ Hpass].
  destruct (Hpass eq_refl) as (i & f & Hi & Hf & Hagree).
  inversion Hi; subst i. inversion Hf; subst f.
  split; [|reflexivity].
  apply (Hagree (part_options "2") Scenario.fresh eq_refl eq_refl). reflexivity.
Defined.

(** *** The middleware and the parser on the URL *)

Lemma prefix_of_app (p b : list ascii) : prefix_of p (p ++ b) = true.
Proof. induction p as [|a p IH]; [reflexivity|]. cbn. now rewrite Ascii.eqb_refl. Qed.

Lemma includes_at_app_r (p a s : list ascii) :
  includes_at p s = true -> includes_at p (a ++ s) = true.
Proof.
  intros Hs. induction a as [|x a IH]; [exact Hs|].
  cbn [app includes_at]. rewrite IH. apply orb_true_r.
Qed.

Lemma prefix_of_app_l (p s b : list ascii) :
  prefix_of p s = true -> prefix_of p (s ++ b) = true.
Proof.
  revert s. induction p as [|a p IH]; intros s; [reflexivity|].
  destruct s as [|x s]; [discriminate|]. cbn.
  intros [-> Hp]%andb_true_iff. cbn. auto.
Qed.

Lemma includes_at_app_l (p s b : list ascii) :
  includes_at p s = true -> includes_at p (s ++ b) = true.
Proof.
  induction s as [|x s IH].
  - destruct p as [|a p]; [|discriminate]. intros _. now destruct b.
  - cbn [includes_at]. intros [Hp|Hs]%orb_true_iff.
    + change ((x :: s) ++ b) with (x :: (s ++ b)). cbn [includes_at].
      change (x :: (s ++ b)) with ((x :: s) ++ b).
      now rewrite (prefix_of_app_l p (x :: s) b Hp).
    + change ((x :: s) ++ b) with (x :: (s ++ b)). cbn [includes_at].
      rewrite (IH Hs). apply orb_true_r.
Qed.

Ltac find_mention :=
  solve [ reflexivity
        | apply includes_at_app_l; find_mention
        | apply includes_at_app_r; find_mention ].

(** A URL that the Bilibili pattern matches mentions [bilibili.com]. *)
Lemma bilibili_match_mentions (u : string) :
  test VideoParser.bilibiliRegex u = true -> includes u "bilibili.com" = true.
Proof.
  unfold test, exec.
  destruct (search _ 0 (chars u)) as [m|] eqn:E; [intros _|discriminate].
  apply search_sound in E as (pre & suf & Hu & Hm).
  apply rmatch_sound in Hm as (l & s1 & c1 & -> & Hl & _).
  unfold VideoParser.bilibiliRegex in Hl. cbn [seq_of lang] in Hl.
  destruct Hl as (l1 & r1 & -> & _ & l2 & r2 & -> & _ & l3 & r3 & -> & _
                  & l4 & r4 & -> & _ & l5 & r5 & -> & _
                  & l6 & r6 & -> & ->%lang_lit & _).
  unfold includes. rewrite Hu.
  change (chars "bilibili.com/video/")
    with (chars "bilibili.com" ++ chars "/video/").
  find_mention.
Qed.

(** A URL that the YouTube pattern of the middleware matches mentions
    [youtu.be] or [youtube.com]. *)
Lemma youtube_match_mentions (u : string) :
  test youtubeRegex u = true ->
  includes u "youtu.be" || includes u "youtube.com" = true.
Proof.
  unfold test, exec.
  destruct (search _ 0 (chars u)) as [m|] eqn:E; [intros _|discriminate].
  apply search_sound in E as (pre & suf & Hu & Hm).
  apply rmatch_sound in Hm as (l & s1 & c1 & -> & Hl & _).
  unfold youtubeRegex in Hl. cbn [seq_of lang] in Hl.
  destruct Hl as (l1 & r1 & -> & _ & l2 & r2 & -> & _ & l3 & r3 & -> & _
                  & l4 & r4 & -> & _ & l5 & r5 & -> & Hsite & _).
  unfold includes. rewrite Hu. apply orb_true_iff.
  destruct Hsite as [->%lang_lit | (l6 & r6 & -> & _ & l7 & r7 & -> & ->%lang_lit & _)].
  - left. change (chars "youtu.be/") with (chars "youtu.be" ++ chars "/").
    find_mention.
  - right.
    change (chars ".youtube.com/")
      with (chars "." ++ chars "youtube.com" ++ chars "/").
    find_mention.
Qed.

Section Agreement.
Context `{UrlParser}.

(** X26. On a URL that mentions neither [youtube.com] nor [youtu.be]
    the middleware and the parser agree: the parser resolves it, to
    Bilibili, exactly when the Bilibili pattern of the middleware
    matches it, and a URL that the middleware lets through is one that
    the parser resolves. *)
Theorem bilibili_urls_resolve_when_let_through (u : string) :
  includes u "youtube.com" = false ->
  includes u "youtu.be" = false ->
  (test VideoParser.bilibiliRegex u = true <->
   exists i,
     VideoParser.resolve u = Some i
     /\ VideoParser.id_website i = VideoParser.bilibili)
  /\ (isValidURL u = true ->
      exists i, VideoParser.resolve u = Some i).
Proof.
  intros Hy1 Hy2.
  assert (test VideoParser.bilibiliRegex u = true ->
          exists i, VideoParser.resolve u = Some i
                    /\ VideoParser.id_website i = VideoParser.bilibili) as Hres.
  { intros Ht. pose proof (bilibili_match_mentions u Ht) as Hb.
    unfold VideoParser.resolve. rewrite Hy1, Hy2, Hb. cbn [orb].
    unfold test in Ht.
    destruct (exec VideoParser.bilibiliRegex u) as [m|] eqn:He; [|discriminate].
    destruct (exec_sets 1 VideoParser.bilibiliRegex u m eq_refl He) as [x Hx].
    rewrite Hx.
    destruct (exec_group _ u x m 1 He Hx) as (body & w & Hbody & Hw & ->).
    cbn in Hbody. destruct Hbody as [<-|[]].
    apply (lang_between_cls 11 14) in Hw as [Hlen _]; [|lia].
    assert (truthy (str w) = true) as ->.
    { apply truthy_nonempty. rewrite chars_str. destruct w; [cbn in Hlen; lia|].
      discriminate. }
    eexists. split; reflexivity. }
  split; [split; [exact Hres|]|].
  - intros (i & Hr & Hw). unfold VideoParser.resolve in Hr.
    rewrite Hy1, Hy2 in Hr. cbn [orb] in Hr.
    destruct (includes u "bilibili.com"); [|discriminate].
    unfold test. destruct (exec VideoParser.bilibiliRegex u); [reflexivity|discriminate].
  - unfold isValidURL. cbn [print]. destruct (URL_accepts u); [|discriminate].
    intros [Hyt|Hbl]%orb_true_iff.
    + apply youtube_match_mentions in Hyt. rewrite Hy1, Hy2 in Hyt. discriminate.
    + destruct (Hres Hbl) as (i & Hr & _). eauto.
Qed.

End Agreement.

Section ParseRoute.
Context `{Host} `{VideoParser.Json} `{UrlParser}.

Lemma validateRequest_parse (q : Query) (body : SubtitleDownloader.Options) :
  validateRequest "GET" "/api/parse" q body
  = match validateParse q with
    | Some error => Reject 400 error
    | None => Pass
    end.
Proof.
  unfold validateRequest.
  change (includes "/api/parse" "/parse") with true.
  change (includes "/api/parse" "/download") with false.
  change (includes "/api/parse" "/subtitle") with false.
  cbn [andb]. now destruct (validateParse q).
Qed.

(** The messages of [parseVideo] are never empty. *)
Lemma parseVideo_message (u e : string) (w w' : World) :
  VideoParser.parseVideo u w = (Throw e, w') -> truthy e = true.
Proof.
  unfold VideoParser.parseVideo.
  destruct (VideoParser.resolve u) as [ident|].
  - unfold try_catch, throw.
    match goal with
    | |- (match ?m w with _ => _ end) = _ -> _ =>
        destruct (m w) as [[r|e0] w0]
    end; intros E; inversion E; reflexivity.
  - unfold throw. intros E. inversion E. reflexivity.
Qed.

(** An object is never a valid URL. *)
Lemma isValidURL_object (printable : bool) : isValidURL (Fields printable) = false.
Proof.
  unfold isValidURL. destruct printable; cbn [print]; [|reflexivity].
  now destruct (URL_accepts _).
Qed.

(** X27. The route [/api/parse] answers 400, and runs nothing, when
    the URL is missing, empty, or refused by the middleware.  Every
    other request reaches [parseVideo].  When the URL is a string, the
    result of [parseVideo] is the answer, or its failure is answered
    with status 500 and the message of the parser, which is never empty,
    so that the fallback text of the route is never sent.  When the
    name is repeated in the query the URL is an array: then nothing is
    run and the answer is status 500, with a message that is not
    empty. *)
Theorem parse_route_answers
        (q : Query) (body : SubtitleDownloader.Options) (w : World) :
  match validateParse q with
  | Some error => parseRoute q body w = (Ok (Refused 400 error), w)
  | None =>
      exists u,
        url q = Some u
        /\ isValidURL u = true
        /\ match u with
           | Text s =>
               match VideoParser.parseVideo s w with
               | (Ok result, w') =>
                   parseRoute q body w = (Ok (Parsed result), w')
               | (Throw e, w') =>
                   parseRoute q body w = (Ok (Refused 500 e), w')
                   /\ truthy e = true
               end
           | _ =>
               exists e,
                 parseRoute q body w = (Ok (Refused 500 e), w)
                 /\ truthy e = true
           end
  end.
Proof.
  unfold parseRoute. rewrite validateRequest_parse.
  unfold validateParse.
  destruct (url q) as [u|]; [|reflexivity].
  destruct (ptruthy (Some u)) eqn:Hu; cbn [negb]; [|reflexivity].
  destruct (isValidURL u) eqn:Hv; cbn [negb]; [|reflexivity].
  exists u. split; [reflexivity|]. split; [exact Hv|].
  destruct u as [s|items|printable].
  - cbn [print parseVideoOf]. unfold try_catch, bind, ret.
    destruct (VideoParser.parseVideo s w) as [[r|e] w'] eqn:E; [reflexivity|].
    now rewrite (parseVideo_message s e w w' E).
  - unfold isValidURL in Hv.
    destruct (print (Items items)) as [s|]; [|discriminate].
    cbn [parseVideoOf]. unfold try_catch, bind, ret, throw.
    destruct (has_item "youtube.com" items || has_item "youtu.be" items
              || has_item "bilibili.com" items);
      eexists; split; reflexivity.
  - rewrite isValidURL_object in Hv. discriminate.
Qed.

End ParseRoute.

(** A YouTube short passes the middleware and is answered with status
    500 and the message of the parser about the supported forms; a
    request without URL is answered with status 400. *)
Lemma parse_route_answers_witness :
  parseRoute (H := Scenario.retry_host) (H0 := Scenario.sample_json)
             (H1 := lenient_urls)
             (query_of_url "https://www.youtube.com/shorts/dQw4w9WgXcQ")
             no_body Scenario.fresh
  = (Ok (Refused 500 VideoParser.unsupported_url_message), Scenario.fresh)
  /\ parseRoute (H := Scenario.retry_host) (H0 := Scenario.sample_json)
                (H1 := lenient_urls) (download_query "BV1xx411c7mD" "30280")
                no_body Scenario.fresh
     = (Ok (Refused 400 "URL parameter is required"), Scenario.fresh).
Proof.
  split.
  - pose proof (parse_route_answers
                  (H := Scenario.retry_host) (H0 := Scenario.sample_json)
                  (H1 := lenient_urls)
                  (query_of_url "https://www.youtube.com/shorts/dQw4w9WgXcQ")
                  no_body Scenario.fresh) as Hroute.
    change (validateParse (H := lenient_urls)
              (query_of_url "https://www.youtube.com/shorts/dQw4w9WgXcQ"))
      with (@None string) in Hroute.
    destruct Hroute as (u & Hu & _ & Hp). inversion Hu; subst u.
    change (VideoParser.parseVideo (H := Scenario.retry_host)
              (H0 := Scenario.sample_json)
              "https://www.youtube.com/shorts/dQw4w9WgXcQ" Scenario.fresh)
      with (@Throw VideoParser.ParseResult VideoParser.unsupported_url_message,
            Scenario.fresh) in Hp.
    exact (proj1 Hp).
  - exact (parse_route_answers
             (H := Scenario.retry_host) (H0 := Scenario.sample_json)
             (H1 := lenient_urls) (download_query "BV1xx411c7mD" "30280")
             no_body Scenario.fresh).
Defined.

(** The middleware and the parser on a Bilibili URL with a query, and,
    outside the theorem, on a YouTube short: the middleware lets it
    through and the parser does not resolve it. *)
Lemma bilibili_urls_resolve_when_let_through_witness :
  (exists i,
      VideoParser.resolve "https://m.bilibili.com/video/BV1GJ411x7h7/?p=2&t=10"
      = Some i)
  /\ isValidURL (H := lenient_urls) "https://www.youtube.com/shorts/dQw4w9WgXcQ"
     = true
  /\ VideoParser.resolve "https://www.youtube.com/shorts/dQw4w9WgXcQ" = None.
Proof.
  split; [|split; vm_compute; reflexivity].
  destruct (bilibili_urls_resolve_when_let_through (H := lenient_urls)
              "https://m.bilibili.com/video/BV1GJ411x7h7/?p=2&t=10"
              eq_refl eq_refl) as [_ Hok].
  apply Hok. vm_compute. reflexivity.
Defined.

End RouteFacts.
